(** * Reference reconciliation and integrity verification scripts

    A shallow embedding of the reference-repair scripts of the invoicing
    data set (customers, products, invoices, quotes, payments) and the
    properties of their reconciliation, fixing and verification passes.

    Conventions of the embedding:
    - a Python [str] is a [string] (a sequence of 8-bit characters; the
      identifiers of the data set are ASCII snake case);
    - a Python [set] of strings is a list giving its iteration order;
      membership is list membership, and every statement about a set is
      quantified over all such lists, hence over every iteration order;
    - a mapping [dict] that is only looked up is a [gmap]; a [dict] that is
      iterated or written back to a file is an association list in insertion
      order;
    - a JSON object read with fixed keys is a record: a key read by
      subscript is a mandatory field, a key read with [.get] or tested with
      [in] is an optional one, all remaining keys are carried in a field of
      untouched members. *)

From Stdlib Require Import Ascii String.
From stdpp Require Import gmap strings list pretty.

#[local] Open Scope stdpp_scope.

(** ** Python string methods *)

Module PyStr.

(** [s.startswith(p)] *)
Fixpoint startswith (s p : string) {struct p} : bool :=
  match p, s with
  | EmptyString, _ => true
  | String a p', String b s' => if Ascii.eqb a b then startswith s' p' else false
  | String _ _, EmptyString => false
  end.

(** [s[n:]] for a non-negative literal [n] *)
Fixpoint slice_from (n : nat) (s : string) : string :=
  match n, s with
  | O, _ => s
  | S n', String _ s' => slice_from n' s'
  | S _, EmptyString => EmptyString
  end.

(** [sub in s] *)
Fixpoint contains (sub s : string) : bool :=
  startswith s sub ||
  match s with
  | EmptyString => false
  | String _ s' => contains sub s'
  end.

(** The scan of [s.split(sep)]: [skip] counts the characters of a separator
    that was just matched and is still to be passed over, [cur] is the part
    being collected. *)
Fixpoint split_go (sep : string) (skip : nat) (cur s : string) : list string :=
  match s with
  | EmptyString => [cur]
  | String c s' =>
      match skip with
      | S k => split_go sep k cur s'
      | O =>
          if startswith s sep
          then cur :: split_go sep (String.length sep - 1) EmptyString s'
          else split_go sep 0 (cur +:+ String c EmptyString) s'
      end
  end.

(** [s.split(sep)] for a non-empty [sep] (every call site passes the literal
    ["__"] or ["_"]; Python raises [ValueError] on the empty separator). *)
Definition split (sep s : string) : list string := split_go sep 0 EmptyString s.

(** [sep.join(parts)] *)
Fixpoint join (sep : string) (parts : list string) : string :=
  match parts with
  | [] => EmptyString
  | [part] => part
  | part :: rest => part +:+ sep +:+ join sep rest
  end.

(** [parts[0]] and [parts[-1]] of a list returned by [split], which is never
    empty. *)
Definition first_part (parts : list string) : string := hd EmptyString parts.
Definition last_part (parts : list string) : string := List.last parts EmptyString.

(** The scan of [s.replace(old, new)] for a non-empty [old]: occurrences are
    replaced left to right and do not overlap. *)
Fixpoint replace_go (old new : string) (skip : nat) (s : string) : string :=
  match s with
  | EmptyString => EmptyString
  | String c s' =>
      match skip with
      | S k => replace_go old new k s'
      | O =>
          if startswith s old
          then new +:+ replace_go old new (String.length old - 1) s'
          else String c (replace_go old new 0 s')
      end
  end.

(** What [replace] does with the empty [old]: [new] is put before every
    character and at the end. *)
Fixpoint intersperse_new (new s : string) : string :=
  match s with
  | EmptyString => new
  | String c s' => new +:+ String c (intersperse_new new s')
  end.

(** [s.replace(old, new)] *)
Definition replace (old new s : string) : string :=
  match old with
  | EmptyString => intersperse_new new s
  | String _ _ => replace_go old new 0 s
  end.

(** [c.lower()] on an ASCII letter *)
Definition lower_ascii (c : ascii) : ascii :=
  let n := nat_of_ascii c in
  if (65 <=? n)%nat && (n <=? 90)%nat then ascii_of_nat (n + 32) else c.

(** [s.lower()] *)
Fixpoint lower (s : string) : string :=
  match s with
  | EmptyString => EmptyString
  | String c s' => String (lower_ascii c) (lower s')
  end.

(** The characters [str.strip()] removes: tab, line feed, vertical tab, form
    feed, carriage return, the four separators 28 to 31 and the space. *)
Definition is_space (c : ascii) : bool :=
  let n := nat_of_ascii c in
  ((9 <=? n)%nat && (n <=? 13)%nat) || ((28 <=? n)%nat && (n <=? 32)%nat).

Fixpoint lstrip (s : string) : string :=
  match s with
  | EmptyString => EmptyString
  | String c s' => if is_space c then lstrip s' else s
  end.

Fixpoint rstrip (s : string) : string :=
  match s with
  | EmptyString => EmptyString
  | String c s' =>
      match rstrip s' with
      | EmptyString => if is_space c then EmptyString else String c EmptyString
      | r => String c r
      end
  end.

(** [s.strip()] *)
Definition strip (s : string) : string := rstrip (lstrip s).

(** Truth value of a string: the empty string is false. *)
Definition truthy (s : string) : bool :=
  match s with
  | EmptyString => false
  | String _ _ => true
  end.

End PyStr.

(** [x in ids] for a set of strings *)
Definition mem (x : string) (ids : list string) : bool := bool_decide (x ∈ ids).

(** The members of a JSON object that a script never reads. *)
#[warning="-register-all"]
Inductive json : Type :=
| JNull : json
| JBool : bool -> json
| JNum : Z -> json
| JStr : string -> json
| JArr : list json -> json
| JObj : list (string * json) -> json.

Definition members : Type := list (string * json).

(** ** fixCustomerReferences.py *)

Module FixCustomerReferences.

(** An invoice as [create_customer_mapping] and [fix_customer_references]
    read it: [invoice["customerId"]] and [invoice["id"]]. *)
Record invoice : Type := Invoice {
  inv_id : string;
  inv_customerId : string;
  inv_rest : members
}.

(** The three [variations] of lines 63-67. *)
Definition variations (clean_ref : string) : list string :=
  [ PyStr.replace "__" "_" clean_ref;
    PyStr.replace "_" EmptyString clean_ref;
    PyStr.replace " " "_" clean_ref ].

(** The body of the loop of [create_customer_mapping] (lines 39-72) for one
    [invoice_ref]: [Some t] when it stores [customer_mapping[invoice_ref] = t],
    [None] when it stores nothing. *)
Definition map_ref (actual_customer_ids : list string) (invoice_ref : string)
  : option string :=
  if PyStr.startswith invoice_ref "cust_" then
    let clean_ref := PyStr.slice_from 5 invoice_ref in
    if mem clean_ref actual_customer_ids then Some clean_ref
    else
      let by_split :=
        if PyStr.contains "__" clean_ref then
          let parts := PyStr.split "__" clean_ref in
          if mem (PyStr.last_part parts) actual_customer_ids
          then Some (PyStr.last_part parts)
          else if mem (PyStr.first_part parts) actual_customer_ids
          then Some (PyStr.first_part parts)
          else None
        else None in
      match by_split with
      | Some target => Some target
      | None =>
          List.find (fun variation => mem variation actual_customer_ids)
                    (variations clean_ref)
      end
  else None.

(** One iteration of the loop on the dictionary being built. *)
Definition map_step (actual_customer_ids : list string)
  (customer_mapping : gmap string string) (invoice_ref : string)
  : gmap string string :=
  match map_ref actual_customer_ids invoice_ref with
  | Some target => <[invoice_ref := target]> customer_mapping
  | None => customer_mapping
  end.

(** [create_customer_mapping]: [customers] is the keyed object of
    customers.json (its keys are the valid identifiers), [invoices] the list
    of invoices.json. The references are collected in a set; each one is
    visited once. *)
Definition create_customer_mapping {A : Type} (customers : list (string * A))
  (invoices : list invoice) : gmap string string :=
  let invoice_customer_refs := remove_dups (inv_customerId <$> invoices) in
  let actual_customer_ids := customers.*1 in
  foldl (map_step actual_customer_ids) ∅ invoice_customer_refs.

End FixCustomerReferences.

(** ** Shared shapes *)

(** A collection file: a flat list of entity objects or an object keyed by
    identifier. *)
Inductive collection (A : Type) : Type :=
| AsList : list A -> collection A
| AsObject : list (string * A) -> collection A.
Arguments AsList {A} _.
Arguments AsObject {A} _.

Inductive shape : Type := ListShape | ObjectShape.

Definition shape_of {A : Type} (c : collection A) : shape :=
  match c with
  | AsList _ => ListShape
  | AsObject _ => ObjectShape
  end.

(** [list(d.values()) if isinstance(d, dict) else d] *)
Definition values_or_list {A : Type} (c : collection A) : list A :=
  match c with
  | AsList l => l
  | AsObject kvs => kvs.*2
  end.

(** [d[k] = v] on a dictionary kept in insertion order: an existing key keeps
    its place and takes the new value, a new key goes to the end. *)
Fixpoint dict_set {A : Type} (k : string) (v : A) (d : list (string * A))
  : list (string * A) :=
  match d with
  | [] => [(k, v)]
  | (k', v') :: d' =>
      if String.eqb k k' then (k, v) :: d' else (k', v') :: dict_set k v d'
  end.

(** A [for] loop over a list of mutable objects: [body] updates the current
    object and the loop's local state. *)
Fixpoint for_each {A S : Type} (body : S -> A -> A * S) (s : S) (l : list A)
  : list A * S :=
  match l with
  | [] => ([], s)
  | x :: l' =>
      let '(x', s1) := body s x in
      let '(l'', s2) := for_each body s1 l' in
      (x' :: l'', s2)
  end.

(** ** finalCustomerFix.py *)

Module FinalCustomerFix.

Record customer : Type := Customer {
  cust_id : string;
  cust_rest : members
}.

(** Invoices and payments are read with [.get("customerId")]. *)
Record invoice : Type := Invoice {
  inv_customerId : option string;
  inv_rest : members
}.

Record payment : Type := Payment {
  pay_customerId : option string;
  pay_rest : members
}.

(** [load_data]: customers.json in either form becomes a list. *)
Definition load_data (customers_data : collection customer)
  (invoices : list invoice) (payments : list payment)
  : list customer * list invoice * list payment :=
  (values_or_list customers_data, invoices, payments).

(** [customer_id and customer_id not in actual_customer_ids] *)
Definition is_invalid_ref (actual_customer_ids : list string)
  (customer_id : option string) : bool :=
  match customer_id with
  | Some ref => PyStr.truthy ref && negb (mem ref actual_customer_ids)
  | None => false
  end.

(** Lines 42-54: the set of invalid references of invoices, then payments. *)
Definition invalid_refs (actual_customer_ids : list string)
  (invoices : list invoice) (payments : list payment) : list string :=
  remove_dups
    (omap (fun inv =>
             if is_invalid_ref actual_customer_ids (inv_customerId inv)
             then inv_customerId inv else None) invoices
     ++ omap (fun pay =>
             if is_invalid_ref actual_customer_ids (pay_customerId pay)
             then pay_customerId pay else None) payments).

(** Strategy 1 (lines 66-71): remove the prefix. *)
Definition strategy1 (actual_customer_ids : list string) (invalid_ref : string)
  : option string :=
  if PyStr.startswith invalid_ref "cust_" then
    let clean_ref := PyStr.slice_from 5 invalid_ref in
    if mem clean_ref actual_customer_ids then Some clean_ref else None
  else None.

(** Strategy 2 (lines 74-82): the part after the last double underscore. *)
Definition strategy2 (actual_customer_ids : list string) (invalid_ref : string)
  : option string :=
  if PyStr.startswith invalid_ref "cust_" && PyStr.contains "__" invalid_ref then
    let parts := PyStr.split "__" invalid_ref in
    if (2 <=? length parts)%nat then
      let potential_id := PyStr.last_part parts in
      if mem potential_id actual_customer_ids then Some potential_id else None
    else None
  else None.

Definition clean_search (invalid_ref : string) : string :=
  PyStr.lower
    (PyStr.replace "__" "_" (PyStr.replace "cust_" EmptyString invalid_ref)).

(** The test of lines 89-92. *)
Definition partial_match (invalid_ref actual_id : string) : bool :=
  PyStr.contains (clean_search invalid_ref) (PyStr.lower actual_id)
  || PyStr.contains (PyStr.lower actual_id) (clean_search invalid_ref).

(** Strategy 3 (lines 85-95): the first identifier, in the iteration order of
    the set, that contains the cleaned reference or is contained in it. *)
Definition strategy3 (actual_customer_ids : list string) (invalid_ref : string)
  : option string :=
  List.find (partial_match invalid_ref) actual_customer_ids.

(** The [variations] of lines 101-105. *)
Definition variations (invalid_ref : string) : list string :=
  [ PyStr.replace "cust_" EmptyString invalid_ref;
    PyStr.strip
      (PyStr.replace "_" " " (PyStr.replace "cust_" EmptyString invalid_ref));
    if PyStr.contains "_" invalid_ref
    then PyStr.last_part (PyStr.split "_" invalid_ref)
    else invalid_ref ].

(** Strategy 4 (lines 98-114): the first identifier equal to a variation. *)
Definition strategy4 (actual_customer_ids : list string) (invalid_ref : string)
  : option string :=
  List.find
    (fun actual_id =>
       existsb (fun variation => String.eqb variation actual_id)
               (variations invalid_ref))
    actual_customer_ids.

(** The body of the loop of lines 62-117 for one [invalid_ref]: the target
    stored in [customer_mapping], or [None] when the reference goes to
    [unmapped_refs]. *)
Definition map_ref (actual_customer_ids : list string) (invalid_ref : string)
  : option string :=
  match strategy1 actual_customer_ids invalid_ref with
  | Some target => Some target
  | None =>
      match strategy2 actual_customer_ids invalid_ref with
      | Some target => Some target
      | None =>
          match strategy3 actual_customer_ids invalid_ref with
          | Some target => Some target
          | None => strategy4 actual_customer_ids invalid_ref
          end
      end
  end.

Definition map_step (actual_customer_ids : list string)
  (customer_mapping : gmap string string) (invalid_ref : string)
  : gmap string string :=
  match map_ref actual_customer_ids invalid_ref with
  | Some target => <[invalid_ref := target]> customer_mapping
  | None => customer_mapping
  end.

(** [create_comprehensive_customer_mapping]. [actual_customer_ids] is the set
    [{customer["id"] for customer in customers}] in its iteration order. *)
Definition create_comprehensive_customer_mapping
  (actual_customer_ids : list string)
  (invoices : list invoice) (payments : list payment) : gmap string string :=
  foldl (map_step actual_customer_ids) ∅
        (invalid_refs actual_customer_ids invoices payments).

(** The set of identifiers of the loaded customers, in some iteration order. *)
Definition enumerates (actual_customer_ids : list string)
  (customers : list customer) : Prop :=
  forall x, x ∈ actual_customer_ids <-> x ∈ cust_id <$> customers.

(** Lines 153-158: one invoice of the fixing loop. *)
Definition fix_invoice (customer_mapping : gmap string string)
  (invoice_fixes : nat) (inv : invoice) : invoice * nat :=
  match inv_customerId inv with
  | Some old_customer_id =>
      match customer_mapping !! old_customer_id with
      | Some new_customer_id =>
          (Invoice (Some new_customer_id) (inv_rest inv), S invoice_fixes)
      | None => (inv, invoice_fixes)
      end
  | None => (inv, invoice_fixes)
  end.

(** Lines 162-167: one payment of the fixing loop. *)
Definition fix_payment (customer_mapping : gmap string string)
  (payment_fixes : nat) (pay : payment) : payment * nat :=
  match pay_customerId pay with
  | Some old_customer_id =>
      match customer_mapping !! old_customer_id with
      | Some new_customer_id =>
          (Payment (Some new_customer_id) (pay_rest pay), S payment_fixes)
      | None => (pay, payment_fixes)
      end
  | None => (pay, payment_fixes)
  end.

(** The two fixing loops of [apply_customer_fixes] for a given mapping: the
    fixed invoices and payments with their two counters. *)
Definition apply_mapping (customer_mapping : gmap string string)
  (invoices : list invoice) (payments : list payment)
  : (list invoice * nat) * (list payment * nat) :=
  (for_each (fix_invoice customer_mapping) 0 invoices,
   for_each (fix_payment customer_mapping) 0 payments).

(** [apply_customer_fixes] on the contents of invoices.json and
    payments.json: the value returned ([None] for the bare [return] taken
    when the mapping is empty) and the contents of the two files afterwards. *)
Definition apply_customer_fixes (actual_customer_ids : list string)
  (invoices : list invoice) (payments : list payment)
  : option nat * list invoice * list payment :=
  let customer_mapping :=
    create_comprehensive_customer_mapping actual_customer_ids invoices payments in
  if bool_decide (customer_mapping = ∅) then (None, invoices, payments)
  else
    let '((invoices', invoice_fixes), (payments', payment_fixes)) :=
      apply_mapping customer_mapping invoices payments in
    (Some (invoice_fixes + payment_fixes), invoices', payments').

(** Lines 184-191, [if total_fixes > 0]: whether the script announces fixes;
    [None] when the comparison raises [TypeError], which it does on the
    [None] of the bare [return]. *)
Definition main_announces_fixes (total_fixes : option nat) : option bool :=
  match total_fixes with
  | Some n => Some (0 <? n)%nat
  | None => None
  end.

End FinalCustomerFix.

(** ** scripts/archived/fixDataIntegrity.py *)

Module FixDataIntegrity.

(** A price of a pricing record: [price["id"]]. *)
Record price : Type := Price {
  price_id : string;
  price_rest : members
}.

(** An entry of [customer["customProductPricing"]]: [pricing["id"]],
    [pricing["productId"]] and, when present, [pricing["prices"]]. *)
Record pricing : Type := Pricing {
  pricing_id : string;
  pricing_productId : string;
  pricing_prices : option (list price);
  pricing_rest : members
}.

Record customer : Type := Customer {
  cust_customProductPricing : option (list pricing);
  cust_rest : members
}.

(** A line item: [item["id"]] and [item["productId"]]. *)
Record line_item : Type := LineItem {
  item_id : string;
  item_productId : string;
  item_rest : members
}.

(** An invoice; a quote has the same members. *)
Record invoice : Type := Invoice {
  inv_id : string;
  inv_customerId : option string;
  inv_lineItems : option (list line_item);
  inv_rest : members
}.

Record payment : Type := Payment {
  pay_id : string;
  pay_customerId : option string;
  pay_rest : members
}.

(** An entry of [self.issues["invalid_product_refs"]]. *)
Inductive product_issue : Type :=
| customer_pricing (customer_id invalid_product_id pricing_id : string)
| invoice_line_item (invoice_id invalid_product_id line_item_id : string)
| quote_line_item (quote_id invalid_product_id line_item_id : string).

(** The state of a [DataIntegrityFixer]: the five dictionaries and the
    product issues found so far. *)
Record fixer : Type := Fixer {
  products : list (string * json);
  customers : list (string * customer);
  invoices : list (string * invoice);
  quotes : list (string * invoice);
  payments : list (string * payment);
  invalid_product_refs : list product_issue
}.

(** products.json: the keyed object of products, or an object holding it
    under the key ["products"]. *)
Inductive products_file : Type :=
| Nested : list (string * json) -> products_file
| Flat : list (string * json) -> products_file.

(** The files of [data/normalized]. customers.json is the keyed object the
    class iterates with [.items()]; quotes.json may be missing. *)
Record files : Type := Files {
  products_json : products_file;
  customers_json : list (string * customer);
  invoices_json : collection invoice;
  quotes_json : option (collection invoice);
  payments_json : collection payment
}.

(** [{x["id"]: x for x in xs}] *)
Definition by_id {A : Type} (id : A -> string) (xs : list A) : list (string * A) :=
  foldl (fun d x => dict_set (id x) x d) [] xs.

(** The comprehension applied to what [json.load] returned: iterating a
    keyed object yields its keys, and subscripting a key with ["id"] raises
    [TypeError] ([None] here); an empty object yields nothing. *)
Definition by_id_of {A : Type} (id : A -> string) (data : collection A)
  : option (list (string * A)) :=
  match data with
  | AsList xs => Some (by_id id xs)
  | AsObject [] => Some []
  | AsObject (_ :: _) => None
  end.

(** [load_all_data] (lines 33-68); [None] when it raises. *)
Definition load_all_data (fs : files) : option fixer :=
  let products :=
    match products_json fs with
    | Nested ps => ps
    | Flat ps => ps
    end in
  match by_id_of inv_id (invoices_json fs) with
  | None => None
  | Some invoices =>
      let quotes :=
        match quotes_json fs with
        | Some (AsList qs) => by_id inv_id qs
        | Some (AsObject kvs) => kvs
        | None => []
        end in
      match by_id_of pay_id (payments_json fs) with
      | None => None
      | Some payments =>
          Some (Fixer products (customers_json fs) invoices quotes payments [])
      end
  end.

(** [save_fixed_data] (lines 425-449): the files afterwards. *)
Definition save_fixed_data (st : fixer) (fs : files) : files :=
  Files (products_json fs)
        (customers st)
        (AsList (invoices st).*2)
        (match quotes st with
         | [] => quotes_json fs
         | _ :: _ => Some (AsList (quotes st).*2)
         end)
        (AsList (payments st).*2).

(** One pricing record checked by [analyze_product_integrity]. *)
Definition check_pricing (product_ids : list string) (customer_id : string)
  (found : list product_issue) (p : pricing) : list product_issue :=
  if mem (pricing_productId p) product_ids then found
  else found ++ [customer_pricing customer_id (pricing_productId p) (pricing_id p)].

Definition check_customer (product_ids : list string)
  (found : list product_issue) (kc : string * customer) : list product_issue :=
  match cust_customProductPricing kc.2 with
  | Some ps => foldl (check_pricing product_ids kc.1) found ps
  | None => found
  end.

Definition check_item (product_ids : list string)
  (mk : string -> string -> string -> product_issue) (doc_id : string)
  (found : list product_issue) (item : line_item) : list product_issue :=
  if mem (item_productId item) product_ids then found
  else found ++ [mk doc_id (item_productId item) (item_id item)].

Definition check_document (product_ids : list string)
  (mk : string -> string -> string -> product_issue)
  (found : list product_issue) (kd : string * invoice) : list product_issue :=
  match inv_lineItems kd.2 with
  | Some items => foldl (check_item product_ids mk kd.1) found items
  | None => found
  end.

(** The issues [analyze_product_integrity] appends (lines 81-133). *)
Definition product_issues (st : fixer) (found : list product_issue)
  : list product_issue :=
  let product_ids := (products st).*1 in
  let found1 := foldl (check_customer product_ids) found (customers st) in
  let found2 :=
    foldl (check_document product_ids invoice_line_item) found1 (invoices st) in
  foldl (check_document product_ids quote_line_item) found2 (quotes st).

Definition pricing_refs (c : customer) : list string :=
  match cust_customProductPricing c with
  | Some ps => pricing_productId <$> ps
  | None => []
  end.

Definition item_refs (d : invoice) : list string :=
  match inv_lineItems d with
  | Some items => item_productId <$> items
  | None => []
  end.

(** [analyze_product_integrity]: the state with the issues appended, and the
    three sets of references it returns. *)
Definition analyze_product_integrity (st : fixer)
  : fixer * (list string * list string * list string) :=
  (Fixer (products st) (customers st) (invoices st) (quotes st) (payments st)
         (product_issues st (invalid_product_refs st)),
   (remove_dups ((customers st).*2 ≫= pricing_refs),
    remove_dups ((invoices st).*2 ≫= item_refs),
    remove_dups ((quotes st).*2 ≫= item_refs))).

(** [create_product_id_mapping] (lines 163-190): the literal table. *)
Definition create_product_id_mapping : gmap string (option string) :=
  list_to_map
    [ ("snowva_ultimate_ice_maker", Some "prod_snowva");
      ("outray", Some "prod_outray");
      ("makabrai", Some "prod_makabrai");
      ("borki", Some "prod_borki");
      ("braai_bak_2_5l", Some "prod_braai_bak_2_5l");
      ("braai_bak_3_8l", Some "prod_braai_bak_3_8l");
      ("braai_bak_5_2l", Some "prod_braai_bak_5_2l");
      ("braai_grid_large", Some "prod_braai_grid_large");
      ("braai_grid_medium", Some "prod_braai_grid_medium");
      ("braai_grid_small", Some "prod_braai_grid_small");
      ("snowva_ultimate_ice_tray_blue_assorted", Some "prod_snowva");
      ("outray_travel_tray", Some "prod_outray");
      ("braaitas", Some "prod_braai_tas");
      ("borki_handmade", Some "prod_borki");
      ("makabrai_grid_25x25", Some "prod_makabrai");
      ("makabrai_grid_40x30", Some "prod_makabrai");
      ("makabrai_grid_40x50", Some "prod_makabrai");
      ("makabrai_grid_50x40", Some "prod_makabrai");
      ("braai_bak_5_5l", Some "prod_braai_bak_5_2l");
      ("v", None) ].

(** [old in product_mapping and product_mapping[old]]: the new identifier
    when the test holds. A key mapped to [None] or to the empty string fails
    it like a missing key. *)
Definition target_of (product_mapping : gmap string (option string))
  (old_product_id : string) : option string :=
  match product_mapping !! old_product_id with
  | Some (Some new_product_id) =>
      if PyStr.truthy new_product_id then Some new_product_id else None
  | _ => None
  end.

(** Lines 222-225. *)
Definition fix_price (old_product_id new_product_id : string) (pr : price)
  : price :=
  Price (PyStr.replace old_product_id new_product_id (price_id pr)) (price_rest pr).

(** Lines 209-227: one pricing record. *)
Definition fix_pricing (product_mapping : gmap string (option string))
  (fixes_applied : nat) (p : pricing) : pricing * nat :=
  let old_product_id := pricing_productId p in
  match target_of product_mapping old_product_id with
  | Some new_product_id =>
      (Pricing (PyStr.replace old_product_id new_product_id (pricing_id p))
               new_product_id
               (map (fix_price old_product_id new_product_id) <$> pricing_prices p)
               (pricing_rest p),
       S fixes_applied)
  | None => (p, fixes_applied)
  end.

(** Lines 206-208: one customer. *)
Definition fix_customer (product_mapping : gmap string (option string))
  (fixes_applied : nat) (kc : string * customer) : (string * customer) * nat :=
  match cust_customProductPricing kc.2 with
  | Some ps =>
      let '(ps', fixes_applied') :=
        for_each (fix_pricing product_mapping) fixes_applied ps in
      ((kc.1, Customer (Some ps') (cust_rest kc.2)), fixes_applied')
  | None => (kc, fixes_applied)
  end.

(** Lines 236-243 and 252-259: one line item of an invoice or a quote. *)
Definition fix_item (product_mapping : gmap string (option string))
  (fixes_applied : nat) (item : line_item) : line_item * nat :=
  match target_of product_mapping (item_productId item) with
  | Some new_product_id =>
      (LineItem (item_id item) new_product_id (item_rest item), S fixes_applied)
  | None => (item, fixes_applied)
  end.

(** Lines 233-235 and 249-251: one invoice or quote. *)
Definition fix_document (product_mapping : gmap string (option string))
  (fixes_applied : nat) (kd : string * invoice) : (string * invoice) * nat :=
  match inv_lineItems kd.2 with
  | Some items =>
      let '(items', fixes_applied') :=
        for_each (fix_item product_mapping) fixes_applied items in
      ((kd.1, Invoice (inv_id kd.2) (inv_customerId kd.2) (Some items')
                      (inv_rest kd.2)),
       fixes_applied')
  | None => (kd, fixes_applied)
  end.

(** [fix_product_references] (lines 199-265): the state afterwards and the
    number of fixes it returns. *)
Definition fix_product_references (product_mapping : gmap string (option string))
  (st : fixer) : fixer * nat :=
  let '(customers', n1) :=
    for_each (fix_customer product_mapping) 0 (customers st) in
  let '(invoices', n2) :=
    for_each (fix_document product_mapping) n1 (invoices st) in
  let '(quotes', n3) :=
    for_each (fix_document product_mapping) n2 (quotes st) in
  (Fixer (products st) customers' invoices' quotes' (payments st)
         (invalid_product_refs st),
   n3).

(** Lines 275-279: the invalid customer identifiers of the invoices. *)
Definition invalid_customer_ids (st : fixer) : list string :=
  remove_dups
    (omap (fun kd : string * invoice =>
             match inv_customerId kd.2 with
             | Some customer_id =>
                 if PyStr.truthy customer_id
                    && negb (mem customer_id (customers st).*1)
                 then Some customer_id else None
             | None => None
             end) (invoices st)).

(** Lines 284-314: what the loop stores for one [invalid_id]; the outer
    [None] when it stores nothing, [Some None] for the value [None]. *)
Definition map_id (available_customers : list string) (invalid_id : string)
  : option (option string) :=
  if PyStr.startswith invalid_id "cust_" then
    let clean_id := PyStr.slice_from 5 invalid_id in
    let variations :=
      [ clean_id;
        PyStr.replace "__" "_" clean_id;
        PyStr.replace "_" EmptyString clean_id ] in
    if PyStr.contains "plettenberg_bay" clean_id then
      Some (Some "plettenberg_bay")
    else if PyStr.contains "pretoria_caravans" clean_id then
      Some (Some "pretoria_caravans_outdoor")
    else if PyStr.contains "sportsmans_warehouse" clean_id then
      let location :=
        if PyStr.contains "__" clean_id
        then PyStr.last_part (PyStr.split "__" clean_id)
        else EmptyString in
      Some (if mem location available_customers then Some location else None)
    else
      Some (List.find (fun variation => mem variation available_customers)
                      variations)
  else None.

Definition map_id_step (available_customers : list string)
  (customer_mapping : gmap string (option string)) (invalid_id : string)
  : gmap string (option string) :=
  match map_id available_customers invalid_id with
  | Some target => <[invalid_id := target]> customer_mapping
  | None => customer_mapping
  end.

(** [create_customer_id_mapping] (lines 267-328). *)
Definition create_customer_id_mapping (st : fixer) : gmap string (option string) :=
  let available_customers := (customers st).*1 in
  foldl (map_id_step available_customers) ∅ (invalid_customer_ids st).

(** [old_customer_id in customer_mapping and customer_mapping[old_customer_id]]
    for the result of [.get("customerId")]: the new identifier when the test
    holds. *)
Definition customer_target_of (customer_mapping : gmap string (option string))
  (old_customer_id : option string) : option string :=
  match old_customer_id with
  | Some old => target_of customer_mapping old
  | None => None
  end.

(** Lines 337-360: one invoice or quote of [fix_customer_references]. *)
Definition fix_document_customer (customer_mapping : gmap string (option string))
  (fixes_applied : nat) (kd : string * invoice) : (string * invoice) * nat :=
  match customer_target_of customer_mapping (inv_customerId kd.2) with
  | Some new_customer_id =>
      ((kd.1, Invoice (inv_id kd.2) (Some new_customer_id) (inv_lineItems kd.2)
                      (inv_rest kd.2)),
       S fixes_applied)
  | None => (kd, fixes_applied)
  end.

(** Lines 363-371: one payment of [fix_customer_references]. *)
Definition fix_payment_customer (customer_mapping : gmap string (option string))
  (fixes_applied : nat) (kp : string * payment) : (string * payment) * nat :=
  match customer_target_of customer_mapping (pay_customerId kp.2) with
  | Some new_customer_id =>
      ((kp.1, Payment (pay_id kp.2) (Some new_customer_id) (pay_rest kp.2)),
       S fixes_applied)
  | None => (kp, fixes_applied)
  end.

(** [fix_customer_references] (lines 330-377): invoices, then quotes, then
    payments. *)
Definition fix_customer_references (customer_mapping : gmap string (option string))
  (st : fixer) : fixer * nat :=
  let '(invoices', n1) :=
    for_each (fix_document_customer customer_mapping) 0 (invoices st) in
  let '(quotes', n2) :=
    for_each (fix_document_customer customer_mapping) n1 (quotes st) in
  let '(payments', n3) :=
    for_each (fix_payment_customer customer_mapping) n2 (payments st) in
  (Fixer (products st) (customers st) invoices' quotes' payments'
         (invalid_product_refs st),
   n3).

(** An entry of [self.issues["invalid_customer_refs"]]: the type of the
    document, its key and the identifier it refers to. *)
Inductive customer_issue : Type :=
| invoice_customer (document_id invalid_customer_id : string)
| quote_customer (document_id invalid_customer_id : string)
| payment_customer (document_id invalid_customer_id : string).

(** [customer_id and customer_id not in customer_ids] *)
Definition invalid_customer (customer_ids : list string)
  (customer_id : option string) : bool :=
  match customer_id with
  | Some c => PyStr.truthy c && negb (mem c customer_ids)
  | None => false
  end.

Definition check_customer_ref (customer_ids : list string)
  (mk : string -> string -> customer_issue) (document_id : string)
  (customer_id : option string) (found : list customer_issue)
  : list customer_issue :=
  match customer_id with
  | Some c =>
      if invalid_customer customer_ids customer_id
      then found ++ [mk document_id c] else found
  | None => found
  end.

(** The issues [analyze_customer_integrity] appends (lines 383-419). *)
Definition customer_issues (st : fixer) (found : list customer_issue)
  : list customer_issue :=
  let customer_ids := (customers st).*1 in
  let found1 :=
    foldl (fun found (kd : string * invoice) =>
             check_customer_ref customer_ids invoice_customer kd.1
               (inv_customerId kd.2) found) found (invoices st) in
  let found2 :=
    foldl (fun found (kd : string * invoice) =>
             check_customer_ref customer_ids quote_customer kd.1
               (inv_customerId kd.2) found) found1 (quotes st) in
  foldl (fun found (kp : string * payment) =>
           check_customer_ref customer_ids payment_customer kp.1
             (pay_customerId kp.2) found) found2 (payments st).


(** How [run_complete_fix] ends: the fixer, the customer issues it has
    collected, the files and the value returned. *)
Record run_result : Type := RunResult {
  run_state : fixer;
  run_customer_issues : list customer_issue;
  run_files : files;
  run_returned : bool
}.

(** [run_complete_fix] (lines 474-504) on the files of the directory; [None]
    when loading raises. The fixer is new, with empty lists of issues. *)
Definition run_complete_fix (fs : files) : option run_result :=
  match load_all_data fs with
  | None => None
  | Some st0 =>
      let st1 := (analyze_product_integrity st0).1 in
      let product_mapping := create_product_id_mapping in
      let '(st2, fixes_applied) := fix_product_references product_mapping st1 in
      let invalid_customer_refs := customer_issues st2 [] in
      let fs' := if (0 <? fixes_applied)%nat then save_fixed_data st2 fs else fs in
      Some (RunResult st2 invalid_customer_refs fs' (0 <? fixes_applied)%nat)
  end.


End FixDataIntegrity.

(** ** scripts/archived/fixCustomerProductIds.py *)

Module FixCustomerProductIds.

Import FixDataIntegrity.

Definition PRODUCT_ID_MAPPINGS : gmap string string :=
  list_to_map
    [ ("snowva_ultimate_ice_maker", "prod_snowva");
      ("outray", "prod_outray");
      ("makabrai", "prod_makabrai") ].

(** Lines 26-48: one pricing record; the price identifiers are rewritten
    first, then the identifier of the record. *)
Definition fix_pricing (total_fixes : nat) (p : pricing) : pricing * nat :=
  let old_product_id := pricing_productId p in
  match PRODUCT_ID_MAPPINGS !! old_product_id with
  | Some new_product_id =>
      let prices' :=
        map (fun pr => Price (PyStr.replace old_product_id new_product_id (price_id pr))
                             (price_rest pr))
          <$> pricing_prices p in
      let new_pricing_id :=
        PyStr.replace old_product_id new_product_id (pricing_id p) in
      (Pricing new_pricing_id new_product_id prices' (pricing_rest p),
       S total_fixes)
  | None => (p, total_fixes)
  end.

Definition fix_customer (total_fixes : nat) (kc : string * customer)
  : (string * customer) * nat :=
  match cust_customProductPricing kc.2 with
  | Some ps =>
      let '(ps', total_fixes') := for_each fix_pricing total_fixes ps in
      ((kc.1, Customer (Some ps') (cust_rest kc.2)), total_fixes')
  | None => (kc, total_fixes)
  end.

(** [fix_customer_product_ids]: the contents of customers.json afterwards
    and the number of fixes returned. *)
Definition fix_customer_product_ids (customers : list (string * customer))
  : list (string * customer) * nat :=
  for_each fix_customer 0 customers.

End FixCustomerProductIds.

(** ** The data set as the two verification scripts read it *)

Module Dataset.

Record product : Type := Product {
  prod_id : string;
  prod_rest : members
}.

(** [customProductPricing] is kept as the JSON value it is: the scripts
    expect an object whose keys are product identifiers. *)
Record customer : Type := Customer {
  cust_id : string;
  cust_customProductPricing : option json;
  cust_parentCompanyId : option string;
  cust_rest : members
}.

Record line_item : Type := LineItem {
  item_productId : option string;
  item_rest : members
}.

Record invoice : Type := Invoice {
  inv_id : string;
  inv_customerId : option string;
  inv_lineItems : option (list line_item);
  inv_rest : members
}.

Record allocation : Type := Allocation {
  alloc_invoiceId : option string;
  alloc_rest : members
}.

Record payment : Type := Payment {
  pay_id : string;
  pay_customerId : option string;
  pay_allocatedInvoices : option (list allocation);
  pay_rest : members
}.

(** Truth value of a JSON value: [None], [False], zero and the empty string,
    list and object are false. *)
Definition truthy_json (v : json) : bool :=
  match v with
  | JNull => false
  | JBool b => b
  | JNum z => negb (z =? 0)%Z
  | JStr s => PyStr.truthy s
  | JArr [] => false
  | JArr (_ :: _) => true
  | JObj [] => false
  | JObj (_ :: _) => true
  end.

(** [isinstance(v, dict)] *)
Definition is_dict (v : json) : bool :=
  match v with
  | JObj _ => true
  | _ => false
  end.

(** [v.keys()] of an object *)
Definition keys (v : json) : list string :=
  match v with
  | JObj kvs => kvs.*1
  | _ => []
  end.

(** [customer.get("customProductPricing", {})] *)
Definition custom_pricing (c : customer) : json :=
  default (JObj []) (cust_customProductPricing c).

(** [x.get(key, [])] *)
Definition or_empty {A : Type} (o : option (list A)) : list A :=
  match o with
  | Some l => l
  | None => []
  end.

(** [ref and ref not in ids] *)
Definition dangling (ids : list string) (ref : option string) : bool :=
  match ref with
  | Some r => PyStr.truthy r && negb (mem r ids)
  | None => false
  end.

(** The value tested by [dangling], for the message. *)
Definition ref_text (ref : option string) : string :=
  match ref with
  | Some r => r
  | None => EmptyString
  end.

(** The six lists of messages of a run and the running total. *)
Record report : Type := Report {
  customer_product_errors : list string;
  invoice_customer_errors : list string;
  invoice_product_errors : list string;
  payment_customer_errors : list string;
  payment_invoice_errors : list string;
  parent_errors : list string;
  total_errors : nat
}.

(** [if errors: total_errors += len(errors)] *)
Definition add_errors (total_errors : nat) (errors : list string) : nat :=
  match errors with
  | [] => total_errors
  | _ :: _ => total_errors + length errors
  end.





End Dataset.

(** ** scripts/archived/finalIntegrityCheck.py *)

Module FinalIntegrityCheck.

Import Dataset.

(** products.json as [load_data] accepts it. *)
Inductive products_data : Type :=
| Nested : list (string * product) -> products_data
| Keyed : list (string * product) -> products_data
| Listed : list product -> products_data.

(** [load_data] (lines 11-44). *)
Definition load_data (customers_data : collection customer)
  (products_data : products_data) (invoices_data : list invoice)
  (payments_data : list payment)
  : list customer * list product * list invoice * list payment :=
  (values_or_list customers_data,
   match products_data with
   | Nested kvs => kvs.*2
   | Keyed kvs => kvs.*2
   | Listed ps => ps
   end,
   invoices_data, payments_data).

(** Lines 74-87, one customer. The [except] branch is not reachable here:
    [customer["id"]] was already read to build [customer_ids]. *)
Definition check_customer_products (product_ids : list string)
  (errors : list string) (c : customer) : list string :=
  if truthy_json (custom_pricing c) && is_dict (custom_pricing c) then
    foldl (fun errors product_ref =>
             if mem product_ref product_ids then errors
             else errors ++ ["Customer '" +:+ cust_id c
                             +:+ "' references invalid product '"
                             +:+ product_ref +:+ "'"])
          errors (keys (custom_pricing c))
  else errors.

(** Lines 119-124, one line item with its index. *)
Definition check_item (product_ids : list string) (invoice_id : string)
  (errors : list string) (ix : nat * line_item) : list string :=
  if dangling product_ids (item_productId ix.2)
  then errors ++ ["Invoice '" +:+ invoice_id +:+ "' lineItem[" +:+ pretty ix.1
                  +:+ "] references invalid product '"
                  +:+ ref_text (item_productId ix.2) +:+ "'"]
  else errors.

(** Lines 107-124, one invoice: the two lists being filled. *)
Definition check_invoice (customer_ids product_ids : list string)
  (errors : list string * list string) (inv : invoice)
  : list string * list string :=
  let customer_errors :=
    if dangling customer_ids (inv_customerId inv)
    then errors.1 ++ ["Invoice '" +:+ inv_id inv
                      +:+ "' references invalid customer '"
                      +:+ ref_text (inv_customerId inv) +:+ "'"]
    else errors.1 in
  (customer_errors,
   foldl (check_item product_ids (inv_id inv)) errors.2
         (imap pair (or_empty (inv_lineItems inv)))).

(** Lines 166-171, one allocation. *)
Definition check_allocation (invoice_ids : list string) (payment_id : string)
  (errors : list string) (a : allocation) : list string :=
  if dangling invoice_ids (alloc_invoiceId a)
  then errors ++ ["Payment '" +:+ payment_id
                  +:+ "' references invalid invoice '"
                  +:+ ref_text (alloc_invoiceId a) +:+ "'"]
  else errors.

(** Lines 154-171, one payment. *)
Definition check_payment (customer_ids invoice_ids : list string)
  (errors : list string * list string) (pay : payment)
  : list string * list string :=
  let customer_errors :=
    if dangling customer_ids (pay_customerId pay)
    then errors.1 ++ ["Payment '" +:+ pay_id pay
                      +:+ "' references invalid customer '"
                      +:+ ref_text (pay_customerId pay) +:+ "'"]
    else errors.1 in
  (customer_errors,
   foldl (check_allocation invoice_ids (pay_id pay)) errors.2
         (or_empty (pay_allocatedInvoices pay))).

(** Lines 200-207, one customer. *)
Definition check_parent (customer_ids : list string)
  (errors : list string) (c : customer) : list string :=
  if dangling customer_ids (cust_parentCompanyId c)
  then errors ++ ["Customer '" +:+ cust_id c
                  +:+ "' references invalid parent '"
                  +:+ ref_text (cust_parentCompanyId c) +:+ "'"]
  else errors.




End FinalIntegrityCheck.

(** ** scripts/archived/verifyDataIntegrity.py *)

Module VerifyDataIntegrity.

Import Dataset.

(** How a run ends: [Fatal] is the early [return False] taken when a file
    could not be loaded, [Raised] an exception nobody catches, [Verified]
    the end of the function with its lists and total. *)
Inductive outcome : Type :=
| Fatal : outcome
| Raised : outcome
| Verified : report -> outcome.


(** Lines 94-98, one customer: [custom_pricing.items()] raises
    [AttributeError] on anything but an object. *)
Definition check_customer_products (product_ids : list string)
  (errors : option (list string)) (c : customer) : option (list string) :=
  match errors with
  | None => None
  | Some errors =>
      if is_dict (custom_pricing c) then
        Some (foldl (fun errors product_ref =>
                       if mem product_ref product_ids then errors
                       else errors ++ ["Customer '" +:+ cust_id c
                                       +:+ "' references invalid product '"
                                       +:+ product_ref
                                       +:+ "' in customProductPricing"])
                    errors (keys (custom_pricing c)))
      else None
  end.

Definition check_item (product_ids : list string) (invoice_id : string)
  (errors : list string) (ix : nat * line_item) : list string :=
  if dangling product_ids (item_productId ix.2)
  then errors ++ ["Invoice '" +:+ invoice_id +:+ "' lineItem[" +:+ pretty ix.1
                  +:+ "] references invalid product '"
                  +:+ ref_text (item_productId ix.2) +:+ "'"]
  else errors.

Definition check_invoice (customer_ids product_ids : list string)
  (errors : list string * list string) (inv : invoice)
  : list string * list string :=
  let customer_errors :=
    if dangling customer_ids (inv_customerId inv)
    then errors.1 ++ ["Invoice '" +:+ inv_id inv
                      +:+ "' references invalid customer '"
                      +:+ ref_text (inv_customerId inv) +:+ "'"]
    else errors.1 in
  (customer_errors,
   foldl (check_item product_ids (inv_id inv)) errors.2
         (imap pair (or_empty (inv_lineItems inv)))).

Definition check_allocation (invoice_ids : list string) (payment_id : string)
  (errors : list string) (a : allocation) : list string :=
  if dangling invoice_ids (alloc_invoiceId a)
  then errors ++ ["Payment '" +:+ payment_id
                  +:+ "' references invalid invoice '"
                  +:+ ref_text (alloc_invoiceId a) +:+ "' in allocations"]
  else errors.

Definition check_payment (customer_ids invoice_ids : list string)
  (errors : list string * list string) (pay : payment)
  : list string * list string :=
  let customer_errors :=
    if dangling customer_ids (pay_customerId pay)
    then errors.1 ++ ["Payment '" +:+ pay_id pay
                      +:+ "' references invalid customer '"
                      +:+ ref_text (pay_customerId pay) +:+ "'"]
    else errors.1 in
  (customer_errors,
   foldl (check_allocation invoice_ids (pay_id pay)) errors.2
         (or_empty (pay_allocatedInvoices pay))).

Definition check_parent (customer_ids : list string)
  (errors : list string) (c : customer) : list string :=
  if dangling customer_ids (cust_parentCompanyId c)
  then errors ++ ["Customer '" +:+ cust_id c
                  +:+ "' references invalid parent company '"
                  +:+ ref_text (cust_parentCompanyId c) +:+ "'"]
  else errors.

(** [verify_data_integrity] (lines 25-256). A file is [None] when
    [load_json_file] returned [None] on it. *)
Definition verify_data_integrity (customers : option (collection customer))
  (products : option (collection product))
  (invoices : option (collection invoice))
  (payments : option (collection payment)) : outcome :=
  match customers, products, invoices, payments with
  | Some customers, Some products, Some invoices, Some payments =>
      let customers := values_or_list customers in
      let products := values_or_list products in
      let invoices := values_or_list invoices in
      let payments := values_or_list payments in
      let product_ids := prod_id <$> products in
      let customer_ids := cust_id <$> customers in
      let invoice_ids := inv_id <$> invoices in
      let total_errors := 0 in
      match foldl (check_customer_products product_ids) (Some []) customers with
      | None => Raised
      | Some customer_product_errors =>
          let total_errors := add_errors total_errors customer_product_errors in
          let '(invoice_customer_errors, invoice_product_errors) :=
            foldl (check_invoice customer_ids product_ids) ([], []) invoices in
          let total_errors := add_errors total_errors invoice_customer_errors in
          let total_errors := add_errors total_errors invoice_product_errors in
          let '(payment_customer_errors, payment_invoice_errors) :=
            foldl (check_payment customer_ids invoice_ids) ([], []) payments in
          let total_errors := add_errors total_errors payment_customer_errors in
          let total_errors := add_errors total_errors payment_invoice_errors in
          let parent_child_errors :=
            foldl (check_parent customer_ids) [] customers in
          let total_errors := add_errors total_errors parent_child_errors in
          Verified (Report customer_product_errors invoice_customer_errors
                           invoice_product_errors payment_customer_errors
                           payment_invoice_errors parent_child_errors
                           total_errors)
      end
  | _, _, _, _ => Fatal
  end.

End VerifyDataIntegrity.

(** ** fixCustomerReferences.py, [fix_customer_references] *)

Module FixCustomerReferencesRun.

Import FixCustomerReferences.

(** A payment as [fix_customer_references] reads it: [payment["customerId"]]
    and [payment["id"]]. *)
Record payment : Type := Payment {
  pay_id : string;
  pay_customerId : string;
  pay_rest : members
}.

(** Lines 98-106: one invoice. *)
Definition fix_invoice (customer_mapping : gmap string string)
  (invoice_fixes : nat) (inv : invoice) : invoice * nat :=
  match customer_mapping !! inv_customerId inv with
  | Some new_customer_id =>
      (Invoice (inv_id inv) new_customer_id (inv_rest inv), S invoice_fixes)
  | None => (inv, invoice_fixes)
  end.

(** Lines 118-126: one payment. *)
Definition fix_payment (customer_mapping : gmap string string)
  (payment_fixes : nat) (pay : payment) : payment * nat :=
  match customer_mapping !! pay_customerId pay with
  | Some new_customer_id =>
      (Payment (pay_id pay) new_customer_id (pay_rest pay), S payment_fixes)
  | None => (pay, payment_fixes)
  end.

(** What a run leaves: the two files and the two counts it prints.
    payments.json and its count are [None] when the file does not exist. *)
Record fixed : Type := Fixed {
  fixed_invoices : list invoice;
  invoice_fixes : nat;
  fixed_payments : option (list payment);
  payment_fixes : option nat
}.

(** [fix_customer_references] (lines 88-139). [payments] is [None] when
    opening payments.json raises [FileNotFoundError]. *)
Definition fix_customer_references {A : Type} (customers : list (string * A))
  (invoices : list invoice) (payments : option (list payment)) : fixed :=
  let customer_mapping := create_customer_mapping customers invoices in
  let '(invoices', invoice_fixes) :=
    for_each (fix_invoice customer_mapping) 0 invoices in
  match payments with
  | Some payments =>
      let '(payments', payment_fixes) :=
        for_each (fix_payment customer_mapping) 0 payments in
      Fixed invoices' invoice_fixes (Some payments') (Some payment_fixes)
  | None => Fixed invoices' invoice_fixes None None
  end.

End FixCustomerReferencesRun.

(** ** scripts/archived/manualCustomerFix.py *)

Module ManualCustomerFix.

Import FinalCustomerFix.

(** Lines 18-27. *)
Definition manual_mappings : gmap string string :=
  list_to_map
    [ ("cust_aa_business_services", "a_a_business_services_pty_ltd");
      ("cust_daramode__tuinroete_woonwaens", "t_a_tuinroete_woonwaens");
      ("cust_limeco_minerals_braailholix",
       "limeco_minerals_pty_ltd_t_a_braailholix");
      ("cust_riversdale_trading_bali_trading",
       "riversdale_trading_t_a_bali_trading");
      ("cust_santonio_musina_foodzone", "santonio_cc_t_a_musina_foodzone");
      ("cust_steyns_boumateriale", "steyn_s_boumateriale");
      ("cust_walkers_midas_upington_4x4_mega_world",
       "walkers_midas_upington_t_a_4x4_mega_world");
      ("cust_watko_promotional_branded_image",
       "watko_promotional_cc_t_a_branded_image") ].

(** Lines 30-35. *)
Definition medium_mappings : gmap string string :=
  list_to_map
    [ ("cust_estelle_menzies", "stellenbosch");
      ("cust_johan_nel", "hahn_hahn");
      ("cust_naomi_bouwer", "agri_bonus");
      ("cust_lena_van_rensburg", "lydenburg") ].

(** [{**manual_mappings, **medium_mappings}]: on a shared key the second
    dictionary decides. *)
Definition all_mappings : gmap string string :=
  medium_mappings ∪ manual_mappings.

(** [apply_manual_customer_mappings] (lines 10-80) on the contents of
    invoices.json and payments.json: the number returned and the two files
    afterwards. Its two loops are those of [apply_customer_fixes]. *)
Definition apply_manual_customer_mappings (invoices : list invoice)
  (payments : list payment) : nat * list invoice * list payment :=
  let '((invoices', invoice_fixes), (payments', payment_fixes)) :=
    apply_mapping all_mappings invoices payments in
  (invoice_fixes + payment_fixes, invoices', payments').

End ManualCustomerFix.

(** * Properties *)

(** ** Strings *)

Section string_facts.

Lemma mem_true (x : string) (ids : list string) : mem x ids = true <-> x ∈ ids.
Proof. unfold mem. apply bool_decide_eq_true. Qed.

Lemma mem_false (x : string) (ids : list string) : mem x ids = false <-> x ∉ ids.
Proof. unfold mem. apply bool_decide_eq_false. Qed.

Lemma startswith_app (p s : string) : PyStr.startswith (p +:+ s) p = true.
Proof.
  induction p as [|a p IH]; simpl.
  - reflexivity.
  - rewrite Ascii.eqb_refl. exact IH.
Qed.

Lemma startswith_spec (s p : string) :
  PyStr.startswith s p = true <-> exists r, s = p +:+ r.
Proof.
  revert s. induction p as [|a p IH]; intros s; simpl.
  - split; [intros _; exists s; reflexivity | reflexivity].
  - destruct s as [|b s]; simpl.
    + split; [discriminate | intros [r Hr]; discriminate].
    + destruct (Ascii.eqb_spec a b) as [->|Hne].
      * rewrite IH. split; intros [r Hr]; exists r; [by rewrite Hr | by injection Hr].
      * split; [discriminate | intros [r Hr]; injection Hr as Hab _; congruence].
Qed.

Lemma slice_from_app (p s : string) : PyStr.slice_from (String.length p) (p +:+ s) = s.
Proof. induction p as [|a p IH]; simpl; [by destruct s | exact IH]. Qed.

Lemma contains_startswith (sub s : string) :
  PyStr.startswith s sub = true -> PyStr.contains sub s = true.
Proof. intros H. destruct s; simpl in *; rewrite H; reflexivity. Qed.



Lemma contains_spec (sub s : string) :
  PyStr.contains sub s = true <-> exists l r, s = l +:+ sub +:+ r.
Proof.
  induction s as [|c s IH]; simpl.
  - rewrite orb_false_r, startswith_spec. split.
    + intros [r Hr]. exists EmptyString, r. exact Hr.
    + intros [l [r Hlr]]. destruct l; [by exists r|discriminate].
  - rewrite orb_true_iff, startswith_spec, IH. split.
    + intros [[r Hr]|[l [r Hlr]]].
      * exists EmptyString, r. exact Hr.
      * exists (String c l), r. simpl. by rewrite Hlr.
    + intros [l [r Hlr]]. destruct l as [|a l]; simpl in Hlr.
      * left. by exists r.
      * right. injection Hlr as _ Hs. by exists l, r.
Qed.

(** [split] never returns the empty list, and returns at least two parts
    when the separator occurs. *)
Lemma split_go_length (sep : string) (skip : nat) (cur s : string) :
  1 <= length (PyStr.split_go sep skip cur s).
Proof.
  revert skip cur. induction s as [|c s IH]; intros skip cur; simpl; [lia|].
  destruct skip; [|apply IH].
  destruct (PyStr.startswith (String c s) sep); simpl; [lia|apply IH].
Qed.

Lemma split_go_contains (sep cur s : string) :
  sep <> EmptyString ->
  PyStr.contains sep s = true -> 2 <= length (PyStr.split_go sep 0 cur s).
Proof.
  intros Hsep. revert cur. induction s as [|c s IH]; intros cur.
  - simpl. destruct sep; [done|discriminate].
  - cbn [PyStr.contains PyStr.split_go].
    destruct (PyStr.startswith (String c s) sep) eqn:Hpre.
    + intros _. cbn [length].
      pose proof (split_go_length sep (String.length sep - 1) EmptyString s).
      lia.
    + rewrite orb_false_l. apply IH.
Qed.

Lemma string_app_nil_r (s : string) : s +:+ EmptyString = s.
Proof.
  induction s as [|c s IH]; [done|].
  change (String c (s +:+ EmptyString) = String c s). by rewrite IH.
Qed.

Lemma string_app_assoc (a b c : string) : (a +:+ b) +:+ c = a +:+ b +:+ c.
Proof.
  induction a as [|x a IH]; [done|].
  change (String x ((a +:+ b) +:+ c) = String x (a +:+ b +:+ c)). by rewrite IH.
Qed.





(** [replace] is [split] followed by [join], and joining what was split
    gives the string back: every occurrence met by the scan, left to right
    and without overlap, is replaced and nothing else is touched. *)
Lemma join_cons (sep part : string) (parts : list string) :
  1 <= length parts ->
  PyStr.join sep (part :: parts) = part +:+ sep +:+ PyStr.join sep parts.
Proof. destruct parts; simpl; [lia|done]. Qed.

Lemma replace_go_join (old new : string) (skip : nat) (cur s : string) :
  cur +:+ PyStr.replace_go old new skip s
  = PyStr.join new (PyStr.split_go old skip cur s).
Proof.
  revert skip cur. induction s as [|c s IH]; intros skip cur.
  - simpl. apply string_app_nil_r.
  - cbn [PyStr.replace_go PyStr.split_go]. destruct skip as [|k]; [|apply IH].
    destruct (PyStr.startswith (String c s) old).
    + rewrite join_cons by apply split_go_length.
      by rewrite <- (IH (String.length old - 1) EmptyString).
    + rewrite <- IH. by rewrite string_app_assoc.
Qed.

Lemma replace_split_join (old new s : string) :
  old <> EmptyString ->
  PyStr.replace old new s = PyStr.join new (PyStr.split old s).
Proof.
  intros Hold. unfold PyStr.replace, PyStr.split.
  destruct old as [|a old]; [done|].
  by rewrite <- replace_go_join.
Qed.

Lemma replace_go_same (old s : string) (skip : nat) :
  old <> EmptyString ->
  PyStr.replace_go old old skip s = PyStr.slice_from skip s.
Proof.
  intros Hold. revert skip. induction s as [|c s IH]; intros skip.
  - by destruct skip.
  - cbn [PyStr.replace_go]. destruct skip as [|k]; [|apply IH].
    cbn [PyStr.slice_from].
    destruct (PyStr.startswith (String c s) old) eqn:Hpre.
    + apply startswith_spec in Hpre as [r Hr].
      destruct old as [|a old]; [done|]. simpl in Hr. injection Hr as -> ->.
      rewrite IH.
      replace (String.length (String a old) - 1) with (String.length old)
        by (cbn [String.length]; lia).
      change (String a old +:+ PyStr.slice_from (String.length old) (old +:+ r)
              = String a (old +:+ r)).
      by rewrite slice_from_app.
    + by rewrite IH.
Qed.

Lemma join_split (sep s : string) :
  sep <> EmptyString -> PyStr.join sep (PyStr.split sep s) = s.
Proof.
  intros Hsep. rewrite <- replace_split_join by done.
  unfold PyStr.replace. destruct sep as [|a sep]; [done|].
  by rewrite replace_go_same.
Qed.

(** Without an occurrence of [old] the string is returned as it is. *)
Lemma replace_absent (old new s : string) :
  PyStr.contains old s = false -> PyStr.replace old new s = s.
Proof.
  intros Hc. unfold PyStr.replace. destruct old as [|a old].
  - by destruct s.
  - induction s as [|c s IH]; [done|].
    cbn [PyStr.contains] in Hc. apply orb_false_iff in Hc as [Hpre Hc].
    cbn [PyStr.replace_go]. rewrite Hpre. by rewrite IH.
Qed.

End string_facts.

(** ** The loop that fills a mapping *)

Section mapping_loop.

Context {V : Type} (f : string -> option V).

(** A loop that stores [f k] under [k] for every visited key that has one:
    afterwards a visited key holds [f k], any other key is unchanged. *)
Lemma lookup_mapping_loop (m : gmap string V) (ks : list string) (k : string) :
  foldl (fun (m : gmap string V) k =>
           match f k with Some v => <[k:=v]> m | None => m end) m ks !! k
  = if bool_decide (k ∈ ks)
    then match f k with Some v => Some v | None => m !! k end
    else m !! k.
Proof.
  revert m. induction ks as [|x ks IH]; intros m; cbn [foldl].
  - rewrite bool_decide_eq_false_2; [done | apply not_elem_of_nil].
  - rewrite IH. destruct (decide (k = x)) as [->|Hne].
    + rewrite (bool_decide_eq_true_2 (x ∈ x :: ks)) by apply list_elem_of_here.
      destruct (f x) as [v|] eqn:Hf.
      * case_bool_decide; [done | apply lookup_insert_eq].
      * by case_bool_decide.
    + assert (Hm : match f x with Some v => <[x:=v]> m | None => m end !! k = m !! k).
      { destruct (f x); [by rewrite lookup_insert_ne|done]. }
      rewrite Hm.
      destruct (decide (k ∈ ks)) as [Hin|Hnin].
      * rewrite !bool_decide_eq_true_2; [done | by apply list_elem_of_further | done].
      * rewrite !bool_decide_eq_false_2; [done | | done].
        intros [?|?]%elem_of_cons; done.
Qed.

Lemma lookup_mapping_loop_empty (ks : list string) (k : string) :
  foldl (fun (m : gmap string V) k =>
           match f k with Some v => <[k:=v]> m | None => m end) ∅ ks !! k
  = if bool_decide (k ∈ ks) then f k else None.
Proof.
  rewrite lookup_mapping_loop, lookup_empty.
  case_bool_decide; [by destruct (f k)|done].
Qed.

End mapping_loop.

(** What each builder stores under a reference. *)
Lemma create_customer_mapping_lookup {A : Type} (customers : list (string * A))
  (invoices : list FixCustomerReferences.invoice) (ref : string) :
  FixCustomerReferences.create_customer_mapping customers invoices !! ref
  = if bool_decide (ref ∈ FixCustomerReferences.inv_customerId <$> invoices)
    then FixCustomerReferences.map_ref customers.*1 ref
    else None.
Proof.
  unfold FixCustomerReferences.create_customer_mapping.
  etrans;
    [exact (lookup_mapping_loop_empty
              (FixCustomerReferences.map_ref customers.*1) _ ref)|].
  by rewrite (bool_decide_ext _ _ (elem_of_remove_dups _ ref)).
Qed.

Lemma create_comprehensive_customer_mapping_lookup (ids : list string)
  (invoices : list FinalCustomerFix.invoice)
  (payments : list FinalCustomerFix.payment) (ref : string) :
  FinalCustomerFix.create_comprehensive_customer_mapping ids invoices payments !! ref
  = if bool_decide (ref ∈ FinalCustomerFix.invalid_refs ids invoices payments)
    then FinalCustomerFix.map_ref ids ref
    else None.
Proof.
  unfold FinalCustomerFix.create_comprehensive_customer_mapping.
  apply (lookup_mapping_loop_empty (FinalCustomerFix.map_ref ids)).
Qed.

Lemma create_customer_id_mapping_lookup (st : FixDataIntegrity.fixer) (ref : string) :
  FixDataIntegrity.create_customer_id_mapping st !! ref
  = if bool_decide (ref ∈ FixDataIntegrity.invalid_customer_ids st)
    then FixDataIntegrity.map_id (FixDataIntegrity.customers st).*1 ref
    else None.
Proof.
  unfold FixDataIntegrity.create_customer_id_mapping.
  apply (lookup_mapping_loop_empty
           (FixDataIntegrity.map_id (FixDataIntegrity.customers st).*1)).
Qed.

(** ** The strategies of the customer builders *)

Lemma fcr_map_ref_prefix (ids : list string) (ref : string) :
  PyStr.startswith ref "cust_" = true ->
  PyStr.slice_from 5 ref ∈ ids ->
  FixCustomerReferences.map_ref ids ref = Some (PyStr.slice_from 5 ref).
Proof.
  intros Hpre Hin. unfold FixCustomerReferences.map_ref.
  rewrite Hpre. apply mem_true in Hin. by rewrite Hin.
Qed.

Lemma fcf_map_ref_prefix (ids : list string) (ref : string) :
  PyStr.startswith ref "cust_" = true ->
  PyStr.slice_from 5 ref ∈ ids ->
  FinalCustomerFix.map_ref ids ref = Some (PyStr.slice_from 5 ref).
Proof.
  intros Hpre Hin. unfold FinalCustomerFix.map_ref, FinalCustomerFix.strategy1.
  rewrite Hpre. apply mem_true in Hin. by rewrite Hin.
Qed.

(** C6. Prefix strip: when the reference starts with ["cust_"] and what
    follows the prefix is a valid identifier, both customer builders map the
    reference to it, whatever the later strategies (split, variations,
    containment) would have found: the strategy comes first. *)
Theorem prefix_strip_tried_first (ids : list string) (invalid_ref : string) :
  PyStr.startswith invalid_ref "cust_" = true ->
  PyStr.slice_from 5 invalid_ref ∈ ids ->
  FixCustomerReferences.map_ref ids invalid_ref
    = Some (PyStr.slice_from 5 invalid_ref)
  /\ FinalCustomerFix.map_ref ids invalid_ref
    = Some (PyStr.slice_from 5 invalid_ref).
Proof.
  intros Hpre Hin. split.
  - by apply fcr_map_ref_prefix.
  - by apply fcf_map_ref_prefix.
Qed.

Lemma prefix_strip_tried_first_witness :
  FixCustomerReferences.map_ref ["plettenberg_bay"] "cust_plettenberg_bay"
    = Some "plettenberg_bay"
  /\ FinalCustomerFix.map_ref ["plettenberg_bay"] "cust_plettenberg_bay"
    = Some "plettenberg_bay".
Proof.
  apply (prefix_strip_tried_first ["plettenberg_bay"] "cust_plettenberg_bay").
  - reflexivity.
  - apply list_elem_of_here.
Defined.

(** The example of the prefix strip, for every valid set that holds
    ["plettenberg_bay"]. *)
Example prefix_strip_plettenberg_bay (ids : list string) :
  "plettenberg_bay" ∈ ids ->
  FixCustomerReferences.map_ref ids "cust_plettenberg_bay" = Some "plettenberg_bay"
  /\ FinalCustomerFix.map_ref ids "cust_plettenberg_bay" = Some "plettenberg_bay".
Proof.
  intros Hin. split.
  - by apply (fcr_map_ref_prefix ids "cust_plettenberg_bay").
  - by apply (fcf_map_ref_prefix ids "cust_plettenberg_bay").
Qed.

(** The entry stored in the mapping of each builder. *)
Lemma create_customer_mapping_prefix {A : Type} (customers : list (string * A))
  (invoices : list FixCustomerReferences.invoice) (ref : string) :
  PyStr.startswith ref "cust_" = true ->
  PyStr.slice_from 5 ref ∈ customers.*1 ->
  ref ∈ FixCustomerReferences.inv_customerId <$> invoices ->
  FixCustomerReferences.create_customer_mapping customers invoices !! ref
  = Some (PyStr.slice_from 5 ref).
Proof.
  intros Hpre Hin Href. rewrite create_customer_mapping_lookup.
  rewrite bool_decide_eq_true_2 by done. by apply fcr_map_ref_prefix.
Qed.

Lemma create_comprehensive_customer_mapping_prefix (ids : list string)
  (invoices : list FinalCustomerFix.invoice)
  (payments : list FinalCustomerFix.payment) (ref : string) :
  PyStr.startswith ref "cust_" = true ->
  PyStr.slice_from 5 ref ∈ ids ->
  ref ∈ FinalCustomerFix.invalid_refs ids invoices payments ->
  FinalCustomerFix.create_comprehensive_customer_mapping ids invoices payments
    !! ref
  = Some (PyStr.slice_from 5 ref).
Proof.
  intros Hpre Hin Href. rewrite create_comprehensive_customer_mapping_lookup.
  rewrite bool_decide_eq_true_2 by done. by apply fcf_map_ref_prefix.
Qed.

(** The same on every reference written as the prefix followed by a valid
    identifier. *)
Lemma prefix_strip_app (ids : list string) (clean : string) :
  clean ∈ ids ->
  FixCustomerReferences.map_ref ids ("cust_" +:+ clean) = Some clean
  /\ FinalCustomerFix.map_ref ids ("cust_" +:+ clean) = Some clean.
Proof.
  intros Hin.
  pose proof (slice_from_app "cust_" clean) as Hs. simpl String.length in Hs.
  split.
  - rewrite <- Hs at 2. apply fcr_map_ref_prefix; [apply startswith_app | by rewrite Hs].
  - rewrite <- Hs at 2. apply fcf_map_ref_prefix; [apply startswith_app | by rewrite Hs].
Qed.

Lemma find_elem_of {A : Type} (p : A -> bool) (l : list A) (x : A) :
  List.find p l = Some x -> x ∈ l /\ p x = true.
Proof.
  intros H. apply find_some in H as [Hin Hp]. split; [by apply list_elem_of_In|done].
Qed.

Lemma find_None_iff {A : Type} (p : A -> bool) (l : list A) :
  List.find p l = None <-> forall x, x ∈ l -> p x = false.
Proof.
  split.
  - intros H x Hin. apply (find_none p l H), list_elem_of_In, Hin.
  - intros H. induction l as [|a l IH]; [done|]. simpl.
    rewrite (H a) by apply list_elem_of_here.
    apply IH. intros x Hx. apply H. by apply list_elem_of_further.
Qed.

(** The split strategy of [create_customer_mapping], with the parts named. *)
Lemma fcr_map_ref_split_last (ids : list string) (ref clean last : string) :
  PyStr.startswith ref "cust_" = true ->
  PyStr.slice_from 5 ref = clean ->
  clean ∉ ids ->
  PyStr.contains "__" clean = true ->
  PyStr.last_part (PyStr.split "__" clean) = last ->
  last ∈ ids ->
  FixCustomerReferences.map_ref ids ref = Some last.
Proof.
  intros Hpre Hclean Hnin Hsep Hlast Hin. unfold FixCustomerReferences.map_ref.
  rewrite Hpre, Hclean. apply mem_false in Hnin. rewrite Hnin, Hsep, Hlast.
  apply mem_true in Hin. by rewrite Hin.
Qed.

Lemma fcr_map_ref_split_first (ids : list string) (ref clean last first : string) :
  PyStr.startswith ref "cust_" = true ->
  PyStr.slice_from 5 ref = clean ->
  clean ∉ ids ->
  PyStr.contains "__" clean = true ->
  PyStr.last_part (PyStr.split "__" clean) = last ->
  last ∉ ids ->
  PyStr.first_part (PyStr.split "__" clean) = first ->
  first ∈ ids ->
  FixCustomerReferences.map_ref ids ref = Some first.
Proof.
  intros Hpre Hclean Hnin Hsep Hlast Hlnin Hfirst Hin.
  unfold FixCustomerReferences.map_ref.
  rewrite Hpre, Hclean. apply mem_false in Hnin. rewrite Hnin, Hsep, Hlast, Hfirst.
  apply mem_false in Hlnin. rewrite Hlnin.
  apply mem_true in Hin. by rewrite Hin.
Qed.

(** The split strategy of [create_comprehensive_customer_mapping]: it splits
    the reference itself and tries the last part only. *)
Lemma fcf_map_ref_split_last (ids : list string) (ref last : string) :
  PyStr.startswith ref "cust_" = true ->
  PyStr.slice_from 5 ref ∉ ids ->
  PyStr.contains "__" ref = true ->
  PyStr.last_part (PyStr.split "__" ref) = last ->
  last ∈ ids ->
  FinalCustomerFix.map_ref ids ref = Some last.
Proof.
  intros Hpre Hnin Hsep Hlast Hin.
  unfold FinalCustomerFix.map_ref, FinalCustomerFix.strategy1,
    FinalCustomerFix.strategy2.
  rewrite Hpre, Hsep. apply mem_false in Hnin. rewrite Hnin. cbn [andb].
  assert (Hlen : (2 <=? length (PyStr.split "__" ref))%nat = true).
  { apply Nat.leb_le, split_go_contains; [discriminate|exact Hsep]. }
  rewrite Hlen, Hlast. apply mem_true in Hin. by rewrite Hin.
Qed.



(** The example of the compound split, for every valid set that holds
    ["plettenberg_bay"] and not the compound. *)
Example compound_split_plettenberg_bay (ids : list string) :
  "plettenberg_bay" ∈ ids ->
  "sportsmans_warehouse__plettenberg_bay" ∉ ids ->
  FixCustomerReferences.map_ref ids "cust_sportsmans_warehouse__plettenberg_bay"
    = Some "plettenberg_bay"
  /\ FinalCustomerFix.map_ref ids "cust_sportsmans_warehouse__plettenberg_bay"
    = Some "plettenberg_bay".
Proof.
  intros Hin Hnin. split.
  - by apply (fcr_map_ref_split_last ids _ "sportsmans_warehouse__plettenberg_bay"
                "plettenberg_bay").
  - by apply (fcf_map_ref_split_last ids).
Qed.

(** When the last part is not valid and the first one is, the first part is
    what [create_customer_mapping] returns. *)
Example compound_split_parent (ids : list string) :
  "sportsmans_warehouse" ∈ ids ->
  "plettenberg_bay" ∉ ids ->
  "sportsmans_warehouse__plettenberg_bay" ∉ ids ->
  FixCustomerReferences.map_ref ids "cust_sportsmans_warehouse__plettenberg_bay"
    = Some "sportsmans_warehouse".
Proof.
  intros Hin Hlnin Hnin.
  by apply (fcr_map_ref_split_first ids _ "sportsmans_warehouse__plettenberg_bay"
              "plettenberg_bay" "sportsmans_warehouse").
Qed.

(** A remainder that starts with an underscore: the reference is split one
    character earlier than the remainder, and the two last parts differ. *)
Example split_of_reference_and_of_remainder :
  PyStr.split "__" "cust___x" = ["cust"; "_x"]
  /\ PyStr.split "__" (PyStr.slice_from 5 "cust___x") = [EmptyString; "x"]
  /\ FixCustomerReferences.map_ref ["a_xb"; "x"] "cust___x" = Some "x"
  /\ FinalCustomerFix.map_ref ["a_xb"; "x"] "cust___x" = Some "a_xb".
Proof. repeat split; reflexivity. Qed.

(** [create_comprehensive_customer_mapping] has no step for the first part:
    with the last part not valid it goes on to the containment match, which
    may pick another identifier than the first part even when that one is
    valid. *)
Example comprehensive_split_has_no_first_part :
  FinalCustomerFix.map_ref ["xa_bx"; "a"] "cust_a__b" = Some "xa_bx"
  /\ FixCustomerReferences.map_ref ["xa_bx"; "a"] "cust_a__b" = Some "a".
Proof. split; reflexivity. Qed.

(** C9. A reference that does not start with ["cust_"] gets no entry in the
    mapping of [create_customer_mapping] nor in the one of
    [create_customer_id_mapping], whatever the valid identifiers are: the
    whole body of the loop is under the test of the prefix. *)
Theorem no_prefix_no_mapping {A : Type} (customers : list (string * A))
  (invoices : list FixCustomerReferences.invoice)
  (st : FixDataIntegrity.fixer) (ids : list string) (ref : string) :
  PyStr.startswith ref "cust_" = false ->
  FixCustomerReferences.map_ref ids ref = None
  /\ FixCustomerReferences.create_customer_mapping customers invoices !! ref = None
  /\ FixDataIntegrity.map_id ids ref = None
  /\ FixDataIntegrity.create_customer_id_mapping st !! ref = None.
Proof.
  intros Hpre.
  assert (H1 : forall ids, FixCustomerReferences.map_ref ids ref = None).
  { intros ids'. unfold FixCustomerReferences.map_ref. by rewrite Hpre. }
  assert (H2 : forall ids, FixDataIntegrity.map_id ids ref = None).
  { intros ids'. unfold FixDataIntegrity.map_id. by rewrite Hpre. }
  repeat split.
  - apply H1.
  - rewrite create_customer_mapping_lookup, H1. by case_bool_decide.
  - apply H2.
  - rewrite create_customer_id_mapping_lookup, H2. by case_bool_decide.
Qed.

Lemma no_prefix_no_mapping_witness :
  FixCustomerReferences.map_ref ["plettenberg_bay"] "plettenberg" = None
  /\ FixCustomerReferences.create_customer_mapping
       [("plettenberg_bay", JNull)]
       [FixCustomerReferences.Invoice "inv_1" "plettenberg" []] !! "plettenberg"
     = None
  /\ FixDataIntegrity.map_id ["plettenberg_bay"] "plettenberg" = None
  /\ FixDataIntegrity.create_customer_id_mapping
       (FixDataIntegrity.Fixer []
          [("plettenberg_bay", FixDataIntegrity.Customer None [])]
          [("inv_1", FixDataIntegrity.Invoice "inv_1" (Some "plettenberg") None [])]
          [] [] []) !! "plettenberg"
     = None.
Proof.
  apply (no_prefix_no_mapping
           [("plettenberg_bay", JNull)]
           [FixCustomerReferences.Invoice "inv_1" "plettenberg" []]
           _ ["plettenberg_bay"] "plettenberg").
  reflexivity.
Defined.

(** ** The stray reference ["v"] *)

(** C2, as stated, fails on [create_comprehensive_customer_mapping]: with a
    valid customer identifier that holds the letter, the containment match
    maps ["v"] to it. *)
Lemma stray_v_matched_by_containment :
  FinalCustomerFix.map_ref ["riversdale"] "v" = Some "riversdale"
  /\ FinalCustomerFix.create_comprehensive_customer_mapping ["riversdale"]
       [FinalCustomerFix.Invoice (Some "v") []] [] !! "v" <> None.
Proof. split; [reflexivity | by vm_compute]. Qed.

Lemma partial_match_v_self : FinalCustomerFix.partial_match "v" "v" = true.
Proof. reflexivity. Qed.

(** C2, amended. The product table holds ["v"] with the value [None], the
    explicit skip, so that no product fix is applied to it;
    [create_customer_mapping] and [create_customer_id_mapping] store nothing
    for ["v"]; [create_comprehensive_customer_mapping] gives ["v"] the first
    valid identifier, in iteration order, that holds the letter v in either
    case or is empty or is the letter itself, and no mapping when there is
    none. *)
Theorem stray_v_policy (ids : list string) :
  FixDataIntegrity.create_product_id_mapping !! "v" = Some None
  /\ FixDataIntegrity.target_of FixDataIntegrity.create_product_id_mapping "v" = None
  /\ FixCustomerReferences.map_ref ids "v" = None
  /\ FixDataIntegrity.map_id ids "v" = None
  /\ FinalCustomerFix.map_ref ids "v"
     = List.find (fun actual_id =>
                    PyStr.contains "v" (PyStr.lower actual_id)
                    || PyStr.contains (PyStr.lower actual_id) "v") ids.
Proof.
  repeat split.
  unfold FinalCustomerFix.map_ref.
  change (FinalCustomerFix.strategy1 ids "v") with (@None string).
  change (FinalCustomerFix.strategy2 ids "v") with (@None string).
  cbv beta iota.
  change (FinalCustomerFix.strategy3 ids "v")
    with (List.find (FinalCustomerFix.partial_match "v") ids).
  change (fun actual_id : string =>
            PyStr.contains "v" (PyStr.lower actual_id)
            || PyStr.contains (PyStr.lower actual_id) "v")
    with (FinalCustomerFix.partial_match "v").
  destruct (List.find (FinalCustomerFix.partial_match "v") ids) as [t|] eqn:Hfind;
    [done|].
  unfold FinalCustomerFix.strategy4. apply find_None_iff. intros x Hx.
  change (FinalCustomerFix.variations "v") with ["v"; "v"; "v"].
  cbn [existsb]. destruct (String.eqb_spec "v" x) as [<-|Hne]; [|done].
  rewrite find_None_iff in Hfind. specialize (Hfind "v" Hx). discriminate.
Qed.

(** ** Targets of the accepted mappings *)

Lemma fcf_map_ref_target (ids : list string) (ref target : string) :
  FinalCustomerFix.map_ref ids ref = Some target -> target ∈ ids.
Proof.
  unfold FinalCustomerFix.map_ref, FinalCustomerFix.strategy1,
    FinalCustomerFix.strategy2, FinalCustomerFix.strategy3,
    FinalCustomerFix.strategy4.
  intros H.
  repeat match type of H with
  | context [if ?b then _ else _] => destruct b eqn:?
  | context [match List.find ?p ?l with _ => _ end] => destruct (List.find p l) eqn:?
  end;
  simplify_eq;
  try (by apply mem_true);
  try (by eapply find_elem_of).
Qed.

Lemma invalid_refs_not_valid (ids : list string)
  (invoices : list FinalCustomerFix.invoice)
  (payments : list FinalCustomerFix.payment) (ref : string) :
  ref ∈ FinalCustomerFix.invalid_refs ids invoices payments -> ref ∉ ids.
Proof.
  unfold FinalCustomerFix.invalid_refs.
  rewrite elem_of_remove_dups, elem_of_app, !list_elem_of_omap.
  intros [[x [_ Hx]]|[x [_ Hx]]];
    match type of Hx with
    | (if FinalCustomerFix.is_invalid_ref _ ?o then _ else _) = _ =>
        destruct o as [r|] eqn:Ho; simpl in Hx; [|done];
        destruct (PyStr.truthy r); simpl in Hx; [|done];
        destruct (mem r ids) eqn:Hmem; simpl in Hx; [done|];
        simplify_eq; by apply mem_false
    end.
Qed.

(** C1, as stated, fails on the product mapping: its targets are literals of
    the table and are not looked up in the products; here the product
    ["prod_outray"] is not in the store and ["outray"] is mapped to it. *)
Lemma product_target_not_in_index :
  let st := FixDataIntegrity.Fixer [("prod_snowva", JNull)] [] [] [] [] [] in
  FixDataIntegrity.target_of FixDataIntegrity.create_product_id_mapping "outray"
    = Some "prod_outray"
  /\ "prod_outray" ∉ (FixDataIntegrity.products st).*1.
Proof. split; [reflexivity | by apply mem_false]. Qed.

(** The special cases of [create_customer_id_mapping] store a literal target
    as well, whether it is a customer of the store or not. *)
Example customer_id_mapping_target_unchecked :
  FixDataIntegrity.map_id ["stellenbosch"] "cust_spar_plettenberg_bay"
  = Some (Some "plettenberg_bay").
Proof. reflexivity. Qed.

(** C1, amended. Every entry of the mapping built by
    [create_comprehensive_customer_mapping] has a target among the
    identifiers of the customers of the store and a source that is not one of
    them, so that no entry maps an identifier to itself or to an invalid one.
    The product mapping is a literal table that is not checked against the
    products; none of its entries maps an identifier to itself. *)
Theorem accepted_customer_targets_valid
  (customers_data : collection FinalCustomerFix.customer) (ids : list string)
  (invoices : list FinalCustomerFix.invoice)
  (payments : list FinalCustomerFix.payment) (old new : string) :
  let customers :=
    (FinalCustomerFix.load_data customers_data invoices payments).1.1 in
  FinalCustomerFix.enumerates ids customers ->
  FinalCustomerFix.create_comprehensive_customer_mapping ids invoices payments
    !! old = Some new ->
  new ∈ FinalCustomerFix.cust_id <$> customers
  /\ (old ∉ FinalCustomerFix.cust_id <$> customers)
  /\ new <> old
  /\ map_Forall (fun old_product_id target => target <> Some old_product_id)
       FixDataIntegrity.create_product_id_mapping.
Proof.
  intros customers Hset.
  rewrite create_comprehensive_customer_mapping_lookup.
  case_bool_decide as Hold; [|done]. intros Hmap.
  pose proof (fcf_map_ref_target _ _ _ Hmap) as Hnew.
  pose proof (invalid_refs_not_valid _ _ _ _ Hold) as Hnin.
  split; [by apply Hset|]. split; [by rewrite <- (Hset old)|].
  split; [congruence|].
  apply (bool_decide_unpack _). by vm_compute.
Qed.

Lemma accepted_customer_targets_valid_witness :
  let customers :=
    [FinalCustomerFix.Customer "plettenberg_bay" []] in
  "plettenberg_bay" ∈ FinalCustomerFix.cust_id <$> customers
  /\ ("cust_plettenberg_bay" ∉ FinalCustomerFix.cust_id <$> customers)
  /\ "plettenberg_bay" <> "cust_plettenberg_bay"
  /\ map_Forall (fun old_product_id target => target <> Some old_product_id)
       FixDataIntegrity.create_product_id_mapping.
Proof.
  apply (accepted_customer_targets_valid
           (AsObject [("plettenberg_bay",
                       FinalCustomerFix.Customer "plettenberg_bay" [])])
           ["plettenberg_bay"]
           [FinalCustomerFix.Invoice (Some "cust_plettenberg_bay") []] []
           "cust_plettenberg_bay" "plettenberg_bay").
  - done.
  - reflexivity.
Defined.

(** ** Loops over mutable objects *)

Section for_each_facts.

Context {A : Type} (body : nat -> A -> A * nat).

(** The counter of the loop is only incremented: the object a step leaves
    does not depend on it, and the step adds its own count. *)
Hypothesis body_additive :
  forall s x, body s x = ((body 0 x).1, s + (body 0 x).2).

Lemma for_each_additive (s : nat) (l : list A) :
  for_each body s l = ((for_each body 0 l).1, s + (for_each body 0 l).2).
Proof.
  revert s. induction l as [|x l IH]; intros s; cbn [for_each].
  - simpl. f_equal. lia.
  - rewrite (body_additive s x).
    destruct (body 0 x) as [x' c]. cbn [fst snd].
    rewrite (IH (s + c)), (IH c).
    destruct (for_each body 0 l) as [l' n]. simpl. f_equal. lia.
Qed.

Lemma for_each_fmap (s : nat) (l : list A) :
  (for_each body s l).1 = (fun x => (body 0 x).1) <$> l.
Proof.
  revert s. induction l as [|x l IH]; intros s; cbn [for_each]; [done|].
  rewrite (body_additive s x). cbn [fmap list_fmap].
  destruct (body 0 x) as [x' c]. cbn [fst snd].
  specialize (IH (s + c)).
  destruct (for_each body (s + c) l) as [l' n]. cbn [fst] in *.
  by rewrite IH.
Qed.

(** A step finds nothing left to do on an object it has left. *)
Hypothesis body_stable : forall x, body 0 (body 0 x).1 = ((body 0 x).1, 0).

Lemma for_each_stable (s : nat) (l : list A) :
  for_each body 0 (for_each body s l).1 = ((for_each body s l).1, 0).
Proof.
  rewrite for_each_fmap. induction l as [|x l IH]; [done|].
  cbn [fmap list_fmap for_each]. rewrite body_stable.
  change (list_fmap A A (fun x => (body 0 x).1) l)
    with ((fun x => (body 0 x).1) <$> l).
  by rewrite IH.
Qed.

End for_each_facts.

Lemma for_each_Forall2 {A S : Type} (R : A -> A -> Prop)
  (body : S -> A -> A * S) (s : S) (l : list A) :
  (forall s x, R x (body s x).1) -> Forall2 R l (for_each body s l).1.
Proof.
  intros HR. revert s. induction l as [|x l IH]; intros s; cbn [for_each].
  - constructor.
  - specialize (HR s x). destruct (body s x) as [x' s1].
    specialize (IH s1). destruct (for_each body s1 l) as [l' s2].
    by constructor.
Qed.

Lemma for_each_lookup {A S : Type} (body : S -> A -> A * S) (s : S)
  (l : list A) (i : nat) (x : A) :
  l !! i = Some x -> exists s', (for_each body s l).1 !! i = Some (body s' x).1.
Proof.
  revert s i. induction l as [|y l IH]; intros s i Hi; [done|].
  cbn [for_each]. destruct (body s y) as [y' s1] eqn:Hy.
  destruct i as [|i]; simpl in Hi.
  - simplify_eq. exists s. destruct (for_each body s1 l). simpl. by rewrite Hy.
  - destruct (IH s1 i Hi) as [s' Hs']. exists s'.
    destruct (for_each body s1 l). exact Hs'.
Qed.

(** ** Fixing product references *)

Section product_fix.

Import FixDataIntegrity.

Context (product_mapping : gmap string (option string)).

Lemma fix_pricing_additive (s : nat) (p : pricing) :
  fix_pricing product_mapping s p
  = ((fix_pricing product_mapping 0 p).1, s + (fix_pricing product_mapping 0 p).2).
Proof.
  unfold fix_pricing. destruct (target_of _ _); simpl; f_equal; lia.
Qed.

Lemma fix_customer_additive (s : nat) (kc : string * customer) :
  fix_customer product_mapping s kc
  = ((fix_customer product_mapping 0 kc).1,
     s + (fix_customer product_mapping 0 kc).2).
Proof.
  unfold fix_customer. destruct (cust_customProductPricing kc.2) as [ps|].
  - rewrite (for_each_additive _ fix_pricing_additive s ps).
    destruct (for_each (fix_pricing product_mapping) 0 ps). done.
  - simpl. f_equal. lia.
Qed.

Lemma fix_item_additive (s : nat) (item : line_item) :
  fix_item product_mapping s item
  = ((fix_item product_mapping 0 item).1, s + (fix_item product_mapping 0 item).2).
Proof.
  unfold fix_item. destruct (target_of _ _); simpl; f_equal; lia.
Qed.

Lemma fix_document_additive (s : nat) (kd : string * invoice) :
  fix_document product_mapping s kd
  = ((fix_document product_mapping 0 kd).1,
     s + (fix_document product_mapping 0 kd).2).
Proof.
  unfold fix_document. destruct (inv_lineItems kd.2) as [items|].
  - rewrite (for_each_additive _ fix_item_additive s items).
    destruct (for_each (fix_item product_mapping) 0 items). done.
  - simpl. f_equal. lia.
Qed.

(** No target of the mapping is itself a source of a fix. *)
Hypothesis chain_free :
  forall old new, target_of product_mapping old = Some new ->
                  target_of product_mapping new = None.

Lemma fix_pricing_stable (p : pricing) :
  fix_pricing product_mapping 0 (fix_pricing product_mapping 0 p).1
  = ((fix_pricing product_mapping 0 p).1, 0).
Proof.
  unfold fix_pricing at 2 3.
  destruct (target_of product_mapping (pricing_productId p)) as [new|] eqn:Ht;
    cbn [fst]; unfold fix_pricing; cbn [pricing_productId].
  - by rewrite (chain_free _ _ Ht).
  - by rewrite Ht.
Qed.

Lemma fix_customer_stable (kc : string * customer) :
  fix_customer product_mapping 0 (fix_customer product_mapping 0 kc).1
  = ((fix_customer product_mapping 0 kc).1, 0).
Proof.
  unfold fix_customer at 2 3.
  destruct (cust_customProductPricing kc.2) as [ps|] eqn:Hps.
  - pose proof (for_each_stable _ fix_pricing_additive fix_pricing_stable 0 ps) as H.
    destruct (for_each (fix_pricing product_mapping) 0 ps) as [ps' n]. cbn [fst] in *.
    unfold fix_customer. cbn [snd fst cust_customProductPricing cust_rest].
    by rewrite H.
  - cbn [fst]. unfold fix_customer. by rewrite Hps.
Qed.

Lemma fix_item_stable (item : line_item) :
  fix_item product_mapping 0 (fix_item product_mapping 0 item).1
  = ((fix_item product_mapping 0 item).1, 0).
Proof.
  unfold fix_item at 2 3.
  destruct (target_of product_mapping (item_productId item)) as [new|] eqn:Ht;
    cbn [fst]; unfold fix_item; cbn [item_productId].
  - by rewrite (chain_free _ _ Ht).
  - by rewrite Ht.
Qed.

Lemma fix_document_stable (kd : string * invoice) :
  fix_document product_mapping 0 (fix_document product_mapping 0 kd).1
  = ((fix_document product_mapping 0 kd).1, 0).
Proof.
  unfold fix_document at 2 3.
  destruct (inv_lineItems kd.2) as [items|] eqn:Hitems.
  - pose proof (for_each_stable _ fix_item_additive fix_item_stable 0 items) as H.
    destruct (for_each (fix_item product_mapping) 0 items) as [items' n].
    cbn [fst] in *. unfold fix_document.
    cbn [snd fst inv_lineItems inv_id inv_customerId inv_rest].
    by rewrite H.
  - cbn [fst]. unfold fix_document. by rewrite Hitems.
Qed.

(** Applying a chain-free mapping to a state it has already been applied to
    changes nothing and counts no fix. *)
Lemma fix_product_references_stable (st : fixer) :
  fix_product_references product_mapping
    (fix_product_references product_mapping st).1
  = ((fix_product_references product_mapping st).1, 0).
Proof.
  unfold fix_product_references at 2 3.
  pose proof (for_each_stable _ fix_customer_additive fix_customer_stable
                0 (customers st)) as Hc.
  destruct (for_each (fix_customer product_mapping) 0 (customers st))
    as [customers' n1].
  pose proof (for_each_stable _ fix_document_additive fix_document_stable
                n1 (invoices st)) as Hi.
  destruct (for_each (fix_document product_mapping) n1 (invoices st))
    as [invoices' n2].
  pose proof (for_each_stable _ fix_document_additive fix_document_stable
                n2 (quotes st)) as Hq.
  destruct (for_each (fix_document product_mapping) n2 (quotes st))
    as [quotes' n3].
  cbn [fst] in *. unfold fix_product_references.
  cbn [customers invoices quotes products payments invalid_product_refs].
  by rewrite Hc, Hi, Hq.
Qed.

End product_fix.

(** The literal product table is chain free: its targets all start with
    ["prod_"] and none of them is a key. *)
Lemma create_product_id_mapping_chain_free (old new : string) :
  FixDataIntegrity.target_of FixDataIntegrity.create_product_id_mapping old
    = Some new ->
  FixDataIntegrity.target_of FixDataIntegrity.create_product_id_mapping new = None.
Proof.
  assert (Hall :
    map_Forall (fun (_ : string) (target : option string) =>
                  target ≫= FixDataIntegrity.target_of
                              FixDataIntegrity.create_product_id_mapping = None)
               FixDataIntegrity.create_product_id_mapping).
  { apply (bool_decide_unpack _). by vm_compute. }
  unfold FixDataIntegrity.target_of at 1.
  destruct (FixDataIntegrity.create_product_id_mapping !! old) as [[t|]|] eqn:Hold;
    [|done|done].
  destruct (PyStr.truthy t); [|done]. intros [= <-].
  exact (Hall old (Some t) Hold).
Qed.

(** ** Fixing customer references *)

Section customer_fix.

Import FinalCustomerFix.

Context (customer_mapping : gmap string string).

Lemma fix_invoice_additive (s : nat) (inv : invoice) :
  fix_invoice customer_mapping s inv
  = ((fix_invoice customer_mapping 0 inv).1,
     s + (fix_invoice customer_mapping 0 inv).2).
Proof.
  unfold fix_invoice. destruct (inv_customerId inv) as [old|]; simpl.
  - destruct (customer_mapping !! old); simpl; f_equal; lia.
  - f_equal; lia.
Qed.

Lemma fix_payment_additive (s : nat) (pay : payment) :
  fix_payment customer_mapping s pay
  = ((fix_payment customer_mapping 0 pay).1,
     s + (fix_payment customer_mapping 0 pay).2).
Proof.
  unfold fix_payment. destruct (pay_customerId pay) as [old|]; simpl.
  - destruct (customer_mapping !! old); simpl; f_equal; lia.
  - f_equal; lia.
Qed.

Hypothesis chain_free :
  forall old new, customer_mapping !! old = Some new ->
                  customer_mapping !! new = None.

Lemma fix_invoice_stable (inv : invoice) :
  fix_invoice customer_mapping 0 (fix_invoice customer_mapping 0 inv).1
  = ((fix_invoice customer_mapping 0 inv).1, 0).
Proof.
  unfold fix_invoice at 2 3. destruct (inv_customerId inv) as [old|] eqn:Hold.
  - destruct (customer_mapping !! old) as [new|] eqn:Hnew; cbn [fst];
      unfold fix_invoice; cbn [inv_customerId].
    + by rewrite (chain_free _ _ Hnew).
    + by rewrite Hold, Hnew.
  - cbn [fst]. unfold fix_invoice. by rewrite Hold.
Qed.

Lemma fix_payment_stable (pay : payment) :
  fix_payment customer_mapping 0 (fix_payment customer_mapping 0 pay).1
  = ((fix_payment customer_mapping 0 pay).1, 0).
Proof.
  unfold fix_payment at 2 3. destruct (pay_customerId pay) as [old|] eqn:Hold.
  - destruct (customer_mapping !! old) as [new|] eqn:Hnew; cbn [fst];
      unfold fix_payment; cbn [pay_customerId].
    + by rewrite (chain_free _ _ Hnew).
    + by rewrite Hold, Hnew.
  - cbn [fst]. unfold fix_payment. by rewrite Hold.
Qed.

Lemma apply_mapping_stable (invoices : list invoice) (payments : list payment) :
  apply_mapping customer_mapping
    (apply_mapping customer_mapping invoices payments).1.1
    (apply_mapping customer_mapping invoices payments).2.1
  = (((apply_mapping customer_mapping invoices payments).1.1, 0),
     ((apply_mapping customer_mapping invoices payments).2.1, 0)).
Proof.
  unfold apply_mapping. cbn [fst snd].
  by rewrite (for_each_stable _ fix_invoice_additive fix_invoice_stable),
    (for_each_stable _ fix_payment_additive fix_payment_stable).
Qed.

End customer_fix.

(** The mapping built from the data is chain free: its sources are invalid
    references and its targets valid identifiers. *)
Lemma create_comprehensive_customer_mapping_chain_free (ids : list string)
  (invoices : list FinalCustomerFix.invoice)
  (payments : list FinalCustomerFix.payment) (old new : string) :
  FinalCustomerFix.create_comprehensive_customer_mapping ids invoices payments
    !! old = Some new ->
  FinalCustomerFix.create_comprehensive_customer_mapping ids invoices payments
    !! new = None.
Proof.
  rewrite !create_comprehensive_customer_mapping_lookup.
  case_bool_decide as Hold; [|done]. intros Hmap.
  apply fcf_map_ref_target in Hmap.
  case_bool_decide as Hnew; [|done].
  by apply invalid_refs_not_valid in Hnew.
Qed.

(** The general form for [fix_product_references]: any mapping none of whose
    targets is itself the source of a fix. *)
Lemma fix_product_references_idempotent
  (product_mapping : gmap string (option string)) (st : FixDataIntegrity.fixer) :
  (forall old new,
     FixDataIntegrity.target_of product_mapping old = Some new ->
     FixDataIntegrity.target_of product_mapping new = None) ->
  FixDataIntegrity.fix_product_references product_mapping
    (FixDataIntegrity.fix_product_references product_mapping st).1
  = ((FixDataIntegrity.fix_product_references product_mapping st).1, 0).
Proof. intros H. by apply fix_product_references_stable. Qed.

(** A mapping with a chain is not idempotent: the restriction to accepted
    mappings matters. *)
Example chained_mapping_not_idempotent :
  let m : gmap string (option string) :=
    {[ "a" := Some "b"; "b" := Some "c" ]} in
  let st := FixDataIntegrity.Fixer [] []
              [("i1", FixDataIntegrity.Invoice "i1" None
                        (Some [FixDataIntegrity.LineItem "l1" "a" []]) [])]
              [] [] [] in
  (FixDataIntegrity.fix_product_references m
     (FixDataIntegrity.fix_product_references m st).1).2 = 1.
Proof. reflexivity. Qed.

(** ** Running [apply_customer_fixes] again *)

Section rerun.

Import FinalCustomerFix.

Lemma mem_ext (ids ids' : list string) (x : string) :
  (forall y, y ∈ ids <-> y ∈ ids') -> mem x ids = mem x ids'.
Proof. intros H. unfold mem. apply bool_decide_ext, H. Qed.

Lemma invalid_refs_ext (ids ids' : list string) (invoices : list invoice)
  (payments : list payment) :
  (forall y, y ∈ ids <-> y ∈ ids') ->
  invalid_refs ids invoices payments = invalid_refs ids' invoices payments.
Proof.
  intros H. unfold invalid_refs.
  assert (Hinv : forall o, is_invalid_ref ids o = is_invalid_ref ids' o).
  { intros [r|]; [|done]. simpl. by rewrite (mem_ext ids ids' r H). }
  f_equal. f_equal; apply list_omap_ext, Forall_Forall2_diag, Forall_forall;
    intros x _; by rewrite Hinv.
Qed.

(** Whether a reference is left unmapped does not depend on the iteration
    order of the set of valid identifiers. *)
Lemma map_ref_None_ext (ids ids' : list string) (ref : string) :
  (forall y, y ∈ ids <-> y ∈ ids') ->
  map_ref ids ref = None -> map_ref ids' ref = None.
Proof.
  intros H. unfold map_ref.
  replace (strategy1 ids' ref) with (strategy1 ids ref)
    by (unfold strategy1; by rewrite (mem_ext ids ids' _ H)).
  replace (strategy2 ids' ref) with (strategy2 ids ref)
    by (unfold strategy2; by rewrite (mem_ext ids ids' _ H)).
  destruct (strategy1 ids ref); [done|]. destruct (strategy2 ids ref); [done|].
  destruct (strategy3 ids ref) eqn:H3; [done|]. intros H4.
  assert (H3' : strategy3 ids' ref = None).
  { unfold strategy3 in *. rewrite find_None_iff in *.
    intros x Hx. by apply H3, H. }
  rewrite H3'. unfold strategy4 in *. rewrite find_None_iff in *.
  intros x Hx. by apply H4, H.
Qed.

Lemma elem_of_invalid_refs (ids : list string) (invoices : list invoice)
  (payments : list payment) (ref : string) :
  ref ∈ invalid_refs ids invoices payments
  <-> is_invalid_ref ids (Some ref) = true
      /\ ((exists inv, inv ∈ invoices /\ inv_customerId inv = Some ref)
          \/ (exists pay, pay ∈ payments /\ pay_customerId pay = Some ref)).
Proof.
  unfold invalid_refs.
  rewrite elem_of_remove_dups, elem_of_app, !list_elem_of_omap. split.
  - intros [[x [Hin Hx]]|[x [Hin Hx]]].
    + destruct (is_invalid_ref ids (inv_customerId x)) eqn:Hv; [|done].
      rewrite Hx in Hv. eauto.
    + destruct (is_invalid_ref ids (pay_customerId x)) eqn:Hv; [|done].
      rewrite Hx in Hv. eauto.
  - intros [Hv [[x [Hin Hx]]|[x [Hin Hx]]]]; [left|right]; exists x;
      by rewrite Hx, Hv.
Qed.

(** After the fixing loops no invalid reference is left that the builder can
    map. *)
Lemma fixed_refs_unmapped (ids : list string) (invoices : list invoice)
  (payments : list payment) (ref : string) :
  let m := create_comprehensive_customer_mapping ids invoices payments in
  ref ∈ invalid_refs ids (apply_mapping m invoices payments).1.1
                         (apply_mapping m invoices payments).2.1 ->
  map_ref ids ref = None.
Proof.
  intros m. unfold apply_mapping. cbn [fst snd].
  rewrite (for_each_fmap _ (fix_invoice_additive m)),
    (for_each_fmap _ (fix_payment_additive m)).
  rewrite elem_of_invalid_refs. intros [Hv Hex].
  assert (Hnin : ref ∉ ids).
  { simpl in Hv. apply andb_true_iff in Hv as [_ Hv].
    apply negb_true_iff in Hv. by apply mem_false. }
  assert (Hkeep : forall o, o = Some ref ->
            (exists inv, inv ∈ invoices /\ inv_customerId inv = o)
            \/ (exists pay, pay ∈ payments /\ pay_customerId pay = o) ->
            m !! ref = None -> map_ref ids ref = None).
  { intros o -> Hsrc Hm. unfold m in Hm.
    rewrite create_comprehensive_customer_mapping_lookup in Hm.
    rewrite bool_decide_eq_true_2 in Hm; [done|].
    apply elem_of_invalid_refs. by split. }
  assert (Hvalid : forall old, m !! old = Some ref -> False).
  { intros old Hm. unfold m in Hm.
    rewrite create_comprehensive_customer_mapping_lookup in Hm.
    case_bool_decide; [|done]. by apply fcf_map_ref_target in Hm. }
  destruct Hex as [[inv' [Hin Hid]]|[pay' [Hin Hid]]];
    apply list_elem_of_fmap in Hin as [x [-> Hx]].
  - unfold fix_invoice in Hid.
    destruct (inv_customerId x) as [old|] eqn:Hold.
    + destruct (m !! old) as [new|] eqn:Hnew; simpl in Hid.
      * simplify_eq. by destruct (Hvalid old).
      * rewrite Hold in Hid. simplify_eq.
        apply (Hkeep (Some ref)); [done| |done]. left. eauto.
    + simpl in Hid. congruence.
  - unfold fix_payment in Hid.
    destruct (pay_customerId x) as [old|] eqn:Hold.
    + destruct (m !! old) as [new|] eqn:Hnew; simpl in Hid.
      * simplify_eq. by destruct (Hvalid old).
      * rewrite Hold in Hid. simplify_eq.
        apply (Hkeep (Some ref)); [done| |done]. right. eauto.
    + simpl in Hid. congruence.
Qed.

(** A second run of [apply_customer_fixes] on the files the first run left,
    whatever the iteration order of the set this time, builds the empty
    mapping, takes the bare [return] and leaves the files as they are. *)
Lemma apply_customer_fixes_rerun (ids ids' : list string)
  (invoices : list invoice) (payments : list payment) :
  (forall y, y ∈ ids <-> y ∈ ids') ->
  apply_customer_fixes ids'
    (apply_customer_fixes ids invoices payments).1.2
    (apply_customer_fixes ids invoices payments).2
  = (None, (apply_customer_fixes ids invoices payments).1.2,
           (apply_customer_fixes ids invoices payments).2).
Proof.
  intros Hsame.
  assert (Hempty : forall invoices1 payments1,
    (forall ref, ref ∈ invalid_refs ids invoices1 payments1 ->
                 map_ref ids ref = None) ->
    apply_customer_fixes ids' invoices1 payments1 = (None, invoices1, payments1)).
  { intros invoices1 payments1 Hnone. unfold apply_customer_fixes.
    rewrite bool_decide_eq_true_2; [done|].
    apply map_eq. intros ref.
    rewrite create_comprehensive_customer_mapping_lookup, lookup_empty.
    case_bool_decide as Hin; [|done].
    rewrite <- (invalid_refs_ext ids ids' _ _ Hsame) in Hin.
    by apply (map_ref_None_ext ids ids' ref Hsame), Hnone. }
  pose proof (fixed_refs_unmapped ids invoices payments) as Hfixed.
  cbv zeta in Hfixed.
  unfold apply_customer_fixes at 2 3 4 5.
  set (m := create_comprehensive_customer_mapping ids invoices payments) in *.
  case_bool_decide as Hm.
  - cbn [fst snd]. apply Hempty. intros ref Hin.
    assert (Hl : m !! ref = None) by (by rewrite Hm, lookup_empty).
    unfold m in Hl. rewrite create_comprehensive_customer_mapping_lookup in Hl.
    by rewrite bool_decide_eq_true_2 in Hl.
  - destruct (apply_mapping m invoices payments) as [[i1 n1] [p1 n2]] eqn:Hap.
    cbn [fst snd] in *. apply Hempty. exact Hfixed.
Qed.

(** In [__main__] the value of such a run is compared with 0, and the
    comparison raises. *)
Lemma main_after_rerun_raises (ids ids' : list string)
  (invoices : list invoice) (payments : list payment) :
  (forall y, y ∈ ids <-> y ∈ ids') ->
  main_announces_fixes
    (apply_customer_fixes ids'
       (apply_customer_fixes ids invoices payments).1.2
       (apply_customer_fixes ids invoices payments).2).1.1
  = None.
Proof. intros H. by rewrite apply_customer_fixes_rerun. Qed.

End rerun.

(** C3. Applying an accepted mapping is idempotent. For the product table
    of [create_product_id_mapping], [fix_product_references] applied to the
    state it has produced leaves it as it is and returns the count 0. For
    the customer mapping built from the data, the two fixing loops of
    [apply_customer_fixes] applied to the invoices and payments they have
    produced leave them as they are and count 0 fixes each; and running
    [apply_customer_fixes] on the files it has written builds an empty
    mapping, leaves the files as they are and returns [None] through the
    bare [return] that follows the message that no fix is needed. *)
Theorem apply_mapping_idempotent (st : FixDataIntegrity.fixer)
  (ids : list string) (invoices : list FinalCustomerFix.invoice)
  (payments : list FinalCustomerFix.payment) :
  let product_mapping := FixDataIntegrity.create_product_id_mapping in
  let st1 := (FixDataIntegrity.fix_product_references product_mapping st).1 in
  let customer_mapping :=
    FinalCustomerFix.create_comprehensive_customer_mapping ids invoices payments in
  let fixed := FinalCustomerFix.apply_mapping customer_mapping invoices payments in
  let run1 := FinalCustomerFix.apply_customer_fixes ids invoices payments in
  FixDataIntegrity.fix_product_references product_mapping st1 = (st1, 0)
  /\ FinalCustomerFix.apply_mapping customer_mapping fixed.1.1 fixed.2.1
     = ((fixed.1.1, 0), (fixed.2.1, 0))
  /\ FinalCustomerFix.apply_customer_fixes ids run1.1.2 run1.2
     = (None, run1.1.2, run1.2).
Proof.
  cbv zeta. split; [|split].
  - apply fix_product_references_stable, create_product_id_mapping_chain_free.
  - apply apply_mapping_stable, create_comprehensive_customer_mapping_chain_free.
  - by apply apply_customer_fixes_rerun.
Qed.

(** ** What a product fix touches *)

Lemma foldl_append_only {A B : Type} (step : list B -> A -> list B) :
  (forall acc x, step acc x = acc ++ step [] x) ->
  forall acc l, foldl step acc l = acc ++ (l ≫= step []).
Proof.
  intros Hstep acc l. revert acc. induction l as [|x l IH]; intros acc.
  - cbn [foldl mbind list_bind]. by rewrite app_nil_r.
  - cbn [foldl]. rewrite IH, (Hstep acc x), bind_cons. by rewrite <- app_assoc.
Qed.

Section product_frame.

Import FixDataIntegrity.

Context (product_mapping : gmap string (option string)).

(** A line item after the fix: same [id], same other members, the
    [productId] replaced by its target when it has one. *)
Lemma fix_item_frame (s : nat) (item : line_item) :
  (fix_item product_mapping s item).1
  = LineItem (item_id item)
             (default (item_productId item)
                      (target_of product_mapping (item_productId item)))
             (item_rest item).
Proof.
  unfold fix_item. destruct (target_of _ _); [done|]. by destruct item.
Qed.

Lemma fix_document_frame (s : nat) (kd : string * invoice) :
  (fix_document product_mapping s kd).1
  = (kd.1,
     Invoice (inv_id kd.2) (inv_customerId kd.2)
             (fmap (M := list)
                (fun item =>
                   LineItem (item_id item)
                            (default (item_productId item)
                                     (target_of product_mapping (item_productId item)))
                            (item_rest item))
                <$> inv_lineItems kd.2)
             (inv_rest kd.2)).
Proof.
  unfold fix_document. destruct kd as [k d]. cbn [fst snd].
  destruct (inv_lineItems d) as [items|] eqn:Hitems.
  - pose proof (for_each_fmap _ (fix_item_additive product_mapping) s items) as H.
    destruct (for_each (fix_item product_mapping) s items) as [items' n].
    cbn [fst snd option_fmap fmap option_map] in *. rewrite H.
    do 3 f_equal. apply list_fmap_ext. intros _ item _. apply fix_item_frame.
  - cbn. destruct d. simpl in *. by rewrite Hitems.
Qed.

Lemma fix_product_references_products (st : fixer) :
  products (fix_product_references product_mapping st).1 = products st.
Proof.
  unfold fix_product_references.
  destruct (for_each (fix_customer product_mapping) 0 (customers st))
    as [customers' n1].
  destruct (for_each (fix_document product_mapping) n1 (invoices st))
    as [invoices' n2].
  by destruct (for_each (fix_document product_mapping) n2 (quotes st)).
Qed.

End product_frame.

(** C10. On invoices and quotes, [fix_product_references] changes the
    [productId] of the line items that have a target in the mapping and
    nothing else: every line item keeps its [id] and its other members, every
    invoice and quote its key, [id], [customerId] and other members, and the
    products and payments are untouched. The substring rewrite is not applied
    to line items. *)
Theorem line_items_only_product_id
  (product_mapping : gmap string (option string)) (st : FixDataIntegrity.fixer) :
  let fixed_item := fun item =>
    FixDataIntegrity.LineItem
      (FixDataIntegrity.item_id item)
      (default (FixDataIntegrity.item_productId item)
               (FixDataIntegrity.target_of product_mapping
                  (FixDataIntegrity.item_productId item)))
      (FixDataIntegrity.item_rest item) in
  let fixed_doc := fun kd : string * FixDataIntegrity.invoice =>
    (kd.1,
     FixDataIntegrity.Invoice
       (FixDataIntegrity.inv_id kd.2) (FixDataIntegrity.inv_customerId kd.2)
       (fmap (M := list) fixed_item <$> FixDataIntegrity.inv_lineItems kd.2)
       (FixDataIntegrity.inv_rest kd.2)) in
  let st' := (FixDataIntegrity.fix_product_references product_mapping st).1 in
  FixDataIntegrity.invoices st' = fixed_doc <$> FixDataIntegrity.invoices st
  /\ FixDataIntegrity.quotes st' = fixed_doc <$> FixDataIntegrity.quotes st
  /\ FixDataIntegrity.products st' = FixDataIntegrity.products st
  /\ FixDataIntegrity.payments st' = FixDataIntegrity.payments st.
Proof.
  intros fixed_item fixed_doc st'. unfold st'.
  unfold FixDataIntegrity.fix_product_references.
  destruct (for_each (FixDataIntegrity.fix_customer product_mapping) 0
              (FixDataIntegrity.customers st)) as [customers' n1].
  pose proof (for_each_fmap _ (fix_document_additive product_mapping)
                n1 (FixDataIntegrity.invoices st)) as Hi.
  destruct (for_each (FixDataIntegrity.fix_document product_mapping) n1
              (FixDataIntegrity.invoices st)) as [invoices' n2].
  pose proof (for_each_fmap _ (fix_document_additive product_mapping)
                n2 (FixDataIntegrity.quotes st)) as Hq.
  destruct (for_each (FixDataIntegrity.fix_document product_mapping) n2
              (FixDataIntegrity.quotes st)) as [quotes' n3].
  cbn [fst FixDataIntegrity.invoices FixDataIntegrity.quotes
         FixDataIntegrity.products FixDataIntegrity.payments] in *.
  repeat split.
  - rewrite Hi. apply list_fmap_ext. intros _ kd _. apply fix_document_frame.
  - rewrite Hq. apply list_fmap_ext. intros _ kd _. apply fix_document_frame.
Qed.

(** A line item whose [id] embeds the old product identifier keeps it, while
    the identifier of a pricing record is rewritten. *)
Example line_item_id_embedding_old_product :
  let st :=
    FixDataIntegrity.Fixer []
      [("c1", FixDataIntegrity.Customer
                (Some [FixDataIntegrity.Pricing "c1_outray" "outray" None []]) [])]
      [("i1", FixDataIntegrity.Invoice "i1" (Some "c1")
                (Some [FixDataIntegrity.LineItem "i1_outray_1" "outray" []]) [])]
      [] [] [] in
  let st' := (FixDataIntegrity.fix_product_references
                FixDataIntegrity.create_product_id_mapping st).1 in
  FixDataIntegrity.invoices st'
  = [("i1", FixDataIntegrity.Invoice "i1" (Some "c1")
              (Some [FixDataIntegrity.LineItem "i1_outray_1" "prod_outray" []]) [])]
  /\ FixDataIntegrity.customers st'
  = [("c1", FixDataIntegrity.Customer
              (Some [FixDataIntegrity.Pricing "c1_prod_outray" "prod_outray" None []])
              [])].
Proof. split; reflexivity. Qed.

(** ** The cascading fix of pricing records *)

Section pricing_fix.

Import FixDataIntegrity.

Lemma check_pricing_append_only (product_ids : list string) (customer_id : string)
  (found : list product_issue) (p : pricing) :
  check_pricing product_ids customer_id found p
  = found ++ check_pricing product_ids customer_id [] p.
Proof.
  unfold check_pricing. destruct (mem _ _); [by rewrite app_nil_r|done].
Qed.

Lemma check_customer_append_only (product_ids : list string)
  (found : list product_issue) (kc : string * customer) :
  check_customer product_ids found kc = found ++ check_customer product_ids [] kc.
Proof.
  unfold check_customer. destruct (cust_customProductPricing kc.2) as [ps|].
  - rewrite !(foldl_append_only _ (check_pricing_append_only product_ids kc.1)).
    done.
  - by rewrite app_nil_r.
Qed.

Lemma check_item_append_only (product_ids : list string)
  (mk : string -> string -> string -> product_issue) (doc_id : string)
  (found : list product_issue) (item : line_item) :
  check_item product_ids mk doc_id found item
  = found ++ check_item product_ids mk doc_id [] item.
Proof.
  unfold check_item. destruct (mem _ _); [by rewrite app_nil_r|done].
Qed.

Lemma check_document_append_only (product_ids : list string)
  (mk : string -> string -> string -> product_issue)
  (found : list product_issue) (kd : string * invoice) :
  check_document product_ids mk found kd
  = found ++ check_document product_ids mk [] kd.
Proof.
  unfold check_document. destruct (inv_lineItems kd.2) as [items|].
  - rewrite !(foldl_append_only _ (check_item_append_only product_ids mk kd.1)).
    done.
  - by rewrite app_nil_r.
Qed.

(** The issues of a run of the analysis are those of each customer, then of
    each invoice, then of each quote, one after the other. *)
Lemma product_issues_by_holder (st : fixer) (found : list product_issue) :
  product_issues st found
  = found
    ++ (customers st ≫= check_customer (products st).*1 [])
    ++ (invoices st ≫= check_document (products st).*1 invoice_line_item [])
    ++ (quotes st ≫= check_document (products st).*1 quote_line_item []).
Proof.
  unfold product_issues.
  rewrite (foldl_append_only _ (check_customer_append_only (products st).*1)).
  rewrite !(foldl_append_only _ (check_document_append_only (products st).*1 _)).
  by rewrite <- !app_assoc.
Qed.

(** A customer gets no issue exactly when the [productId] of each of its
    pricing records is a product. *)
Lemma check_pricings_nil (product_ids : list string) (customer_id : string)
  (found : list product_issue) (ps : list pricing) :
  foldl (check_pricing product_ids customer_id) found ps = []
  <-> found = [] /\ Forall (fun p => pricing_productId p ∈ product_ids) ps.
Proof.
  revert found. induction ps as [|p ps IH]; intros found; simpl.
  - split; [by intros ->|by intros [-> _]].
  - rewrite IH, Forall_cons. unfold check_pricing.
    destruct (mem (pricing_productId p) product_ids) eqn:Hmem.
    + apply mem_true in Hmem. tauto.
    + apply mem_false in Hmem. split.
      * intros [Hnil _]. by destruct found.
      * tauto.
Qed.

Context (product_mapping : gmap string (option string)).

Lemma fix_pricing_result (s : nat) (p : pricing) (new_product_id : string) :
  target_of product_mapping (pricing_productId p) = Some new_product_id ->
  (fix_pricing product_mapping s p).1
  = Pricing (PyStr.replace (pricing_productId p) new_product_id (pricing_id p))
            new_product_id
            (map (fun pr =>
                    Price (PyStr.replace (pricing_productId p) new_product_id
                             (price_id pr))
                          (price_rest pr))
               <$> pricing_prices p)
            (pricing_rest p).
Proof. intros Ht. unfold fix_pricing. by rewrite Ht. Qed.

Lemma fix_pricing_product_id (s : nat) (p : pricing) :
  pricing_productId (fix_pricing product_mapping s p).1
  = default (pricing_productId p)
            (target_of product_mapping (pricing_productId p)).
Proof. unfold fix_pricing. by destruct (target_of _ _). Qed.

Lemma fix_customer_lookup (st : fixer) (i : nat) (customer_id : string)
  (c : customer) (ps : list pricing) :
  customers st !! i = Some (customer_id, c) ->
  cust_customProductPricing c = Some ps ->
  customers (fix_product_references product_mapping st).1 !! i
  = Some (customer_id,
          Customer (Some ((fun p => (fix_pricing product_mapping 0 p).1) <$> ps))
                   (cust_rest c)).
Proof.
  intros Hi Hps. unfold fix_product_references.
  pose proof (for_each_fmap _ (fix_customer_additive product_mapping)
                0 (customers st)) as Hc.
  destruct (for_each (fix_customer product_mapping) 0 (customers st))
    as [customers' n1].
  destruct (for_each (fix_document product_mapping) n1 (invoices st))
    as [invoices' n2].
  destruct (for_each (fix_document product_mapping) n2 (quotes st))
    as [quotes' n3].
  cbn [fst customers] in *. rewrite Hc, list_lookup_fmap, Hi.
  cbn [fmap option_fmap option_map].
  unfold fix_customer. cbn [fst snd]. rewrite Hps.
  pose proof (for_each_fmap _ (fix_pricing_additive product_mapping) 0 ps) as Hp.
  destruct (for_each (fix_pricing product_mapping) 0 ps) as [ps' n].
  cbn [fst] in *. by rewrite Hp.
Qed.

End pricing_fix.

(** C4, as stated, fails: after the fix the analysis of the same class still
    reports the customer when another of its pricing records cannot be mapped
    (here ["v"], which the table skips), and when the target of the mapping
    is not a product of the store. *)
Lemma fixed_customer_still_reported :
  let customers :=
    [("c1", FixDataIntegrity.Customer
              (Some [FixDataIntegrity.Pricing "c1_outray" "outray" None [];
                     FixDataIntegrity.Pricing "c1_v" "v" None []]) [])] in
  let report := fun products =>
    FixDataIntegrity.invalid_product_refs
      (FixDataIntegrity.analyze_product_integrity
         (FixDataIntegrity.fix_product_references
            FixDataIntegrity.create_product_id_mapping
            (FixDataIntegrity.Fixer products customers [] [] [] [])).1).1 in
  report [("prod_outray", JNull)]
    = [FixDataIntegrity.customer_pricing "c1" "v" "c1_v"]
  /\ report [("prod_snowva", JNull)]
    = [FixDataIntegrity.customer_pricing "c1" "prod_outray" "c1_prod_outray";
       FixDataIntegrity.customer_pricing "c1" "v" "c1_v"].
Proof. split; reflexivity. Qed.

(** C4, amended. A pricing record whose [productId] has a target in the
    mapping gets the target as [productId], and its [id] and the [id] of each
    of its prices rewritten by [str.replace] of the old identifier by the
    target; its other members and those of the customer are kept. Afterwards
    the analysis reports nothing for the customer exactly when the
    [productId] of each of its pricing records, which is the target for a
    mapped record and the old value for the others, is a product of the
    store. *)
Theorem pricing_fix_cascades (product_mapping : gmap string (option string))
  (st : FixDataIntegrity.fixer) (i j : nat) (customer_id : string)
  (c : FixDataIntegrity.customer) (ps : list FixDataIntegrity.pricing)
  (p : FixDataIntegrity.pricing) (new_product_id : string) :
  FixDataIntegrity.customers st !! i = Some (customer_id, c) ->
  FixDataIntegrity.cust_customProductPricing c = Some ps ->
  ps !! j = Some p ->
  FixDataIntegrity.target_of product_mapping (FixDataIntegrity.pricing_productId p)
    = Some new_product_id ->
  let old_product_id := FixDataIntegrity.pricing_productId p in
  let st' := (FixDataIntegrity.fix_product_references product_mapping st).1 in
  exists ps',
    FixDataIntegrity.customers st' !! i
    = Some (customer_id,
            FixDataIntegrity.Customer (Some ps') (FixDataIntegrity.cust_rest c))
    /\ ps' !! j
       = Some (FixDataIntegrity.Pricing
                 (PyStr.replace old_product_id new_product_id
                    (FixDataIntegrity.pricing_id p))
                 new_product_id
                 (map (fun pr =>
                         FixDataIntegrity.Price
                           (PyStr.replace old_product_id new_product_id
                              (FixDataIntegrity.price_id pr))
                           (FixDataIntegrity.price_rest pr))
                    <$> FixDataIntegrity.pricing_prices p)
                 (FixDataIntegrity.pricing_rest p))
    /\ FixDataIntegrity.pricing_productId <$> ps'
       = (fun q => default (FixDataIntegrity.pricing_productId q)
                     (FixDataIntegrity.target_of product_mapping
                        (FixDataIntegrity.pricing_productId q))) <$> ps
    /\ (FixDataIntegrity.check_customer (FixDataIntegrity.products st').*1 []
          (customer_id,
           FixDataIntegrity.Customer (Some ps') (FixDataIntegrity.cust_rest c))
        = []
        <-> Forall (fun p' => FixDataIntegrity.pricing_productId p'
                              ∈ (FixDataIntegrity.products st).*1) ps').
Proof.
  intros Hi Hps Hj Ht old_product_id st'.
  exists ((fun p => (FixDataIntegrity.fix_pricing product_mapping 0 p).1) <$> ps).
  split; [by apply fix_customer_lookup|]. split; [|split].
  - rewrite list_lookup_fmap, Hj. cbn [fmap option_fmap option_map]. f_equal.
    by apply fix_pricing_result.
  - rewrite <- list_fmap_compose. apply list_fmap_ext. intros _ q _.
    apply fix_pricing_product_id.
  - unfold FixDataIntegrity.check_customer.
    cbn [snd fst FixDataIntegrity.cust_customProductPricing].
    rewrite check_pricings_nil.
    unfold st'. rewrite fix_product_references_products. tauto.
Qed.

Lemma pricing_fix_cascades_witness :
  let product_mapping := FixDataIntegrity.create_product_id_mapping in
  let c :=
    FixDataIntegrity.Customer
      (Some [FixDataIntegrity.Pricing "c1_outray" "outray"
               (Some [FixDataIntegrity.Price "c1_outray_tier1" []]) []]) [] in
  let st := FixDataIntegrity.Fixer [("prod_outray", JNull)] [("c1", c)] [] [] [] [] in
  let st' := (FixDataIntegrity.fix_product_references product_mapping st).1 in
  exists ps',
    FixDataIntegrity.customers st' !! 0
    = Some ("c1", FixDataIntegrity.Customer (Some ps') [])
    /\ ps' !! 0
       = Some (FixDataIntegrity.Pricing "c1_prod_outray" "prod_outray"
                 (Some [FixDataIntegrity.Price "c1_prod_outray_tier1" []]) [])
    /\ FixDataIntegrity.pricing_productId <$> ps' = ["prod_outray"]
    /\ (FixDataIntegrity.check_customer (FixDataIntegrity.products st').*1 []
          ("c1", FixDataIntegrity.Customer (Some ps') []) = []
        <-> Forall (fun p' => FixDataIntegrity.pricing_productId p'
                              ∈ ["prod_outray"]) ps').
Proof.
  exact (pricing_fix_cascades FixDataIntegrity.create_product_id_mapping
           (FixDataIntegrity.Fixer [("prod_outray", JNull)]
              [("c1", FixDataIntegrity.Customer
                        (Some [FixDataIntegrity.Pricing "c1_outray" "outray"
                                 (Some [FixDataIntegrity.Price "c1_outray_tier1" []])
                                 []]) [])] [] [] [] [])
           0 0 "c1" _ _ _ "prod_outray" eq_refl eq_refl eq_refl eq_refl).
Defined.

(** [fix_customer_product_ids] does to a pricing record what
    [fix_product_references] does with the same three entries. *)
Lemma fix_customer_product_ids_agrees
  (customers : list (string * FixDataIntegrity.customer)) :
  FixCustomerProductIds.fix_customer_product_ids customers
  = for_each (FixDataIntegrity.fix_customer
                (Some <$> FixCustomerProductIds.PRODUCT_ID_MAPPINGS)) 0 customers.
Proof.
  unfold FixCustomerProductIds.fix_customer_product_ids.
  assert (Hp : forall s p,
    FixCustomerProductIds.fix_pricing s p
    = FixDataIntegrity.fix_pricing
        (Some <$> FixCustomerProductIds.PRODUCT_ID_MAPPINGS) s p).
  { intros s p. unfold FixCustomerProductIds.fix_pricing, FixDataIntegrity.fix_pricing,
      FixDataIntegrity.target_of.
    rewrite lookup_fmap.
    destruct (FixCustomerProductIds.PRODUCT_ID_MAPPINGS
                !! FixDataIntegrity.pricing_productId p) as [new|] eqn:Hnew;
      cbn [fmap option_fmap option_map]; [|done].
    assert (Ht : PyStr.truthy new = true).
    { assert (Hall : map_Forall (fun _ t => PyStr.truthy t = true)
                       FixCustomerProductIds.PRODUCT_ID_MAPPINGS)
        by (apply (bool_decide_unpack _); by vm_compute).
      exact (Hall _ _ Hnew). }
    by rewrite Ht. }
  assert (Hps : forall s ps,
    for_each FixCustomerProductIds.fix_pricing s ps
    = for_each (FixDataIntegrity.fix_pricing
                  (Some <$> FixCustomerProductIds.PRODUCT_ID_MAPPINGS)) s ps).
  { intros s ps. revert s. induction ps as [|p ps IH]; intros s; [done|].
    cbn [for_each]. rewrite Hp.
    destruct (FixDataIntegrity.fix_pricing _ s p) as [p' s1]. by rewrite IH. }
  generalize 0. induction customers as [|kc customers IH]; intros s; [done|].
  cbn [for_each].
  assert (Hc : FixCustomerProductIds.fix_customer s kc
               = FixDataIntegrity.fix_customer
                   (Some <$> FixCustomerProductIds.PRODUCT_ID_MAPPINGS) s kc).
  { unfold FixCustomerProductIds.fix_customer, FixDataIntegrity.fix_customer.
    destruct (FixDataIntegrity.cust_customProductPricing kc.2); [|done].
    by rewrite Hps. }
  rewrite Hc. destruct (FixDataIntegrity.fix_customer _ s kc) as [kc' s1].
  by rewrite IH.
Qed.

(** ** The verification passes *)

Section collecting_loops.

Context {A B : Type}.





End collecting_loops.



Section final_integrity_check.

Import Dataset FinalIntegrityCheck.


(** A pricing value that is not an object, such as the list of pricing
    records that [fix_product_references] works on, is passed over. *)
Lemma fic_skips_other_pricing (product_ids : list string)
  (errors : list string) (c : customer) :
  is_dict (custom_pricing c) = false ->
  check_customer_products product_ids errors c = errors.
Proof.
  intros H. unfold check_customer_products. by rewrite H, andb_false_r.
Qed.








End final_integrity_check.

Section final_integrity_check_run.

Import Dataset FinalIntegrityCheck.




End final_integrity_check_run.

Section final_integrity_check_counts.

Import Dataset FinalIntegrityCheck.



End final_integrity_check_counts.

Section verify_data_integrity.

Import Dataset VerifyDataIntegrity.












(** A file that did not load ends the run with [False] before anything is
    counted; a pricing value that is not an object makes it raise. *)
Lemma vdi_fatal (customers : option (collection customer))
  (products : option (collection product))
  (invoices : option (collection invoice))
  (payments : option (collection payment)) :
  customers = None \/ products = None \/ invoices = None \/ payments = None ->
  verify_data_integrity customers products invoices payments = Fatal.
Proof.
  unfold verify_data_integrity.
  intros [H|[H|[H|H]]]; rewrite H; by repeat case_match.
Qed.


End verify_data_integrity.



(** ** Loading and saving the files *)

Section load_save.

Import FixDataIntegrity.

(** A non-empty keyed object in place of the list of invoices or payments
    makes [load_all_data] raise. *)
Lemma load_all_data_raises (fs : files) :
  (exists kv kvs, invoices_json fs = AsObject (kv :: kvs))
  \/ (exists kv kvs, payments_json fs = AsObject (kv :: kvs)) ->
  load_all_data fs = None.
Proof.
  unfold load_all_data. intros [(kv & kvs & H)|(kv & kvs & H)]; rewrite H.
  - done.
  - cbn [by_id_of]. by destruct (by_id_of inv_id (invoices_json fs)).
Qed.

Lemma dict_set_fresh {A : Type} (k : string) (v : A) (d : list (string * A)) :
  k ∉ d.*1 -> dict_set k v d = d ++ [(k, v)].
Proof.
  induction d as [|[k' v'] d IH]; [done|]. cbn [dict_set fmap list_fmap fst].
  intros Hnin. apply not_elem_of_cons in Hnin as [Hne Hnin].
  destruct (String.eqb_spec k k') as [->|_]; [done|].
  cbn [app]. f_equal. by apply IH.
Qed.

(** With identifiers that are all different, the dictionary built from a
    list holds its records in the order of the list. *)
Lemma by_id_values {A : Type} (id : A -> string) (xs : list A) :
  NoDup (id <$> xs) -> (by_id id xs).*2 = xs.
Proof.
  unfold by_id.
  assert (H : forall d,
    NoDup (d.*1 ++ (id <$> xs)) ->
    foldl (fun d x => dict_set (id x) x d) d xs
    = d ++ ((fun x => (id x, x)) <$> xs)).
  { induction xs as [|x xs IH]; intros d Hnd.
    - cbn. by rewrite app_nil_r.
    - cbn [foldl fmap list_fmap] in *.
      apply NoDup_app in Hnd as (Hd & Hdisj & Hxs).
      apply NoDup_cons in Hxs as [Hx Hxs].
      rewrite dict_set_fresh.
      2: { intros Hin. apply (Hdisj _ Hin). apply list_elem_of_here. }
      rewrite IH.
      + by rewrite <- app_assoc.
      + rewrite fmap_app. cbn [fmap list_fmap fst]. rewrite <- app_assoc.
        cbn [app]. apply NoDup_app. split; [done|]. split.
        * intros k Hk. apply (Hdisj k Hk).
        * by apply NoDup_cons. }
  intros Hnd. rewrite (H [] Hnd). cbn [app].
  rewrite <- list_fmap_compose. apply list_fmap_id.
Qed.

End load_save.

(** C8, as stated, fails on the quotes: a quotes file that is an object
    keyed by identifier is accepted by [load_all_data] and written back by
    [save_fixed_data] as a flat list, with no change made in between. *)
Lemma keyed_quotes_saved_as_list :
  let fs :=
    FixDataIntegrity.Files
      (FixDataIntegrity.Flat [("prod_outray", JNull)]) [] (AsList [])
      (Some (AsObject [("q1", FixDataIntegrity.Invoice "q1" None None [])]))
      (AsList []) in
  exists st,
    FixDataIntegrity.load_all_data fs = Some st
    /\ shape_of <$> FixDataIntegrity.quotes_json fs = Some ObjectShape
    /\ shape_of <$> FixDataIntegrity.quotes_json
                      (FixDataIntegrity.save_fixed_data st fs)
       = Some ListShape.
Proof. eexists. split; [reflexivity|]. split; reflexivity. Qed.

(** C8, amended. When [load_all_data] returns, [save_fixed_data] with no
    change in between writes the customers as the keyed object they were,
    leaves products.json alone, and writes invoices and payments as flat
    lists, the only form of them that loads apart from the empty object. A
    quotes file that was a flat list is a flat list again or, when empty, is
    not written; a quotes file that was a non-empty keyed object is written
    as the flat list of its values; a missing quotes file stays missing. *)
Theorem load_save_shapes (fs : FixDataIntegrity.files)
  (st : FixDataIntegrity.fixer) :
  FixDataIntegrity.load_all_data fs = Some st ->
  let fs' := FixDataIntegrity.save_fixed_data st fs in
  FixDataIntegrity.customers_json fs' = FixDataIntegrity.customers_json fs
  /\ FixDataIntegrity.products_json fs' = FixDataIntegrity.products_json fs
  /\ shape_of (FixDataIntegrity.invoices_json fs') = ListShape
  /\ shape_of (FixDataIntegrity.payments_json fs') = ListShape
  /\ match FixDataIntegrity.quotes_json fs with
     | Some (AsList qs) =>
         shape_of <$> FixDataIntegrity.quotes_json fs' = Some ListShape
     | Some (AsObject []) =>
         FixDataIntegrity.quotes_json fs' = Some (AsObject [])
     | Some (AsObject (kv :: kvs)) =>
         FixDataIntegrity.quotes_json fs' = Some (AsList (kv :: kvs).*2)
     | None => FixDataIntegrity.quotes_json fs' = None
     end.
Proof.
  unfold FixDataIntegrity.load_all_data. intros Hload.
  destruct (FixDataIntegrity.by_id_of FixDataIntegrity.inv_id
              (FixDataIntegrity.invoices_json fs)) as [invoices|]; [|done].
  destruct (FixDataIntegrity.by_id_of FixDataIntegrity.pay_id
              (FixDataIntegrity.payments_json fs)) as [payments|]; [|done].
  injection Hload as <-. cbv zeta.
  unfold FixDataIntegrity.save_fixed_data.
  cbn [FixDataIntegrity.customers_json FixDataIntegrity.products_json
         FixDataIntegrity.invoices_json FixDataIntegrity.payments_json
         FixDataIntegrity.quotes_json FixDataIntegrity.customers
         FixDataIntegrity.quotes FixDataIntegrity.invoices
         FixDataIntegrity.payments shape_of].
  repeat split.
  destruct (FixDataIntegrity.quotes_json fs) as [[qs|[|kv kvs]]|]; try done.
  destruct (FixDataIntegrity.by_id FixDataIntegrity.inv_id qs); done.
Qed.

Lemma load_save_shapes_witness :
  let fs :=
    FixDataIntegrity.Files
      (FixDataIntegrity.Nested [("prod_outray", JNull)])
      [("c1", FixDataIntegrity.Customer None [])]
      (AsList [FixDataIntegrity.Invoice "i1" (Some "c1") None []])
      (Some (AsObject [("q1", FixDataIntegrity.Invoice "q1" None None [])]))
      (AsList [FixDataIntegrity.Payment "p1" (Some "c1") []]) in
  let st :=
    FixDataIntegrity.Fixer
      [("prod_outray", JNull)]
      [("c1", FixDataIntegrity.Customer None [])]
      [("i1", FixDataIntegrity.Invoice "i1" (Some "c1") None [])]
      [("q1", FixDataIntegrity.Invoice "q1" None None [])]
      [("p1", FixDataIntegrity.Payment "p1" (Some "c1") [])] [] in
  let fs' := FixDataIntegrity.save_fixed_data st fs in
  FixDataIntegrity.customers_json fs' = FixDataIntegrity.customers_json fs
  /\ FixDataIntegrity.products_json fs' = FixDataIntegrity.products_json fs
  /\ shape_of (FixDataIntegrity.invoices_json fs') = ListShape
  /\ shape_of (FixDataIntegrity.payments_json fs') = ListShape
  /\ FixDataIntegrity.quotes_json fs'
     = Some (AsList [FixDataIntegrity.Invoice "q1" None None []]).
Proof.
  intros fs st. apply (load_save_shapes fs st). reflexivity.
Defined.

(** With identifiers that are all different, the invoices and the payments
    are written back as the very lists that were read. *)
Lemma load_save_lists (fs : FixDataIntegrity.files)
  (invoices : list FixDataIntegrity.invoice)
  (payments : list FixDataIntegrity.payment) :
  FixDataIntegrity.invoices_json fs = AsList invoices ->
  FixDataIntegrity.payments_json fs = AsList payments ->
  NoDup (FixDataIntegrity.inv_id <$> invoices) ->
  NoDup (FixDataIntegrity.pay_id <$> payments) ->
  exists st,
    FixDataIntegrity.load_all_data fs = Some st
    /\ FixDataIntegrity.invoices_json (FixDataIntegrity.save_fixed_data st fs)
       = AsList invoices
    /\ FixDataIntegrity.payments_json (FixDataIntegrity.save_fixed_data st fs)
       = AsList payments.
Proof.
  intros Hi Hp Hndi Hndp. unfold FixDataIntegrity.load_all_data.
  rewrite Hi, Hp. cbn [FixDataIntegrity.by_id_of]. eexists. split; [reflexivity|].
  unfold FixDataIntegrity.save_fixed_data.
  cbn [FixDataIntegrity.invoices_json FixDataIntegrity.payments_json
         FixDataIntegrity.invoices FixDataIntegrity.payments].
  by rewrite !by_id_values.
Qed.

(** * Further properties of the scripts *)

(** ** More on loops *)

Section for_each_more.

Context {A : Type} (body : nat -> A -> A * nat).

Hypothesis body_additive :
  forall s x, body s x = ((body 0 x).1, s + (body 0 x).2).

(** The counter at the end is the counter at the start plus what each step
    adds. *)
Lemma for_each_count (s : nat) (l : list A) :
  (for_each body s l).2 = s + sum_list ((fun x => (body 0 x).2) <$> l).
Proof.
  revert s. induction l as [|x l IH]; intros s; cbn [for_each].
  - simpl. lia.
  - rewrite (body_additive s x), fmap_cons.
    destruct (body 0 x) as [x' c]. cbn [fst snd].
    specialize (IH (s + c)).
    destruct (for_each body (s + c) l) as [l' n]. cbn [snd] in *.
    rewrite IH. simpl. lia.
Qed.

(** A loop whose steps all leave their object and add nothing changes
    nothing. *)
Lemma for_each_untouched (s : nat) (l : list A) :
  (forall x, x ∈ l -> body 0 x = (x, 0)) -> for_each body s l = (l, s).
Proof.
  intros H. rewrite (for_each_additive body body_additive s l).
  assert (H0 : for_each body 0 l = (l, 0)).
  { induction l as [|x l IH]; [done|]. cbn [for_each].
    rewrite (H x) by apply list_elem_of_here.
    rewrite IH; [done|]. intros y Hy. apply H. by apply list_elem_of_further. }
  rewrite H0. cbn [fst snd]. f_equal. lia.
Qed.

End for_each_more.

(** One is counted for each element that passes the test. *)
Lemma sum_list_indicator {A : Type} (P : A -> Prop) `{!forall x, Decision (P x)}
  (l : list A) :
  sum_list ((fun x => if decide (P x) then 1 else 0) <$> l)
  = length (filter P l).
Proof.
  induction l as [|x l IH]; [done|]. rewrite fmap_cons, filter_cons.
  destruct (decide (P x)); simpl in *; lia.
Qed.

Lemma filter_none {A : Type} (P : A -> Prop) `{!forall x, Decision (P x)}
  (l : list A) :
  (forall x, x ∈ l -> ~ P x) -> filter P l = [].
Proof.
  intros Hnone. destruct (filter P l) as [|x l'] eqn:E; [done|].
  assert (Hx : x ∈ filter P l) by (rewrite E; apply list_elem_of_here).
  apply list_elem_of_filter in Hx as [HP Hin]. by destruct (Hnone x Hin).
Qed.

Lemma sum_list_fmap_ext {A : Type} (f g : A -> nat) (l : list A) :
  (forall x, x ∈ l -> f x = g x) -> sum_list (f <$> l) = sum_list (g <$> l).
Proof.
  intros H. f_equal. apply Forall_fmap_ext, Forall_forall. exact H.
Qed.

(** ** Lengths of the strings the string operations return *)

Lemma length_append (s t : string) :
  String.length (s +:+ t) = String.length s + String.length t.
Proof.
  induction s as [|c s IH]; [done|].
  change (S (String.length (s +:+ t)) = S (String.length s) + String.length t).
  by rewrite IH.
Qed.

Lemma startswith_length (s p : string) :
  PyStr.startswith s p = true -> String.length p <= String.length s.
Proof.
  revert s. induction p as [|a p IH]; intros s H; simpl; [lia|].
  destruct s as [|b s]; simpl in H; [done|].
  destruct (Ascii.eqb a b); [|done]. apply IH in H. simpl. lia.
Qed.

Lemma slice_from_length (n : nat) (s : string) :
  String.length (PyStr.slice_from n s) = String.length s - n.
Proof.
  revert s. induction n as [|n IH]; intros s; simpl.
  - lia.
  - destruct s as [|c s]; [done|]. by rewrite IH.
Qed.

(** Every part of a split is no longer than what was collected plus what is
    still to be read. *)
Lemma split_go_part_length (sep : string) (skip : nat) (cur s part : string) :
  part ∈ PyStr.split_go sep skip cur s ->
  String.length part <= String.length cur + String.length s.
Proof.
  revert skip cur. induction s as [|c s IH]; intros skip cur; simpl.
  - intros ->%list_elem_of_singleton. lia.
  - destruct skip as [|k].
    + destruct (PyStr.startswith (String c s) sep).
      * intros [->|H]%elem_of_cons; [lia|]. apply IH in H. simpl in H. lia.
      * intros H. apply IH in H. rewrite length_append in H. simpl in H. lia.
    + intros H. apply IH in H. lia.
Qed.

Lemma split_go_nonempty (sep : string) (skip : nat) (cur s : string) :
  PyStr.split_go sep skip cur s <> [].
Proof.
  revert skip cur. induction s as [|c s IH]; intros skip cur; simpl; [done|].
  destruct skip; [|apply IH]. destruct (PyStr.startswith _ _); [done|apply IH].
Qed.

Lemma last_elem_of {A : Type} (l : list A) (d : A) : l <> [] -> List.last l d ∈ l.
Proof.
  induction l as [|x l IH]; [done|]. intros _. destruct l as [|y l].
  - apply list_elem_of_here.
  - apply list_elem_of_further, IH. done.
Qed.

Lemma split_last_part_length (sep s : string) :
  String.length (PyStr.last_part (PyStr.split sep s)) <= String.length s.
Proof.
  apply (split_go_part_length sep 0 EmptyString s).
  apply last_elem_of, split_go_nonempty.
Qed.

Lemma split_first_part_length (sep s : string) :
  String.length (PyStr.first_part (PyStr.split sep s)) <= String.length s.
Proof.
  apply (split_go_part_length sep 0 EmptyString s).
  unfold PyStr.first_part, PyStr.split.
  pose proof (split_go_nonempty sep 0 EmptyString s) as H.
  destruct (PyStr.split_go sep 0 EmptyString s); [done|]. apply list_elem_of_here.
Qed.

(** Replacing by a string that is no longer than the replaced one does not
    lengthen. *)
Lemma replace_go_length (old new : string) (skip : nat) (s : string) :
  String.length new <= String.length old ->
  String.length (PyStr.replace_go old new skip s) + Nat.min skip (String.length s)
  <= String.length s.
Proof.
  intros Hlen. revert skip. induction s as [|c s IH]; intros skip; simpl.
  - lia.
  - destruct skip as [|k].
    + destruct (PyStr.startswith (String c s) old) eqn:Hs.
      * apply startswith_length in Hs. simpl in Hs.
        specialize (IH (String.length old - 1)).
        rewrite length_append. lia.
      * specialize (IH 0). simpl. lia.
    + specialize (IH k). lia.
Qed.

Lemma replace_length (old new s : string) :
  old <> EmptyString -> String.length new <= String.length old ->
  String.length (PyStr.replace old new s) <= String.length s.
Proof.
  intros Hold Hlen. destruct old as [|a old]; [done|].
  pose proof (replace_go_length (String a old) new 0 s Hlen). unfold PyStr.replace.
  lia.
Qed.

(** ** [create_customer_mapping] and [fix_customer_references] *)

Section fix_customer_references.

Import FixCustomerReferences FixCustomerReferencesRun.

Lemma fcr_map_ref_target (ids : list string) (ref target : string) :
  map_ref ids ref = Some target ->
  PyStr.startswith ref "cust_" = true /\ target ∈ ids.
Proof.
  unfold map_ref. destruct (PyStr.startswith ref "cust_"); [|done].
  intros H. split; [done|].
  repeat match type of H with
  | context [if ?b then _ else _] => destruct b eqn:?
  end; simplify_eq; try (by apply mem_true).
  all: apply find_elem_of in H as [_ H]; by apply mem_true.
Qed.

Lemma fix_invoice_additive' (m : gmap string string) (s : nat) (inv : invoice) :
  fix_invoice m s inv = ((fix_invoice m 0 inv).1, s + (fix_invoice m 0 inv).2).
Proof.
  unfold fix_invoice. destruct (m !! inv_customerId inv); simpl; f_equal; lia.
Qed.

Lemma fix_payment_additive' (m : gmap string string) (s : nat) (pay : payment) :
  fix_payment m s pay = ((fix_payment m 0 pay).1, s + (fix_payment m 0 pay).2).
Proof.
  unfold fix_payment. destruct (m !! pay_customerId pay); simpl; f_equal; lia.
Qed.

Lemma fcr_map_ref_shorter (ids : list string) (ref target : string) :
  map_ref ids ref = Some target -> String.length target < String.length ref.
Proof.
  unfold map_ref. destruct (PyStr.startswith ref "cust_") eqn:Hp; [|done].
  apply startswith_length in Hp. simpl in Hp.
  pose proof (slice_from_length 5 ref) as Hc.
  pose proof (split_last_part_length "__" (PyStr.slice_from 5 ref)) as Hl.
  pose proof (split_first_part_length "__" (PyStr.slice_from 5 ref)) as Hf.
  intros H.
  repeat match type of H with
  | context [if ?b then _ else _] => destruct b eqn:?
  end; simplify_eq; try lia.
  all: apply find_elem_of in H as [H _]; unfold variations in H.
  all: repeat (apply elem_of_cons in H as [->|H]);
    try (by apply elem_of_nil in H).
  all: match goal with
       | |- context [PyStr.replace ?o ?n ?s] =>
           pose proof (replace_length o n s ltac:(done) ltac:(simpl; lia))
       end; lia.
Qed.

Lemma fcr_fix_customer_references_loops {A : Type}
  (customers : list (string * A)) (invoices : list invoice)
  (payments : option (list payment)) :
  let m := create_customer_mapping customers invoices in
  let r := fix_customer_references customers invoices payments in
  (fixed_invoices r, invoice_fixes r) = for_each (fix_invoice m) 0 invoices /\
  fixed_payments r = (fun ps => (for_each (fix_payment m) 0 ps).1) <$> payments /\
  payment_fixes r = (fun ps => (for_each (fix_payment m) 0 ps).2) <$> payments.
Proof.
  intros m r. subst m r. unfold fix_customer_references.
  destruct (for_each (fix_invoice _) 0 invoices) as [invoices' n].
  destruct payments as [ps|]; [|done]. simpl.
  by destruct (for_each (fix_payment _) 0 ps).
Qed.

(** What the mapping holds for the reference of an invoice. *)
Lemma fcr_lookup_invoice {A : Type} (customers : list (string * A))
  (invoices : list invoice) (inv : invoice) :
  inv ∈ invoices ->
  create_customer_mapping customers invoices !! inv_customerId inv
  = map_ref customers.*1 (inv_customerId inv).
Proof.
  intros Hin. rewrite create_customer_mapping_lookup, bool_decide_eq_true_2; [done|].
  apply list_elem_of_fmap. by exists inv.
Qed.

(** The invoices a run writes. *)
Lemma fcr_fixed_invoices {A : Type} (customers : list (string * A))
  (invoices : list invoice) (payments : option (list payment)) :
  fixed_invoices (fix_customer_references customers invoices payments)
  = (fun inv =>
       Invoice (inv_id inv)
         (default (inv_customerId inv)
            (map_ref customers.*1 (inv_customerId inv)))
         (inv_rest inv)) <$> invoices.
Proof.
  destruct (fcr_fix_customer_references_loops customers invoices payments)
    as (Hi & _ & _).
  apply (f_equal fst) in Hi. cbn [fst] in Hi. rewrite Hi.
  rewrite (for_each_fmap _ (fix_invoice_additive' _)).
  apply Forall_fmap_ext, Forall_forall. intros inv Hin.
  unfold fix_invoice. rewrite (fcr_lookup_invoice customers invoices inv Hin).
  destruct (map_ref customers.*1 (inv_customerId inv)); [done|].
  by destruct inv.
Qed.

(** X1. Every entry of the dictionary [create_customer_mapping] returns has
    as key a reference of some invoice that starts with [cust_], and as value
    a key of customers.json that is strictly shorter than the key. *)
Theorem create_customer_mapping_entries {A : Type}
  (customers : list (string * A)) (invoices : list invoice)
  (ref target : string) :
  create_customer_mapping customers invoices !! ref = Some target ->
  ref ∈ inv_customerId <$> invoices /\
  PyStr.startswith ref "cust_" = true /\
  target ∈ customers.*1 /\
  String.length target < String.length ref.
Proof.
  rewrite create_customer_mapping_lookup. case_bool_decide as Href; [|done].
  intros H. split; [done|].
  destruct (fcr_map_ref_target _ _ _ H) as [Hp Ht].
  split; [done|]. split; [done|]. by apply fcr_map_ref_shorter in H.
Qed.

Lemma create_customer_mapping_entries_witness :
  let customers := [("plettenberg_bay", tt)] in
  let invoices :=
    [Invoice "inv_1" "cust_the_biltong_boutiek__plettenberg_bay" []] in
  create_customer_mapping customers invoices
    !! "cust_the_biltong_boutiek__plettenberg_bay" = Some "plettenberg_bay" /\
  "plettenberg_bay" ∈ customers.*1.
Proof.
  intros customers invoices.
  assert (H : create_customer_mapping customers invoices
                !! "cust_the_biltong_boutiek__plettenberg_bay"
              = Some "plettenberg_bay") by (by vm_compute).
  split; [exact H|].
  exact (proj1 (proj2 (proj2
    (create_customer_mapping_entries customers invoices _ _ H)))).
Defined.

(** X2. [fix_customer_references] rewrites the [customerId] of exactly the
    invoices whose reference one of the strategies of
    [create_customer_mapping] resolves, to what that strategy gives; the
    [id] and the other members of an invoice, the number of invoices and
    their order stay; [invoice_fixes] is the number of invoices rewritten. *)
Theorem fix_customer_references_invoices {A : Type}
  (customers : list (string * A)) (invoices : list invoice)
  (payments : option (list payment)) :
  let ids := customers.*1 in
  let r := fix_customer_references customers invoices payments in
  fixed_invoices r
  = (fun inv =>
       Invoice (inv_id inv)
         (default (inv_customerId inv) (map_ref ids (inv_customerId inv)))
         (inv_rest inv)) <$> invoices /\
  invoice_fixes r
  = length (filter (fun inv => is_Some (map_ref ids (inv_customerId inv)))
                   invoices).
Proof.
  intros ids r.
  destruct (fcr_fix_customer_references_loops customers invoices payments)
    as (Hi & _ & _). fold r in Hi.
  apply (f_equal snd) in Hi as Hi2. cbn [snd] in Hi2. rewrite Hi2. split.
  - apply fcr_fixed_invoices.
  - rewrite (for_each_count _ (fix_invoice_additive' _)), <- sum_list_indicator.
    simpl. apply sum_list_fmap_ext. intros inv Hin.
    unfold fix_invoice. rewrite (fcr_lookup_invoice customers invoices inv Hin).
    fold ids. destruct (map_ref ids (inv_customerId inv)) eqn:E.
    + by rewrite decide_True.
    + rewrite decide_False; [done|]. by intros [? ?].
Qed.

(** X3. The dictionary is built from the references of the invoices alone:
    a payment is rewritten only when its reference is also the reference of
    an invoice and a strategy resolves it; every other payment stays as it
    is, whatever its reference. When payments.json does not exist, neither
    payments nor a payment count are produced. *)
Theorem fix_customer_references_payments {A : Type}
  (customers : list (string * A)) (invoices : list invoice)
  (payments : option (list payment)) :
  let ids := customers.*1 in
  let r := fix_customer_references customers invoices payments in
  let repaired (ref : string) : string :=
    if bool_decide (ref ∈ inv_customerId <$> invoices)
    then default ref (map_ref ids ref) else ref in
  fixed_payments r
  = (fun ps : list payment =>
       (fun pay : payment =>
          Payment (pay_id pay) (repaired (pay_customerId pay)) (pay_rest pay))
       <$> ps) <$> payments /\
  payment_fixes r
  = (fun ps : list payment =>
       length (filter (fun pay : payment =>
                         pay_customerId pay ∈ inv_customerId <$> invoices /\
                         is_Some (map_ref ids (pay_customerId pay))) ps))
      <$> payments.
Proof.
  intros ids r repaired.
  destruct (fcr_fix_customer_references_loops customers invoices payments)
    as (_ & Hp & Hn). fold r in Hp, Hn. rewrite Hp, Hn.
  destruct payments as [ps|]; [|done]. cbn [fmap option_fmap option_map].
  split; f_equal.
  - rewrite (for_each_fmap _ (fix_payment_additive' _)).
    apply Forall_fmap_ext, Forall_forall. intros pay _.
    unfold fix_payment, repaired. rewrite create_customer_mapping_lookup.
    fold ids. case_bool_decide; [|by destruct pay].
    destruct (map_ref ids (pay_customerId pay)); [done|by destruct pay].
  - rewrite (for_each_count _ (fix_payment_additive' _)), <- sum_list_indicator.
    simpl. apply sum_list_fmap_ext. intros pay _.
    unfold fix_payment. rewrite create_customer_mapping_lookup. fold ids.
    case_bool_decide as Hin.
    + destruct (map_ref ids (pay_customerId pay)) eqn:E.
      * by rewrite decide_True.
      * rewrite decide_False; [done|]. by intros [_ [? ?]].
    + rewrite decide_False; [done|]. by intros [? _].
Qed.

(** X4. When no key of customers.json starts with [cust_], a second run of
    [fix_customer_references] on the files the first run wrote changes
    nothing and counts nothing. *)
Theorem fix_customer_references_rerun {A : Type}
  (customers : list (string * A)) (invoices : list invoice)
  (payments : option (list payment)) :
  Forall (fun id => PyStr.startswith id "cust_" = false) customers.*1 ->
  let r := fix_customer_references customers invoices payments in
  fix_customer_references customers (fixed_invoices r) (fixed_payments r)
  = Fixed (fixed_invoices r) 0 (fixed_payments r) ((fun _ => 0) <$> fixed_payments r).
Proof.
  intros Hids r.
  assert (Hvalid : forall t, t ∈ customers.*1 -> map_ref customers.*1 t = None).
  { intros t Ht. unfold map_ref.
    by rewrite (proj1 (Forall_forall _ _) Hids t Ht). }
  assert (Hempty : create_customer_mapping customers (fixed_invoices r) = ∅).
  { apply map_empty. intros ref. rewrite create_customer_mapping_lookup.
    case_bool_decide as Href; [|done].
    unfold r in Href. rewrite fcr_fixed_invoices in Href.
    apply list_elem_of_fmap in Href as (inv' & -> & Hin').
    apply list_elem_of_fmap in Hin' as (inv & -> & Hin). cbn [inv_customerId].
    destruct (map_ref customers.*1 (inv_customerId inv)) as [t|] eqn:E;
      cbn [default]; [|done].
    apply Hvalid. by apply fcr_map_ref_target in E as [_ ?]. }
  destruct (fcr_fix_customer_references_loops customers (fixed_invoices r)
              (fixed_payments r)) as (Hi & Hp & Hn).
  rewrite Hempty in Hi, Hp, Hn.
  rewrite (for_each_untouched _ (fix_invoice_additive' _)) in Hi
    by (intros inv _; unfold fix_invoice; by rewrite lookup_empty).
  destruct (fix_customer_references customers (fixed_invoices r)
              (fixed_payments r)) as [i2 n2 p2 c2].
  cbn [FixCustomerReferencesRun.fixed_invoices FixCustomerReferencesRun.invoice_fixes
       FixCustomerReferencesRun.fixed_payments FixCustomerReferencesRun.payment_fixes]
    in Hi, Hp, Hn.
  simplify_eq. f_equal.
  - destruct (fixed_payments r) as [ps|]; [|done]. simpl. f_equal.
    by rewrite (for_each_untouched _ (fix_payment_additive' _))
      by (intros pay _; unfold fix_payment; by rewrite lookup_empty).
  - destruct (fixed_payments r) as [ps|]; [|done]. simpl. f_equal.
    by rewrite (for_each_untouched _ (fix_payment_additive' _))
      by (intros pay _; unfold fix_payment; by rewrite lookup_empty).
Qed.

Lemma fix_customer_references_rerun_witness :
  let customers := [("plettenberg_bay", tt)] in
  let invoices :=
    [Invoice "inv_1" "cust_the_biltong_boutiek__plettenberg_bay" []] in
  let payments := Some [Payment "pay_1" "cust_plettenberg_bay" []] in
  let r := fix_customer_references customers invoices payments in
  Forall (fun id => PyStr.startswith id "cust_" = false) customers.*1 /\
  fix_customer_references customers (fixed_invoices r) (fixed_payments r)
  = Fixed (fixed_invoices r) 0 (fixed_payments r) ((fun _ => 0) <$> fixed_payments r).
Proof.
  intros customers invoices payments r.
  assert (H : Forall (fun id => PyStr.startswith id "cust_" = false)
                customers.*1) by (by repeat constructor).
  split; [exact H|].
  exact (fix_customer_references_rerun customers invoices payments H).
Defined.

End fix_customer_references.

(** ** [apply_customer_fixes] and the main block of finalCustomerFix.py *)

Section apply_customer_fixes.

Import FinalCustomerFix.

Variable ids : list string.

(** What the fixing loops leave in a [customerId], and whether they count
    it. *)
Local Abbreviation repaired o :=
  (if is_invalid_ref ids o
   then match o ≫= map_ref ids with Some new => Some new | None => o end
   else o).
Local Abbreviation repairable o :=
  (is_invalid_ref ids o = true /\ is_Some (o ≫= map_ref ids)).

Variables (invoices : list invoice) (payments : list payment).

Local Abbreviation m := (create_comprehensive_customer_mapping ids invoices payments).

Lemma fcf_lookup_referenced (ref : string) :
  (exists inv, inv ∈ invoices /\ inv_customerId inv = Some ref) \/
  (exists pay, pay ∈ payments /\ pay_customerId pay = Some ref) ->
  m !! ref = if is_invalid_ref ids (Some ref) then map_ref ids ref else None.
Proof.
  intros Hex. rewrite create_comprehensive_customer_mapping_lookup.
  destruct (is_invalid_ref ids (Some ref)) eqn:Hv.
  - rewrite bool_decide_eq_true_2; [done|]. by apply elem_of_invalid_refs.
  - rewrite bool_decide_eq_false_2; [done|].
    intros [Hv' _]%elem_of_invalid_refs. congruence.
Qed.

Lemma fcf_fix_invoice_repaired (inv : invoice) :
  inv ∈ invoices ->
  fix_invoice m 0 inv
  = (Invoice (repaired (inv_customerId inv)) (inv_rest inv),
     if decide (repairable (inv_customerId inv)) then 1 else 0).
Proof.
  intros Hin. unfold fix_invoice.
  destruct (inv_customerId inv) as [ref|] eqn:Hcid.
  - rewrite (fcf_lookup_referenced ref) by (left; by exists inv).
    destruct (is_invalid_ref ids (Some ref)) eqn:Hv.
    + cbn [mbind option_bind]. destruct (map_ref ids ref) as [new|] eqn:Hm.
      * rewrite decide_True; [done|]. split; [done|by eexists].
      * rewrite decide_False by (by intros [_ [? ?]]).
        f_equal. destruct inv; simpl in *; by subst.
    + rewrite decide_False by (by intros [? _]).
      f_equal. destruct inv; simpl in *; by subst.
  - rewrite decide_False by (by intros [? _]).
    cbn [is_invalid_ref]. f_equal. destruct inv; simpl in *; by subst.
Qed.

Lemma fcf_fix_payment_repaired (pay : payment) :
  pay ∈ payments ->
  fix_payment m 0 pay
  = (Payment (repaired (pay_customerId pay)) (pay_rest pay),
     if decide (repairable (pay_customerId pay)) then 1 else 0).
Proof.
  intros Hin. unfold fix_payment.
  destruct (pay_customerId pay) as [ref|] eqn:Hcid.
  - rewrite (fcf_lookup_referenced ref) by (right; by exists pay).
    destruct (is_invalid_ref ids (Some ref)) eqn:Hv.
    + cbn [mbind option_bind]. destruct (map_ref ids ref) as [new|] eqn:Hm.
      * rewrite decide_True; [done|]. split; [done|by eexists].
      * rewrite decide_False by (by intros [_ [? ?]]).
        f_equal. destruct pay; simpl in *; by subst.
    + rewrite decide_False by (by intros [? _]).
      f_equal. destruct pay; simpl in *; by subst.
  - rewrite decide_False by (by intros [? _]).
    cbn [is_invalid_ref]. f_equal. destruct pay; simpl in *; by subst.
Qed.

(** The two loops on the mapping built from the same files. *)
Lemma fcf_apply_mapping_repaired :
  apply_mapping m invoices payments
  = (((fun inv => Invoice (repaired (inv_customerId inv)) (inv_rest inv))
        <$> invoices,
      length (filter (fun inv => repairable (inv_customerId inv)) invoices)),
     ((fun pay => Payment (repaired (pay_customerId pay)) (pay_rest pay))
        <$> payments,
      length (filter (fun pay => repairable (pay_customerId pay)) payments))).
Proof.
  unfold apply_mapping. f_equal.
  - rewrite (surjective_pairing (for_each _ 0 invoices)). f_equal.
    + rewrite (for_each_fmap _ (fix_invoice_additive m)).
      apply Forall_fmap_ext, Forall_forall. intros inv Hin.
      by rewrite fcf_fix_invoice_repaired.
    + rewrite (for_each_count _ (fix_invoice_additive m)), <- sum_list_indicator.
      simpl. apply sum_list_fmap_ext. intros inv Hin.
      by rewrite fcf_fix_invoice_repaired.
  - rewrite (surjective_pairing (for_each _ 0 payments)). f_equal.
    + rewrite (for_each_fmap _ (fix_payment_additive m)).
      apply Forall_fmap_ext, Forall_forall. intros pay Hin.
      by rewrite fcf_fix_payment_repaired.
    + rewrite (for_each_count _ (fix_payment_additive m)), <- sum_list_indicator.
      simpl. apply sum_list_fmap_ext. intros pay Hin.
      by rewrite fcf_fix_payment_repaired.
Qed.

(** The mapping is empty exactly when the loops would count nothing. *)
Lemma fcf_mapping_empty_iff :
  m = ∅
  <-> length (filter (fun inv => repairable (inv_customerId inv)) invoices)
      + length (filter (fun pay => repairable (pay_customerId pay)) payments)
      = 0.
Proof.
  split.
  - intros Hempty.
    assert (Hnone : forall ref,
      (exists inv, inv ∈ invoices /\ inv_customerId inv = Some ref) \/
      (exists pay, pay ∈ payments /\ pay_customerId pay = Some ref) ->
      ~ repairable (Some ref)).
    { intros ref Hex [Hv [new Hm]]. cbn [mbind option_bind] in Hm.
      pose proof (fcf_lookup_referenced ref Hex) as Hl.
      rewrite Hempty, lookup_empty, Hv, Hm in Hl. done. }
    rewrite !filter_none; [done| |].
    + intros pay Hin [Hv Hm].
      destruct (pay_customerId pay) as [ref|] eqn:Hcid; [|done].
      apply (Hnone ref); [right; by exists pay|done].
    + intros inv Hin [Hv Hm].
      destruct (inv_customerId inv) as [ref|] eqn:Hcid; [|done].
      apply (Hnone ref); [left; by exists inv|done].
  - intros Hzero. apply map_empty. intros ref.
    rewrite create_comprehensive_customer_mapping_lookup.
    case_bool_decide as Href; [|done].
    destruct (map_ref ids ref) as [new|] eqn:Hm; [exfalso|done].
    apply elem_of_invalid_refs in Href as [Hv [[inv [Hin Hcid]]|[pay [Hin Hcid]]]].
    + assert (Hf : inv ∈ filter (fun inv => repairable (inv_customerId inv))
                          invoices).
      { apply list_elem_of_filter. split; [|done]. rewrite Hcid.
        split; [done|]. cbn [mbind option_bind]. by eexists. }
      destruct (filter _ invoices); [by apply elem_of_nil in Hf|]. simpl in Hzero. lia.
    + assert (Hf : pay ∈ filter (fun pay => repairable (pay_customerId pay))
                          payments).
      { apply list_elem_of_filter. split; [|done]. rewrite Hcid.
        split; [done|]. cbn [mbind option_bind]. by eexists. }
      destruct (filter _ payments); [by apply elem_of_nil in Hf|].
      simpl in Hzero. lia.
Qed.

(** The two files after a run. *)
Lemma fcf_fixed_files :
  (apply_customer_fixes ids invoices payments).1.2
  = (fun inv => Invoice (repaired (inv_customerId inv)) (inv_rest inv))
      <$> invoices /\
  (apply_customer_fixes ids invoices payments).2
  = (fun pay => Payment (repaired (pay_customerId pay)) (pay_rest pay))
      <$> payments.
Proof.
  pose proof fcf_apply_mapping_repaired as Hloops.
  unfold apply_customer_fixes. case_bool_decide as Hm.
  - rewrite Hm in Hloops. unfold apply_mapping in Hloops.
    rewrite (for_each_untouched _ (fix_invoice_additive ∅)) in Hloops
      by (intros [[ref|] ?] _; unfold fix_invoice; simpl;
          by rewrite ?lookup_empty).
    rewrite (for_each_untouched _ (fix_payment_additive ∅)) in Hloops
      by (intros [[ref|] ?] _; unfold fix_payment; simpl;
          by rewrite ?lookup_empty).
    by simplify_eq.
  - by rewrite Hloops.
Qed.

(** X5. [apply_customer_fixes] rewrites the [customerId] of exactly the
    invoices and payments whose reference is invalid (non-empty and not the
    [id] of a customer) and resolved by one of the four strategies, to what
    the first successful strategy gives. A valid, empty or missing reference
    and every other member stay. It returns the number of records rewritten
    when there is one, and [None] when there is none. *)
Theorem apply_customer_fixes_effect :
  let n :=
    length (filter (fun inv => repairable (inv_customerId inv)) invoices)
    + length (filter (fun pay => repairable (pay_customerId pay)) payments) in
  apply_customer_fixes ids invoices payments
  = (if decide (n = 0) then None else Some n,
     (fun inv => Invoice (repaired (inv_customerId inv)) (inv_rest inv))
       <$> invoices,
     (fun pay => Payment (repaired (pay_customerId pay)) (pay_rest pay))
       <$> payments).
Proof.
  intros n. destruct fcf_fixed_files as [Hi Hp].
  rewrite (surjective_pairing (apply_customer_fixes ids invoices payments)).
  rewrite (surjective_pairing (apply_customer_fixes ids invoices payments).1).
  rewrite Hi, Hp. do 2 f_equal.
  unfold apply_customer_fixes. case_bool_decide as Hm.
  - rewrite decide_True; [done|]. by apply fcf_mapping_empty_iff.
  - rewrite fcf_apply_mapping_repaired. cbn [fst].
    rewrite decide_False; [done|]. intros Hn. by apply Hm, fcf_mapping_empty_iff.
Qed.

(** X6. After [apply_customer_fixes] the invalid references of the two files
    are exactly the invalid references of before that no strategy resolves:
    every resolved one is gone from every record, and no new invalid
    reference is written. *)
Theorem apply_customer_fixes_remaining (ref : string) :
  ref ∈ invalid_refs ids (apply_customer_fixes ids invoices payments).1.2
                         (apply_customer_fixes ids invoices payments).2
  <-> ref ∈ invalid_refs ids invoices payments /\ map_ref ids ref = None.
Proof.
  destruct fcf_fixed_files as [-> ->].
  assert (Hrep : forall o,
    is_invalid_ref ids (Some ref) = true ->
    repaired o = Some ref <->
    o = Some ref /\ map_ref ids ref = None).
  { intros o Hv. destruct (is_invalid_ref ids o) eqn:Hvo.
    - destruct o as [r|]; [|done]. cbn [mbind option_bind].
      destruct (map_ref ids r) as [new|] eqn:Hm.
      + split.
        * intros [= ->]. apply fcf_map_ref_target, mem_true in Hm.
          simpl in Hv. rewrite Hm in Hv. by rewrite andb_false_r in Hv.
        * intros [[= ->] ?]. congruence.
      + split; [intros [= ->]; by split|by intros [? _]].
    - split; [intros ->; congruence|intros [-> _]; congruence]. }
  rewrite !elem_of_invalid_refs. split.
  - intros [Hv [[inv' [Hin Hcid]]|[pay' [Hin Hcid]]]].
    + apply list_elem_of_fmap in Hin as (inv & -> & Hin). cbn [inv_customerId] in Hcid.
      apply (Hrep _ Hv) in Hcid as [Hcid Hm]. split; [|done].
      split; [done|]. left. by exists inv.
    + apply list_elem_of_fmap in Hin as (pay & -> & Hin). cbn [pay_customerId] in Hcid.
      apply (Hrep _ Hv) in Hcid as [Hcid Hm]. split; [|done].
      split; [done|]. right. by exists pay.
  - intros [[Hv [[inv [Hin Hcid]]|[pay [Hin Hcid]]]] Hm]; (split; [done|]).
    + left. eexists. split; [apply list_elem_of_fmap; by exists inv|].
      cbn [inv_customerId]. by apply (Hrep _ Hv).
    + right. eexists. split; [apply list_elem_of_fmap; by exists pay|].
      cbn [pay_customerId]. by apply (Hrep _ Hv).
Qed.

(** X7. The main block never reaches its [else] branch: when
    [apply_customer_fixes] returns a number, the number is positive and the
    fixes are announced; when no record can be repaired it returns [None]
    and the comparison [total_fixes > 0] raises. *)
Theorem main_never_reports_no_fixes :
  main_announces_fixes (apply_customer_fixes ids invoices payments).1.1
  = if decide
         (length (filter (fun inv => repairable (inv_customerId inv)) invoices)
          + length (filter (fun pay => repairable (pay_customerId pay)) payments)
          = 0)
    then None else Some true.
Proof.
  unfold apply_customer_fixes. case_bool_decide as Hm.
  - rewrite decide_True; [done|]. by apply fcf_mapping_empty_iff.
  - rewrite fcf_apply_mapping_repaired. cbn [fst snd main_announces_fixes].
    rewrite decide_False by (intros Hn; by apply Hm, fcf_mapping_empty_iff).
    f_equal. apply Nat.ltb_lt.
    assert (Hn : ~ length (filter (fun inv => repairable (inv_customerId inv))
                             invoices)
                   + length (filter (fun pay => repairable (pay_customerId pay))
                               payments) = 0)
      by (intros Hn; by apply Hm, fcf_mapping_empty_iff).
    lia.
Qed.

End apply_customer_fixes.

(** ** Counting references *)

Lemma length_bind_sum {A B : Type} (h : A -> list B) (l : list A) :
  length (l ≫= h) = sum_list ((fun x => length (h x)) <$> l).
Proof.
  induction l as [|x l IH]; [done|].
  rewrite bind_cons, length_app, fmap_cons, IH. done.
Qed.

Lemma sum_list_filter_bind {K A B : Type} (P : B -> Prop)
  `{!forall x, Decision (P x)} (f : A -> list B) (g : K * A -> nat)
  (l : list (K * A)) :
  (forall x, x ∈ l -> g x = length (filter P (f x.2))) ->
  sum_list (g <$> l) = length (filter P (l.*2 ≫= f)).
Proof.
  induction l as [|x l IH]; intros Hg; [done|].
  rewrite !fmap_cons, bind_cons, filter_app, length_app.
  rewrite <- IH by (intros y Hy; by apply Hg, list_elem_of_further).
  rewrite <- (Hg x) by apply list_elem_of_here. done.
Qed.

Lemma length_filter_fmap {A B : Type} (P : B -> Prop)
  `{!forall x, Decision (P x)} (f : A -> B) (l : list A) :
  length (filter P (f <$> l)) = length (filter (fun x => P (f x)) l).
Proof.
  induction l as [|x l IH]; [done|].
  rewrite fmap_cons, !filter_cons. destruct (decide (P (f x))); simpl; by rewrite IH.
Qed.

(** A map that sends elements outside [P] outside [P] does not make the
    elements of [P] more. *)
Lemma length_filter_fmap_le {A : Type} (P : A -> Prop)
  `{!forall x, Decision (P x)} (f : A -> A) (l : list A) :
  (forall x, x ∈ l -> P (f x) -> P x) ->
  length (filter P (f <$> l)) <= length (filter P l).
Proof.
  induction l as [|x l IH]; intros Hf; [done|].
  rewrite fmap_cons, !filter_cons.
  assert (IH' : length (filter P (f <$> l)) <= length (filter P l))
    by (apply IH; intros y Hy; by apply Hf, list_elem_of_further).
  pose proof (Hf x (list_elem_of_here _ _)) as Hx.
  destruct (decide (P (f x))), (decide (P x)); simpl; try lia. tauto.
Qed.

(** ** [fix_product_references] and [analyze_product_integrity] together *)

Section product_fix_and_analysis.

Import FixDataIntegrity.

Context (product_mapping : gmap string (option string)).

Local Abbreviation fixed_ref :=
  (fun r : string => default r (target_of product_mapping r)).
Local Abbreviation has_target :=
  (fun r : string => is_Some (target_of product_mapping r)).

(** The three loops of [fix_product_references], each from its own zero. *)
Lemma fix_product_references_loops (st : fixer) :
  fix_product_references product_mapping st
  = (Fixer (products st)
       (for_each (fix_customer product_mapping) 0 (customers st)).1
       (for_each (fix_document product_mapping) 0 (invoices st)).1
       (for_each (fix_document product_mapping) 0 (quotes st)).1
       (payments st) (invalid_product_refs st),
     (for_each (fix_customer product_mapping) 0 (customers st)).2
     + (for_each (fix_document product_mapping) 0 (invoices st)).2
     + (for_each (fix_document product_mapping) 0 (quotes st)).2).
Proof.
  unfold fix_product_references.
  destruct (for_each (fix_customer product_mapping) 0 (customers st))
    as [customers' n1].
  rewrite (for_each_additive _ (fix_document_additive product_mapping) n1).
  destruct (for_each (fix_document product_mapping) 0 (invoices st))
    as [invoices' n2]. cbn [fst snd].
  rewrite (for_each_additive _ (fix_document_additive product_mapping) (n1 + n2)).
  by destruct (for_each (fix_document product_mapping) 0 (quotes st)).
Qed.

Lemma fix_customer_refs (s : nat) (kc : string * customer) :
  pricing_refs (fix_customer product_mapping s kc).1.2
  = fixed_ref <$> pricing_refs kc.2.
Proof.
  unfold fix_customer, pricing_refs.
  destruct (cust_customProductPricing kc.2) as [ps|] eqn:Hps.
  - pose proof (for_each_fmap _ (fix_pricing_additive product_mapping) s ps) as H.
    destruct (for_each (fix_pricing product_mapping) s ps) as [ps' n].
    cbn [fst snd cust_customProductPricing] in *. rewrite H, <- !list_fmap_compose.
    apply list_fmap_ext. intros _ p _. apply fix_pricing_product_id.
  - cbn [fst snd]. by rewrite Hps.
Qed.

Lemma fix_document_refs (s : nat) (kd : string * invoice) :
  item_refs (fix_document product_mapping s kd).1.2
  = fixed_ref <$> item_refs kd.2.
Proof.
  rewrite fix_document_frame. unfold item_refs. cbn [snd inv_lineItems].
  destruct (inv_lineItems kd.2) as [items|]; [|done].
  cbn [fmap option_fmap option_map]. by rewrite <- !list_fmap_compose.
Qed.

Lemma fix_customer_count (kc : string * customer) :
  (fix_customer product_mapping 0 kc).2
  = length (filter has_target (pricing_refs kc.2)).
Proof.
  unfold fix_customer, pricing_refs.
  destruct (cust_customProductPricing kc.2) as [ps|]; [|done].
  pose proof (for_each_count _ (fix_pricing_additive product_mapping) 0 ps) as H.
  destruct (for_each (fix_pricing product_mapping) 0 ps) as [ps' n].
  cbn [snd] in *. rewrite H, length_filter_fmap, <- sum_list_indicator.
  simpl. apply sum_list_fmap_ext. intros p _. unfold fix_pricing.
  destruct (target_of product_mapping (pricing_productId p)) eqn:E.
  - by rewrite decide_True.
  - rewrite decide_False; [done|]. by intros [? ?].
Qed.

Lemma fix_document_count (kd : string * invoice) :
  (fix_document product_mapping 0 kd).2
  = length (filter has_target (item_refs kd.2)).
Proof.
  unfold fix_document, item_refs.
  destruct (inv_lineItems kd.2) as [items|]; [|done].
  pose proof (for_each_count _ (fix_item_additive product_mapping) 0 items) as H.
  destruct (for_each (fix_item product_mapping) 0 items) as [items' n].
  cbn [snd] in *. rewrite H, length_filter_fmap, <- sum_list_indicator.
  simpl. apply sum_list_fmap_ext. intros item _. unfold fix_item.
  destruct (target_of product_mapping (item_productId item)) eqn:E.
  - by rewrite decide_True.
  - rewrite decide_False; [done|]. by intros [? ?].
Qed.

(** The references of a state after the fix are the references of before,
    each replaced by its target when it has one. *)
Lemma fix_product_references_refs (st : fixer) :
  let st' := (fix_product_references product_mapping st).1 in
  (customers st').*2 ≫= pricing_refs
  = fixed_ref <$> ((customers st).*2 ≫= pricing_refs) /\
  (invoices st').*2 ≫= item_refs
  = fixed_ref <$> ((invoices st).*2 ≫= item_refs) /\
  (quotes st').*2 ≫= item_refs
  = fixed_ref <$> ((quotes st).*2 ≫= item_refs).
Proof.
  intros st'. subst st'. rewrite fix_product_references_loops.
  cbn [fst customers invoices quotes].
  rewrite (for_each_fmap _ (fix_customer_additive product_mapping)),
    !(for_each_fmap _ (fix_document_additive product_mapping)).
  assert (Hbind : forall (A : Type) (f : string * A -> string * A)
            (refs : A -> list string) (l : list (string * A)),
    (forall x, refs (f x).2 = fixed_ref <$> refs x.2) ->
    (f <$> l).*2 ≫= refs = fixed_ref <$> (l.*2 ≫= refs)).
  { intros A f refs l Hf. induction l as [|x l IH]; [done|].
    rewrite !fmap_cons, !bind_cons, fmap_app, IH, Hf. done. }
  split; [|split]; apply Hbind; intros x.
  - apply fix_customer_refs.
  - apply fix_document_refs.
  - apply fix_document_refs.
Qed.

(** The count, loop by loop. *)
Lemma fix_product_references_count_by_holder (st : fixer) :
  (fix_product_references product_mapping st).2
  = length (filter has_target ((customers st).*2 ≫= pricing_refs))
    + length (filter has_target ((invoices st).*2 ≫= item_refs))
    + length (filter has_target ((quotes st).*2 ≫= item_refs)).
Proof.
  rewrite fix_product_references_loops. cbn [snd].
  rewrite (for_each_count _ (fix_customer_additive product_mapping)),
    !(for_each_count _ (fix_document_additive product_mapping)).
  cbn [Nat.add]. f_equal; [f_equal|].
  - apply sum_list_filter_bind. intros kc _. apply fix_customer_count.
  - apply sum_list_filter_bind. intros kd _. apply fix_document_count.
  - apply sum_list_filter_bind. intros kd _. apply fix_document_count.
Qed.

(** X8. The number [fix_product_references] returns is the number of
    product references with a usable target in the mapping, each occurrence
    counted once, over the pricing records of the customers, the line items
    of the invoices and the line items of the quotes; the state is left as
    it is when that number is 0. *)
Theorem fix_product_references_count (st : fixer) :
  (fix_product_references product_mapping st).2
  = length (filter has_target
              (((customers st).*2 ≫= pricing_refs)
               ++ ((invoices st).*2 ≫= item_refs)
               ++ ((quotes st).*2 ≫= item_refs))) /\
  ((fix_product_references product_mapping st).2 = 0 ->
   (fix_product_references product_mapping st).1 = st).
Proof.
  split.
  - rewrite fix_product_references_count_by_holder, !filter_app, !length_app. lia.
  - rewrite fix_product_references_loops. cbn [fst snd]. intros Hzero.
    assert (Hsame : forall (A : Type) (body : nat -> A -> A * nat) (l : list A),
      (forall s x, body s x = ((body 0 x).1, s + (body 0 x).2)) ->
      (forall x, (body 0 x).2 = 0 -> (body 0 x).1 = x) ->
      (for_each body 0 l).2 = 0 -> (for_each body 0 l).1 = l).
    { intros A body l Hadd Hfix. rewrite (for_each_count _ Hadd), (for_each_fmap _ Hadd).
      induction l as [|x l IH]; [done|]. rewrite !fmap_cons. cbn [sum_list Nat.add].
      intros Hsum. rewrite Hfix by (simpl in Hsum; lia).
      f_equal. apply IH. simpl in *. lia. }
    assert (Hpricing : forall p,
      (fix_pricing product_mapping 0 p).2 = 0 ->
      (fix_pricing product_mapping 0 p).1 = p).
    { intros p. unfold fix_pricing. by destruct (target_of _ _). }
    assert (Hitem : forall item,
      (fix_item product_mapping 0 item).2 = 0 ->
      (fix_item product_mapping 0 item).1 = item).
    { intros item. unfold fix_item. by destruct (target_of _ _). }
    assert (Hcustomer : forall kc,
      (fix_customer product_mapping 0 kc).2 = 0 ->
      (fix_customer product_mapping 0 kc).1 = kc).
    { intros [k c]. unfold fix_customer. cbn [fst snd].
      destruct (cust_customProductPricing c) as [ps|] eqn:Hps; [|done].
      pose proof (Hsame _ _ ps (fix_pricing_additive product_mapping) Hpricing)
        as Hps'.
      destruct (for_each (fix_pricing product_mapping) 0 ps) as [ps' n].
      cbn [fst snd] in *. intros ->. rewrite Hps' by done.
      destruct c. simpl in *. by subst. }
    assert (Hdocument : forall kd,
      (fix_document product_mapping 0 kd).2 = 0 ->
      (fix_document product_mapping 0 kd).1 = kd).
    { intros [k d]. unfold fix_document. cbn [fst snd].
      destruct (inv_lineItems d) as [items|] eqn:Hitems; [|done].
      pose proof (Hsame _ _ items (fix_item_additive product_mapping) Hitem)
        as Hitems'.
      destruct (for_each (fix_item product_mapping) 0 items) as [items' n].
      cbn [fst snd] in *. intros ->. rewrite Hitems' by done.
      destruct d. simpl in *. by subst. }
    rewrite (Hsame _ _ (customers st) (fix_customer_additive product_mapping)
               Hcustomer) by lia.
    rewrite (Hsame _ _ (invoices st) (fix_document_additive product_mapping)
               Hdocument) by lia.
    rewrite (Hsame _ _ (quotes st) (fix_document_additive product_mapping)
               Hdocument) by lia.
    by destruct st.
Qed.

Lemma check_customer_length (product_ids : list string) (kc : string * customer) :
  length (check_customer product_ids [] kc)
  = length (filter (fun r => r ∉ product_ids) (pricing_refs kc.2)).
Proof.
  unfold check_customer, pricing_refs.
  destruct (cust_customProductPricing kc.2) as [ps|]; [|done].
  rewrite (foldl_append_only _ (check_pricing_append_only product_ids kc.1)).
  cbn [app]. rewrite length_bind_sum, length_filter_fmap, <- sum_list_indicator.
  apply sum_list_fmap_ext. intros p _. unfold check_pricing.
  destruct (mem (pricing_productId p) product_ids) eqn:Hmem.
  - apply mem_true in Hmem. by rewrite decide_False by (intros ?; done).
  - apply mem_false in Hmem. by rewrite decide_True.
Qed.

Lemma check_document_length (product_ids : list string)
  (mk : string -> string -> string -> product_issue) (kd : string * invoice) :
  length (check_document product_ids mk [] kd)
  = length (filter (fun r => r ∉ product_ids) (item_refs kd.2)).
Proof.
  unfold check_document, item_refs.
  destruct (inv_lineItems kd.2) as [items|]; [|done].
  rewrite (foldl_append_only _ (check_item_append_only product_ids mk kd.1)).
  cbn [app]. rewrite length_bind_sum, length_filter_fmap, <- sum_list_indicator.
  apply sum_list_fmap_ext. intros item _. unfold check_item.
  destruct (mem (item_productId item) product_ids) eqn:Hmem.
  - apply mem_true in Hmem. by rewrite decide_False by (intros ?; done).
  - apply mem_false in Hmem. by rewrite decide_True.
Qed.

(** How many issues a run of the analysis appends. *)
Lemma product_issues_length (st : fixer) (found : list product_issue) :
  length (product_issues st found)
  = length found
    + (length (filter (fun r => r ∉ (products st).*1)
                 ((customers st).*2 ≫= pricing_refs))
       + length (filter (fun r => r ∉ (products st).*1)
                   ((invoices st).*2 ≫= item_refs))
       + length (filter (fun r => r ∉ (products st).*1)
                   ((quotes st).*2 ≫= item_refs))).
Proof.
  rewrite product_issues_by_holder, !length_app, !length_bind_sum.
  f_equal. rewrite Nat.add_assoc. f_equal; [f_equal|].
  - apply sum_list_filter_bind. intros kc _. apply check_customer_length.
  - apply sum_list_filter_bind. intros kd _. apply check_document_length.
  - apply sum_list_filter_bind. intros kd _. apply check_document_length.
Qed.

(** X9. [analyze_product_integrity] keeps the issues already recorded and
    appends one issue for each occurrence of a product reference that is not
    a key of the products: in the pricing records of the customers, in the
    line items of the invoices and in the line items of the quotes. Called
    twice on the same fixer, it records every issue twice. *)
Theorem analyze_product_integrity_appends (st : fixer) :
  let dangling :=
    length (filter (fun r => r ∉ (products st).*1)
              ((customers st).*2 ≫= pricing_refs))
    + length (filter (fun r => r ∉ (products st).*1)
                ((invoices st).*2 ≫= item_refs))
    + length (filter (fun r => r ∉ (products st).*1)
                ((quotes st).*2 ≫= item_refs)) in
  let st1 := (analyze_product_integrity st).1 in
  let st2 := (analyze_product_integrity st1).1 in
  (exists new,
     invalid_product_refs st1 = invalid_product_refs st ++ new /\
     length new = dangling /\
     invalid_product_refs st2 = invalid_product_refs st ++ new ++ new) /\
  customers st1 = customers st /\ invoices st1 = invoices st /\
  quotes st1 = quotes st /\ products st1 = products st /\
  payments st1 = payments st.
Proof.
  intros dangling st1 st2. split; [|done].
  exists (product_issues st []). subst st1 st2.
  cbn [analyze_product_integrity fst invalid_product_refs customers invoices
       quotes products].
  split; [|split].
  - rewrite (product_issues_by_holder st (invalid_product_refs st)).
    by rewrite (product_issues_by_holder st []).
  - by rewrite product_issues_length.
  - unfold product_issues at 1.
    cbn [customers invoices quotes products].
    change (product_issues st (product_issues st (invalid_product_refs st))
            = invalid_product_refs st ++ product_issues st [] ++ product_issues st []).
    rewrite (product_issues_by_holder st (product_issues st _)).
    rewrite (product_issues_by_holder st (invalid_product_refs st)).
    rewrite (product_issues_by_holder st []). cbn [app].
    by rewrite <- !app_assoc.
Qed.

(** X10. When every target of the mapping is a key of the products,
    [fix_product_references] leaves no more product issues for
    [analyze_product_integrity] than there were; and when, moreover, every
    reference that is not a product has a target, it leaves none. *)
Theorem fix_product_references_repairs (st : fixer) :
  (forall old new,
     target_of product_mapping old = Some new -> new ∈ (products st).*1) ->
  let st' := (fix_product_references product_mapping st).1 in
  length (product_issues st' []) <= length (product_issues st []) /\
  ((forall r,
      r ∈ ((customers st).*2 ≫= pricing_refs) ++ ((invoices st).*2 ≫= item_refs)
          ++ ((quotes st).*2 ≫= item_refs) ->
      r ∈ (products st).*1 \/ has_target r) ->
   product_issues st' [] = []).
Proof.
  intros Hvalid st'.
  assert (Hkeep : forall r, fixed_ref r ∉ (products st).*1 -> r ∉ (products st).*1).
  { intros r. destruct (target_of product_mapping r) as [new|] eqn:E;
      cbn [default]; [|done].
    intros Hnew. by destruct (Hnew (Hvalid r new E)). }
  destruct (fix_product_references_refs st) as (Hc & Hi & Hq).
  fold st' in Hc, Hi, Hq.
  assert (Hp : products st' = products st)
    by apply fix_product_references_products.
  split.
  - rewrite !product_issues_length, Hp, Hc, Hi, Hq. cbn [length Nat.add].
    pose proof (length_filter_fmap_le (fun r => r ∉ (products st).*1) fixed_ref
                  ((customers st).*2 ≫= pricing_refs) (fun r _ => Hkeep r)).
    pose proof (length_filter_fmap_le (fun r => r ∉ (products st).*1) fixed_ref
                  ((invoices st).*2 ≫= item_refs) (fun r _ => Hkeep r)).
    pose proof (length_filter_fmap_le (fun r => r ∉ (products st).*1) fixed_ref
                  ((quotes st).*2 ≫= item_refs) (fun r _ => Hkeep r)).
    lia.
  - intros Hcover. apply length_zero_iff_nil.
    rewrite product_issues_length, Hp, Hc, Hi, Hq. cbn [length Nat.add].
    assert (Hin : forall r,
      r ∈ ((customers st).*2 ≫= pricing_refs) ++ ((invoices st).*2 ≫= item_refs)
          ++ ((quotes st).*2 ≫= item_refs) ->
      ~ (fixed_ref r ∉ (products st).*1)).
    { intros r Hr Hnin. destruct (Hcover r Hr) as [Hprod|[new Hnew]].
      - by apply Hkeep in Hnin.
      - rewrite Hnew in Hnin. cbn [default] in Hnin.
        by destruct (Hnin (Hvalid r new Hnew)). }
    rewrite !filter_none; [done| | |];
      intros x (r & -> & Hr)%list_elem_of_fmap; apply Hin;
      rewrite !elem_of_app; auto.
Qed.

End product_fix_and_analysis.

Lemma fix_product_references_repairs_witness :
  let m : gmap string (option string) := {[ "outray" := Some "prod_outray" ]} in
  let st :=
    FixDataIntegrity.Fixer [("prod_outray", JNull)]
      [("c1", FixDataIntegrity.Customer
                (Some [FixDataIntegrity.Pricing "c1_outray" "outray" None []]) [])]
      [("i1", FixDataIntegrity.Invoice "i1" (Some "c1")
                (Some [FixDataIntegrity.LineItem "l1" "outray" []]) [])]
      [] [] [] in
  let st' := (FixDataIntegrity.fix_product_references m st).1 in
  (forall old new,
     FixDataIntegrity.target_of m old = Some new ->
     new ∈ (FixDataIntegrity.products st).*1) /\
  length (FixDataIntegrity.product_issues st' [])
  <= length (FixDataIntegrity.product_issues st []) /\
  FixDataIntegrity.product_issues st [] <> [] /\
  FixDataIntegrity.product_issues st' [] = [].
Proof.
  intros m st st'.
  assert (H : forall old new,
    FixDataIntegrity.target_of m old = Some new ->
    new ∈ (FixDataIntegrity.products st).*1).
  { intros old new. unfold FixDataIntegrity.target_of, m.
    destruct (decide (old = "outray")) as [->|Hne].
    - rewrite lookup_singleton_eq. simpl. intros [= <-]. apply list_elem_of_here.
    - by rewrite lookup_singleton_ne. }
  split; [exact H|].
  destruct (fix_product_references_repairs m st H) as [Hle Hnone].
  split; [exact Hle|]. split; [done|].
  apply Hnone. intros r Hr. right.
  assert (Hrefs : r = "outray").
  { simpl in Hr. rewrite !elem_of_cons in Hr.
    destruct Hr as [?|[?|Hr]]; [done|done|by apply elem_of_nil in Hr]. }
  subst r. by eexists.
Defined.

(** ** [create_customer_id_mapping] and [fix_customer_references] of the
    fixer *)

Section fixer_customer_fix.

Import FixDataIntegrity.

Lemma map_id_target (ids : list string) (invalid_id target : string) :
  map_id ids invalid_id = Some (Some target) ->
  PyStr.startswith invalid_id "cust_" = true /\
  (target = "plettenberg_bay" \/ target = "pretoria_caravans_outdoor"
   \/ target ∈ ids).
Proof.
  unfold map_id. destruct (PyStr.startswith invalid_id "cust_"); [|done].
  intros H. split; [done|].
  repeat match type of H with
  | context [if ?b then _ else _] => destruct b eqn:?
  end; simplify_eq; auto.
  - right. right. by apply mem_true.
  - right. right. by apply mem_true.
  - right. right. match goal with
    | H : List.find _ _ = Some _ |- _ => apply find_elem_of in H as [_ H]
    end. by apply mem_true.
Qed.

Lemma elem_of_invalid_customer_ids (st : fixer) (ref : string) :
  ref ∈ invalid_customer_ids st
  <-> PyStr.truthy ref = true /\ (ref ∉ (customers st).*1) /\
      exists kd, kd ∈ invoices st /\ inv_customerId kd.2 = Some ref.
Proof.
  unfold invalid_customer_ids. rewrite elem_of_remove_dups, list_elem_of_omap.
  split.
  - intros (kd & Hin & H). destruct (inv_customerId kd.2) as [c|] eqn:Hc; [|done].
    destruct (PyStr.truthy c) eqn:Ht; [|done].
    destruct (mem c (customers st).*1) eqn:Hm; [done|]. simpl in H.
    simplify_eq. apply mem_false in Hm. split; [done|]. split; [done|].
    by exists kd.
  - intros (Ht & Hnin & kd & Hin & Hc). exists kd. split; [done|].
    rewrite Hc, Ht. apply mem_false in Hnin. by rewrite Hnin.
Qed.

(** A usable target of the mapping: its source is an invalid reference of an
    invoice with the prefix, and the target is one of the two literal names
    or a key of the customers. *)
Lemma customer_id_mapping_target (st : fixer) (old new : string) :
  target_of (create_customer_id_mapping st) old = Some new ->
  (old ∈ invalid_customer_ids st /\
   map_id (customers st).*1 old = Some (Some new) /\
   PyStr.startswith new "cust_" = false)
  \/ new ∈ (customers st).*1.
Proof.
  unfold target_of. rewrite create_customer_id_mapping_lookup.
  case_bool_decide as Hin; [|done].
  destruct (map_id (customers st).*1 old) as [[t|]|] eqn:Hm; [|done|done].
  destruct (PyStr.truthy t); [|done]. intros [= ->].
  destruct (map_id_target _ _ _ Hm) as [_ [->|[->|Ht]]]; auto.
Qed.

Lemma customer_id_mapping_source (st : fixer) (old new : string) :
  target_of (create_customer_id_mapping st) old = Some new ->
  old ∈ invalid_customer_ids st /\
  map_id (customers st).*1 old = Some (Some new) /\
  PyStr.truthy new = true.
Proof.
  unfold target_of. rewrite create_customer_id_mapping_lookup.
  case_bool_decide as Hin; [|done].
  destruct (map_id (customers st).*1 old) as [[t|]|] eqn:Hm; [|done|done].
  destruct (PyStr.truthy t) eqn:Ht; [|done]. by intros [= ->].
Qed.

Lemma customer_id_mapping_chain_free (st : fixer) (old new : string) :
  target_of (create_customer_id_mapping st) old = Some new ->
  target_of (create_customer_id_mapping st) new = None.
Proof.
  intros H. apply customer_id_mapping_target in H as [H|H].
  - destruct H as (_ & _ & Hpre).
    unfold target_of. rewrite create_customer_id_mapping_lookup.
    case_bool_decide; [|done]. unfold map_id. by rewrite Hpre.
  - unfold target_of. rewrite create_customer_id_mapping_lookup.
    rewrite bool_decide_eq_false_2; [done|].
    intros (_ & Hnin & _)%elem_of_invalid_customer_ids. done.
Qed.

Context (customer_mapping : gmap string (option string)).

Local Abbreviation new_ref :=
  (fun o : option string =>
     match customer_target_of customer_mapping o with
     | Some new => Some new
     | None => o
     end).

Lemma fix_document_customer_additive (s : nat) (kd : string * invoice) :
  fix_document_customer customer_mapping s kd
  = ((fix_document_customer customer_mapping 0 kd).1,
     s + (fix_document_customer customer_mapping 0 kd).2).
Proof.
  unfold fix_document_customer.
  destruct (customer_target_of _ _); simpl; f_equal; lia.
Qed.

Lemma fix_payment_customer_additive (s : nat) (kp : string * payment) :
  fix_payment_customer customer_mapping s kp
  = ((fix_payment_customer customer_mapping 0 kp).1,
     s + (fix_payment_customer customer_mapping 0 kp).2).
Proof.
  unfold fix_payment_customer.
  destruct (customer_target_of _ _); simpl; f_equal; lia.
Qed.

Lemma fix_document_customer_result (kd : string * invoice) :
  fix_document_customer customer_mapping 0 kd
  = ((kd.1, Invoice (inv_id kd.2) (new_ref (inv_customerId kd.2))
                    (inv_lineItems kd.2) (inv_rest kd.2)),
     if decide (is_Some (customer_target_of customer_mapping (inv_customerId kd.2)))
     then 1 else 0).
Proof.
  unfold fix_document_customer.
  destruct (customer_target_of customer_mapping (inv_customerId kd.2)) eqn:E.
  - by rewrite decide_True.
  - rewrite decide_False by (by intros [? ?]). by destruct kd as [k []].
Qed.

Lemma fix_payment_customer_result (kp : string * payment) :
  fix_payment_customer customer_mapping 0 kp
  = ((kp.1, Payment (pay_id kp.2) (new_ref (pay_customerId kp.2)) (pay_rest kp.2)),
     if decide (is_Some (customer_target_of customer_mapping (pay_customerId kp.2)))
     then 1 else 0).
Proof.
  unfold fix_payment_customer.
  destruct (customer_target_of customer_mapping (pay_customerId kp.2)) eqn:E.
  - by rewrite decide_True.
  - rewrite decide_False by (by intros [? ?]). by destruct kp as [k []].
Qed.

(** The three loops of [fix_customer_references], each from its own zero. *)
Lemma fix_customer_references_loops (st : fixer) :
  fix_customer_references customer_mapping st
  = (Fixer (products st) (customers st)
       (for_each (fix_document_customer customer_mapping) 0 (invoices st)).1
       (for_each (fix_document_customer customer_mapping) 0 (quotes st)).1
       (for_each (fix_payment_customer customer_mapping) 0 (payments st)).1
       (invalid_product_refs st),
     (for_each (fix_document_customer customer_mapping) 0 (invoices st)).2
     + (for_each (fix_document_customer customer_mapping) 0 (quotes st)).2
     + (for_each (fix_payment_customer customer_mapping) 0 (payments st)).2).
Proof.
  unfold fix_customer_references.
  destruct (for_each (fix_document_customer customer_mapping) 0 (invoices st))
    as [invoices' n1].
  rewrite (for_each_additive _ fix_document_customer_additive n1).
  destruct (for_each (fix_document_customer customer_mapping) 0 (quotes st))
    as [quotes' n2]. cbn [fst snd].
  rewrite (for_each_additive _ fix_payment_customer_additive (n1 + n2)).
  by destruct (for_each (fix_payment_customer customer_mapping) 0 (payments st)).
Qed.

(** With a mapping that has no usable target for any reference of the state,
    nothing is changed. *)
Lemma fix_customer_references_untouched (st : fixer) :
  (forall kd, kd ∈ invoices st ++ quotes st ->
     customer_target_of customer_mapping (inv_customerId kd.2) = None) ->
  (forall kp, kp ∈ payments st ->
     customer_target_of customer_mapping (pay_customerId kp.2) = None) ->
  fix_customer_references customer_mapping st = (st, 0).
Proof.
  intros Hd Hp. rewrite fix_customer_references_loops.
  rewrite !(for_each_untouched _ fix_document_customer_additive),
    (for_each_untouched _ fix_payment_customer_additive).
  - by destruct st.
  - intros kp Hin. unfold fix_payment_customer. by rewrite (Hp kp Hin).
  - intros kd Hin. unfold fix_document_customer.
    rewrite (Hd kd); [done|]. apply elem_of_app. by right.
  - intros kd Hin. unfold fix_document_customer.
    rewrite (Hd kd); [done|]. apply elem_of_app. by left.
Qed.

(** X11. [fix_customer_references] of the fixer replaces the [customerId]
    of the invoices, quotes and payments that have a usable target in the
    mapping (a key whose value is neither [None] nor empty) and changes
    nothing else: keys, [id], line items, other members, products, customers
    and recorded issues stay. The number it returns is the number of
    documents rewritten, over the three loops. *)
Theorem fix_customer_references_effect (st : fixer) :
  fix_customer_references customer_mapping st
  = (Fixer (products st) (customers st)
       ((fun kd : string * invoice =>
           (kd.1, Invoice (inv_id kd.2) (new_ref (inv_customerId kd.2))
                          (inv_lineItems kd.2) (inv_rest kd.2)))
          <$> invoices st)
       ((fun kd : string * invoice =>
           (kd.1, Invoice (inv_id kd.2) (new_ref (inv_customerId kd.2))
                          (inv_lineItems kd.2) (inv_rest kd.2)))
          <$> quotes st)
       ((fun kp : string * payment =>
           (kp.1, Payment (pay_id kp.2) (new_ref (pay_customerId kp.2))
                          (pay_rest kp.2)))
          <$> payments st)
       (invalid_product_refs st),
     length (filter (fun kd : string * invoice =>
                       is_Some (customer_target_of customer_mapping
                                  (inv_customerId kd.2))) (invoices st))
     + length (filter (fun kd : string * invoice =>
                         is_Some (customer_target_of customer_mapping
                                    (inv_customerId kd.2))) (quotes st))
     + length (filter (fun kp : string * payment =>
                         is_Some (customer_target_of customer_mapping
                                    (pay_customerId kp.2))) (payments st))).
Proof.
  rewrite fix_customer_references_loops.
  rewrite !(for_each_fmap _ fix_document_customer_additive),
    (for_each_fmap _ fix_payment_customer_additive),
    !(for_each_count _ fix_document_customer_additive),
    (for_each_count _ fix_payment_customer_additive).
  cbn [Nat.add]. rewrite <- !sum_list_indicator. f_equal.
  - f_equal.
    + apply list_fmap_ext. intros _ kd _. by rewrite fix_document_customer_result.
    + apply list_fmap_ext. intros _ kd _. by rewrite fix_document_customer_result.
    + apply list_fmap_ext. intros _ kp _. by rewrite fix_payment_customer_result.
  - f_equal; [f_equal|]; apply sum_list_fmap_ext.
    + intros kd _. by rewrite fix_document_customer_result.
    + intros kd _. by rewrite fix_document_customer_result.
    + intros kp _. by rewrite fix_payment_customer_result.
Qed.

End fixer_customer_fix.

(** X12. The customer fix of the fixer settles in one round: on the state
    it has produced, [fix_customer_references] with the same mapping changes
    nothing and returns 0, and so does it with the mapping that
    [create_customer_id_mapping] builds anew from that state. *)
Theorem fix_customer_references_settles (st : FixDataIntegrity.fixer) :
  let m := FixDataIntegrity.create_customer_id_mapping st in
  let st1 := (FixDataIntegrity.fix_customer_references m st).1 in
  FixDataIntegrity.fix_customer_references m st1 = (st1, 0) /\
  FixDataIntegrity.fix_customer_references
    (FixDataIntegrity.create_customer_id_mapping st1) st1 = (st1, 0).
Proof.
  intros m st1.
  assert (Hst1 : st1 = (FixDataIntegrity.fix_customer_references m st).1) by done.
  rewrite fix_customer_references_loops in Hst1. cbn [fst] in Hst1.
  rewrite !(for_each_fmap _ (fix_document_customer_additive m)),
    (for_each_fmap _ (fix_payment_customer_additive m)) in Hst1.
  assert (Hnew : forall o,
    FixDataIntegrity.customer_target_of m
      (match FixDataIntegrity.customer_target_of m o with
       | Some new => Some new
       | None => o
       end) = None).
  { intros o. destruct (FixDataIntegrity.customer_target_of m o) as [new|] eqn:E;
      [|done].
    destruct o as [old|]; [|done]. cbn [FixDataIntegrity.customer_target_of] in *.
    by apply customer_id_mapping_chain_free in E. }
  split.
  - apply fix_customer_references_untouched.
    + rewrite Hst1. cbn [FixDataIntegrity.invoices FixDataIntegrity.quotes].
      intros kd' [Hin|Hin]%elem_of_app;
        apply list_elem_of_fmap in Hin as (kd & -> & _);
        rewrite fix_document_customer_result; cbn [fst snd FixDataIntegrity.inv_customerId];
        apply Hnew.
    + rewrite Hst1. cbn [FixDataIntegrity.payments].
      intros kp' Hin. apply list_elem_of_fmap in Hin as (kp & -> & _).
      rewrite fix_payment_customer_result. cbn [fst snd FixDataIntegrity.pay_customerId].
      apply Hnew.
  - assert (Hcust : FixDataIntegrity.customers st1 = FixDataIntegrity.customers st)
      by (by rewrite Hst1).
    assert (Hnone : forall r,
      FixDataIntegrity.target_of
        (FixDataIntegrity.create_customer_id_mapping st1) r = None).
    { intros r.
      destruct (FixDataIntegrity.target_of
                  (FixDataIntegrity.create_customer_id_mapping st1) r)
        as [new'|] eqn:E; [exfalso|done].
      apply customer_id_mapping_source in E as (Hinv & Hmap & Htruthy).
      rewrite Hcust in Hmap.
      apply elem_of_invalid_customer_ids in Hinv as (Ht & Hnin & kd' & Hin & Hc).
      rewrite Hcust in Hnin.
      rewrite Hst1 in Hin. cbn [FixDataIntegrity.invoices] in Hin.
      apply list_elem_of_fmap in Hin as (kd & -> & Hin).
      rewrite fix_document_customer_result in Hc.
      cbn [fst snd FixDataIntegrity.inv_customerId] in Hc.
      destruct (FixDataIntegrity.customer_target_of m
                  (FixDataIntegrity.inv_customerId kd.2)) as [t|] eqn:Et.
      - simplify_eq.
        destruct (FixDataIntegrity.inv_customerId kd.2) as [old|]; [|done].
        cbn [FixDataIntegrity.customer_target_of] in Et.
        apply customer_id_mapping_target in Et as [(_ & _ & Hpre)|Hvalid];
          [|done].
        apply map_id_target in Hmap as [Hpre' _]. congruence.
      - assert (Hr : r ∈ FixDataIntegrity.invalid_customer_ids st).
        { apply elem_of_invalid_customer_ids.
          split; [done|]. split; [done|]. by exists kd. }
        rewrite Hc in Et. cbn [FixDataIntegrity.customer_target_of] in Et.
        unfold FixDataIntegrity.target_of, m in Et.
        rewrite create_customer_id_mapping_lookup in Et.
        rewrite bool_decide_eq_true_2 in Et by done.
        rewrite Hmap, Htruthy in Et. done. }
    apply fix_customer_references_untouched.
    + intros kd _. destruct (FixDataIntegrity.inv_customerId kd.2); [|done].
      apply Hnone.
    + intros kp _. destruct (FixDataIntegrity.pay_customerId kp.2); [|done].
      apply Hnone.
Qed.

(** ** The dictionaries [load_all_data] builds *)

Lemma dict_set_keys {A : Type} (k : string) (v : A) (d : list (string * A)) :
  (dict_set k v d).*1 = if bool_decide (k ∈ d.*1) then d.*1 else d.*1 ++ [k].
Proof.
  induction d as [|[k1 v1] d IH]; [done|]. cbn [dict_set].
  destruct (String.eqb_spec k k1) as [->|Hne].
  - rewrite bool_decide_eq_true_2; [done|]. apply list_elem_of_here.
  - rewrite fmap_cons, IH. cbn [fst fmap list_fmap].
    case_bool_decide as Hin.
    + rewrite bool_decide_eq_true_2; [done|]. by apply list_elem_of_further.
    + rewrite bool_decide_eq_false_2; [done|].
      intros [?|?]%elem_of_cons; done.
Qed.

Lemma dict_set_elem_of {A : Type} (k : string) (v : A) (d : list (string * A))
  (k' : string) (v' : A) :
  NoDup d.*1 ->
  (k', v') ∈ dict_set k v d
  <-> (k' = k /\ v' = v) \/ (k' <> k /\ (k', v') ∈ d).
Proof.
  induction d as [|[k1 v1] d IH]; intros Hnd.
  - cbn [dict_set]. rewrite list_elem_of_singleton. split.
    + intros [= -> ->]. by left.
    + intros [[-> ->]|[_ H]]; [done|by apply elem_of_nil in H].
  - rewrite fmap_cons in Hnd. apply NoDup_cons in Hnd as [Hk1 Hnd].
    cbn [dict_set fst] in *. destruct (String.eqb_spec k k1) as [->|Hne].
    + rewrite !elem_of_cons. split.
      * intros [[= -> ->]|Hin]; [by left|]. right. split; [|by right].
        intros ->. apply Hk1, list_elem_of_fmap. by exists (k1, v').
      * intros [[-> ->]|[Hne [[= -> ->]|Hin]]]; [by left|done|by right].
    + rewrite !elem_of_cons, (IH Hnd). split.
      * intros [[= -> ->]|[[-> ->]|[Hne' Hin]]].
        -- right. split; [done|by left].
        -- by left.
        -- right. split; [done|by right].
      * intros [[-> ->]|[Hne' [[= -> ->]|Hin]]].
        -- right. by left.
        -- by left.
        -- right. right. by split.
Qed.

Lemma by_id_snoc {A : Type} (id : A -> string) (xs : list A) (x : A) :
  FixDataIntegrity.by_id id (xs ++ [x])
  = dict_set (id x) x (FixDataIntegrity.by_id id xs).
Proof. unfold FixDataIntegrity.by_id. by rewrite foldl_app. Qed.

Lemma by_id_NoDup {A : Type} (id : A -> string) (xs : list A) :
  NoDup (FixDataIntegrity.by_id id xs).*1.
Proof.
  induction xs as [|x xs IH] using rev_ind; [constructor|].
  rewrite by_id_snoc, dict_set_keys. case_bool_decide as Hin; [done|].
  apply NoDup_app. split; [done|]. split.
  - intros k Hk ->%list_elem_of_singleton. done.
  - apply NoDup_singleton.
Qed.

Lemma by_id_elem_of {A : Type} (id : A -> string) (xs : list A)
  (k : string) (v : A) :
  (k, v) ∈ FixDataIntegrity.by_id id xs
  <-> last (filter (fun x => id x = k) xs) = Some v.
Proof.
  revert v. induction xs as [|x xs IH] using rev_ind; intros v.
  - split; [by intros ?%elem_of_nil|done].
  - rewrite by_id_snoc, (dict_set_elem_of _ _ _ _ _ (by_id_NoDup id xs)).
    rewrite filter_app, filter_cons, filter_nil.
    destruct (decide (id x = k)) as [Hk|Hk].
    + rewrite last_snoc. split.
      * intros [[_ ->]|[Hne _]]; [done|]. by destruct Hne.
      * intros [= ->]. by left.
    + rewrite app_nil_r, <- IH. split.
      * intros [[-> _]|[_ Hin]]; [by destruct Hk|done].
      * intros Hin. right. split; [by intros ->|done].
Qed.

Lemma by_id_values_elem_of {A : Type} (id : A -> string) (xs : list A) (v : A) :
  v ∈ (FixDataIntegrity.by_id id xs).*2 -> v ∈ xs.
Proof.
  intros ([k v'] & -> & Hin)%list_elem_of_fmap. cbn [snd].
  apply by_id_elem_of in Hin. apply last_Some_elem_of in Hin.
  by apply list_elem_of_filter in Hin as [_ Hin].
Qed.

(** X13. A dictionary built from a list by [{x["id"]: x for x in xs}] has
    each identifier of the list as a key once, and under a key the last
    record of the list with that identifier: of records that share an
    identifier, all but the last are dropped when the file is loaded. *)
Theorem by_id_last_wins {A : Type} (id : A -> string) (xs : list A) :
  NoDup (FixDataIntegrity.by_id id xs).*1 /\
  (forall k, k ∈ (FixDataIntegrity.by_id id xs).*1 <-> k ∈ id <$> xs) /\
  (forall k v,
     (k, v) ∈ FixDataIntegrity.by_id id xs
     <-> last (filter (fun x => id x = k) xs) = Some v).
Proof.
  split; [apply by_id_NoDup|]. split; [|apply by_id_elem_of].
  intros k. induction xs as [|x xs IH] using rev_ind; [done|].
  rewrite by_id_snoc, dict_set_keys, fmap_app, elem_of_app.
  cbn [fmap list_fmap]. rewrite list_elem_of_singleton, <- IH.
  case_bool_decide as Hin.
  - split; [by left|]. intros [?| ->]; done.
  - by rewrite elem_of_app, list_elem_of_singleton.
Qed.

(** ** [run_complete_fix] *)

Lemma length_filter_pos {A : Type} (P : A -> Prop) `{!forall x, Decision (P x)}
  (l : list A) :
  0 < length (filter P l) <-> Exists P l.
Proof.
  rewrite Exists_exists. split.
  - destruct (filter P l) as [|x l'] eqn:E; [simpl; lia|]. intros _.
    assert (Hx : x ∈ filter P l) by (rewrite E; apply list_elem_of_here).
    apply list_elem_of_filter in Hx as [HP Hin]. by exists x.
  - intros (x & Hin & HP).
    assert (Hx : x ∈ filter P l) by (by apply list_elem_of_filter).
    destruct (filter P l); [by apply elem_of_nil in Hx|simpl; lia].
Qed.

Section run_complete_fix.

Import FixDataIntegrity.

Local Abbreviation has_target :=
  (fun r : string => is_Some (target_of create_product_id_mapping r)).
Local Abbreviation product_refs st :=
  (((customers st).*2 ≫= pricing_refs) ++ ((invoices st).*2 ≫= item_refs)
   ++ ((quotes st).*2 ≫= item_refs)).

Lemma run_complete_fix_steps (fs : files) (st0 : fixer) :
  load_all_data fs = Some st0 ->
  let st1 := (analyze_product_integrity st0).1 in
  let fixed := fix_product_references create_product_id_mapping st1 in
  run_complete_fix fs
  = Some (RunResult fixed.1 (customer_issues fixed.1 [])
            (if (0 <? fixed.2)%nat then save_fixed_data fixed.1 fs else fs)
            (0 <? fixed.2)%nat).
Proof.
  intros Hload st1 fixed. unfold run_complete_fix. rewrite Hload.
  fold st1. fold fixed. by destruct fixed.
Qed.


Lemma fix_product_references_count_exists
  (product_mapping : gmap string (option string)) (st : fixer) :
  (0 <? (fix_product_references product_mapping st).2)%nat = true
  <-> Exists (fun r => is_Some (target_of product_mapping r)) (product_refs st).
Proof.
  rewrite Nat.ltb_lt, fix_product_references_count_by_holder.
  etrans; [|apply length_filter_pos]. rewrite !filter_app, !length_app. lia.
Qed.



(** X14. Once the files load, [run_complete_fix] returns [True] exactly
    when some product reference of the loaded data (of a pricing record or
    of a line item of an invoice or quote) has a usable target in the table
    of [create_product_id_mapping]; it writes the files in that case and in
    no other. *)
Theorem run_complete_fix_returns (fs : files) (st0 : fixer) :
  load_all_data fs = Some st0 ->
  exists r,
    run_complete_fix fs = Some r /\
    (run_returned r = true <-> Exists has_target (product_refs st0)) /\
    run_files r
    = if run_returned r then save_fixed_data (run_state r) fs else fs.
Proof.
  intros Hload. rewrite (run_complete_fix_steps fs st0 Hload).
  eexists. split; [reflexivity|]. cbn [run_returned run_files run_state].
  split; [|done]. by rewrite fix_product_references_count_exists.
Qed.

Lemma run_complete_fix_returns_witness :
  let fs :=
    Files (Flat [("prod_outray", JNull)])
      [("c1", Customer (Some [Pricing "c1_outray" "outray" None []]) [])]
      (AsList [Invoice "i1" (Some "c1") (Some [LineItem "l1" "outray" []]) []])
      None (AsList []) in
  let st0 :=
    Fixer [("prod_outray", JNull)]
      [("c1", Customer (Some [Pricing "c1_outray" "outray" None []]) [])]
      [("i1", Invoice "i1" (Some "c1") (Some [LineItem "l1" "outray" []]) [])]
      [] [] [] in
  load_all_data fs = Some st0 /\
  exists r,
    run_complete_fix fs = Some r /\
    (run_returned r = true <-> Exists has_target (product_refs st0)) /\
    run_files r
    = if run_returned r then save_fixed_data (run_state r) fs else fs.
Proof.
  intros fs st0.
  assert (H : load_all_data fs = Some st0) by reflexivity.
  split; [exact H|]. exact (run_complete_fix_returns fs st0 H).
Defined.



(** X16. A second run of [run_complete_fix] on the files a first run has
    left finds nothing to fix: it loads them, returns [False] and writes
    nothing. *)
Theorem run_complete_fix_twice (fs : files) (r : run_result) :
  run_complete_fix fs = Some r ->
  exists r2,
    run_complete_fix (run_files r) = Some r2 /\
    run_returned r2 = false /\
    run_files r2 = run_files r.
Proof.
  intros Hrun.
  destruct (load_all_data fs) as [st0|] eqn:Hload;
    [|unfold run_complete_fix in Hrun; by rewrite Hload in Hrun].
  pose proof Hrun as Hrun0.
  rewrite (run_complete_fix_steps fs st0 Hload) in Hrun.
  set (st1 := (analyze_product_integrity st0).1) in *.
  set (fixed := fix_product_references create_product_id_mapping st1) in *.
  destruct (0 <? fixed.2)%nat eqn:Hfixes; simplify_eq; cbn [run_files].
  2: { rewrite Hrun0. eexists. split; [reflexivity|]. by cbn. }
  (* The first run saved: the files are those of [save_fixed_data]. *)
  destruct (fix_product_references_refs create_product_id_mapping st1)
    as (Hc & Hi & Hq).
  fold fixed in Hc, Hi, Hq.
  assert (Hsettled : forall r0,
    r0 ∈ (fun r : string =>
            default r (target_of create_product_id_mapping r)) <$> product_refs st1 ->
    ~ has_target r0).
  { intros r0 (r1 & -> & _)%list_elem_of_fmap [t Ht].
    destruct (target_of create_product_id_mapping r1) as [new|] eqn:E;
      cbn [default from_option id] in Ht.
    - apply create_product_id_mapping_chain_free in E. congruence.
    - congruence. }
  rewrite !fmap_app, <- Hc, <- Hi, <- Hq in Hsettled.
  assert (Hload2 : exists st0',
    load_all_data (save_fixed_data fixed.1 fs) = Some st0' /\
    customers st0' = customers fixed.1 /\
    (forall d, d ∈ (invoices st0').*2 -> d ∈ (invoices fixed.1).*2) /\
    (forall d, d ∈ (quotes st0').*2 -> d ∈ (quotes fixed.1).*2)).
  { unfold load_all_data, save_fixed_data.
    cbn [products_json customers_json invoices_json quotes_json payments_json
         by_id_of].
    eexists. split; [reflexivity|]. cbn [customers invoices quotes].
    split; [done|]. split; [apply by_id_values_elem_of|].
    destruct (quotes fixed.1) as [|q qs] eqn:Hquotes.
    - assert (Hq0 : quotes st0 = []).
      { pose proof (f_equal quotes
          (f_equal fst (fix_product_references_loops create_product_id_mapping st1)))
          as Hl.
        fold fixed in Hl. cbn [fst quotes] in Hl. rewrite Hquotes in Hl.
        rewrite (for_each_fmap _ (fix_document_additive create_product_id_mapping))
          in Hl.
        symmetry in Hl. apply fmap_nil_inv in Hl. exact Hl. }
      unfold load_all_data in Hload. repeat case_match; simplify_eq;
        cbn [quotes] in Hq0; by rewrite ?Hq0.
    - apply by_id_values_elem_of. }
  destruct Hload2 as (st0' & Hload2 & Hc' & Hi' & Hq').
  rewrite (run_complete_fix_steps _ st0' Hload2).
  eexists. split; [reflexivity|]. cbn [run_returned run_files].
  assert (Hnone : (0 <? (fix_product_references create_product_id_mapping
                           (analyze_product_integrity st0').1).2)%nat = false).
  { apply not_true_is_false. rewrite fix_product_references_count_exists.
    cbn [analyze_product_integrity fst customers invoices quotes].
    rewrite Exists_exists. intros (r0 & Hin & Ht). apply (Hsettled r0); [|done].
    rewrite !elem_of_app in Hin. rewrite !elem_of_app.
    destruct Hin as [Hin|[Hin|Hin]].
    - left. by rewrite <- Hc'.
    - right. left. apply list_elem_of_bind in Hin as (d & Hr & Hd).
      apply list_elem_of_bind. exists d. split; [done|by apply Hi'].
    - right. right. apply list_elem_of_bind in Hin as (d & Hr & Hd).
      apply list_elem_of_bind. exists d. split; [done|by apply Hq']. }
  by rewrite Hnone.
Qed.

Lemma run_complete_fix_twice_witness :
  let fs :=
    Files (Flat [("prod_outray", JNull)])
      [("c1", Customer (Some [Pricing "c1_outray" "outray" None []]) [])]
      (AsList [Invoice "i1" (Some "c1") (Some [LineItem "l1" "outray" []]) []])
      None (AsList []) in
  exists r,
    run_complete_fix fs = Some r /\ run_returned r = true /\
    exists r2,
      run_complete_fix (run_files r) = Some r2 /\
      run_returned r2 = false /\
      run_files r2 = run_files r.
Proof.
  intros fs. eexists. split; [reflexivity|]. split; [reflexivity|].
  exact (run_complete_fix_twice fs _ eq_refl).
Defined.

End run_complete_fix.

(** ** How [verify_data_integrity] ends *)


(** ** [fix_customer_product_ids] after the fixer *)

Lemma fix_customer_untouched (product_mapping : gmap string (option string))
  (kc : string * FixDataIntegrity.customer) :
  (forall r, r ∈ FixDataIntegrity.pricing_refs kc.2 ->
             FixDataIntegrity.target_of product_mapping r = None) ->
  FixDataIntegrity.fix_customer product_mapping 0 kc = (kc, 0).
Proof.
  unfold FixDataIntegrity.fix_customer, FixDataIntegrity.pricing_refs.
  destruct kc as [k [ps rest]]. cbn [fst snd FixDataIntegrity.cust_customProductPricing
    FixDataIntegrity.cust_rest].
  destruct ps as [ps|]; [|done]. intros Hnone.
  rewrite (for_each_untouched _ (fix_pricing_additive product_mapping)); [done|].
  intros p Hin. unfold FixDataIntegrity.fix_pricing.
  rewrite Hnone; [done|]. apply list_elem_of_fmap. by exists p.
Qed.

(** X19. [fix_customer_product_ids] is a part of the product fix of the
    fixer: on the customers that [fix_product_references] leaves with the
    table of [create_product_id_mapping] it changes nothing and returns 0,
    and so it does on the customers that it has itself written. *)
Theorem fix_customer_product_ids_settled (st : FixDataIntegrity.fixer)
  (customers : list (string * FixDataIntegrity.customer)) :
  let st' :=
    (FixDataIntegrity.fix_product_references
       FixDataIntegrity.create_product_id_mapping st).1 in
  let customers' :=
    (FixCustomerProductIds.fix_customer_product_ids customers).1 in
  FixCustomerProductIds.fix_customer_product_ids (FixDataIntegrity.customers st')
  = (FixDataIntegrity.customers st', 0) /\
  FixCustomerProductIds.fix_customer_product_ids customers' = (customers', 0).
Proof.
  intros st' customers'.
  set (m3 := Some <$> FixCustomerProductIds.PRODUCT_ID_MAPPINGS).
  assert (Hsub : forall old new,
    FixDataIntegrity.target_of m3 old = Some new ->
    FixDataIntegrity.target_of FixDataIntegrity.create_product_id_mapping old
    = Some new).
  { assert (Hall : map_Forall (fun k t =>
        FixDataIntegrity.target_of FixDataIntegrity.create_product_id_mapping k
        = Some t) FixCustomerProductIds.PRODUCT_ID_MAPPINGS)
      by (apply (bool_decide_unpack _); by vm_compute).
    intros old new. unfold FixDataIntegrity.target_of at 1. unfold m3.
    rewrite lookup_fmap.
    destruct (FixCustomerProductIds.PRODUCT_ID_MAPPINGS !! old) as [t|] eqn:E;
      cbn [fmap option_fmap option_map]; [|done].
    destruct (PyStr.truthy t); [|done]. intros [= <-]. exact (Hall old t E). }
  assert (Hchain : forall old new,
    FixDataIntegrity.target_of m3 old = Some new ->
    FixDataIntegrity.target_of m3 new = None).
  { intros old new H. apply Hsub, create_product_id_mapping_chain_free in H.
    destruct (FixDataIntegrity.target_of m3 new) as [t|] eqn:E; [|done].
    apply Hsub in E. congruence. }
  split.
  - rewrite fix_customer_product_ids_agrees. fold m3.
    apply (for_each_untouched _ (fix_customer_additive m3)).
    intros kc' Hin. apply fix_customer_untouched. intros r Hr.
    assert (Hr' : r ∈ (FixDataIntegrity.customers st').*2
                      ≫= FixDataIntegrity.pricing_refs).
    { apply list_elem_of_bind. exists kc'.2. split; [done|].
      apply list_elem_of_fmap. by exists kc'. }
    destruct (fix_product_references_refs
                FixDataIntegrity.create_product_id_mapping st) as [Hc _].
    fold st' in Hc. rewrite Hc in Hr'.
    apply list_elem_of_fmap in Hr' as (r0 & -> & _).
    destruct (FixDataIntegrity.target_of m3 _) as [t|] eqn:E; [exfalso|done].
    apply Hsub in E.
    destruct (FixDataIntegrity.target_of
                FixDataIntegrity.create_product_id_mapping r0) as [new|] eqn:E0;
      cbn [default from_option id] in E.
    + apply create_product_id_mapping_chain_free in E0. congruence.
    + congruence.
  - subst customers'. rewrite !fix_customer_product_ids_agrees. fold m3.
    apply (for_each_stable _ (fix_customer_additive m3)
             (fix_customer_stable m3 Hchain)).
Qed.

(** ** [apply_manual_customer_mappings] *)

(** X20. [apply_manual_customer_mappings] rewrites a [customerId] only when
    it is one of its twelve keys, all of which start with [cust_], to a
    target that is not a key; run again on the files it has written, it
    changes nothing and returns 0. *)
Theorem apply_manual_customer_mappings_twice
  (invoices : list FinalCustomerFix.invoice)
  (payments : list FinalCustomerFix.payment) :
  let r := ManualCustomerFix.apply_manual_customer_mappings invoices payments in
  size ManualCustomerFix.all_mappings = 12 /\
  map_Forall (fun old new =>
                PyStr.startswith old "cust_" = true /\
                ManualCustomerFix.all_mappings !! new = None)
             ManualCustomerFix.all_mappings /\
  r.1.2 = (fun inv =>
             FinalCustomerFix.Invoice
               (match FinalCustomerFix.inv_customerId inv
                      ≫= (ManualCustomerFix.all_mappings !!.) with
                | Some new => Some new
                | None => FinalCustomerFix.inv_customerId inv
                end)
               (FinalCustomerFix.inv_rest inv)) <$> invoices /\
  ManualCustomerFix.apply_manual_customer_mappings r.1.2 r.2 = (0, r.1.2, r.2).
Proof.
  intros r.
  assert (Hall : map_Forall (fun old new =>
                   PyStr.startswith old "cust_" = true /\
                   ManualCustomerFix.all_mappings !! new = None)
                 ManualCustomerFix.all_mappings)
    by (apply (bool_decide_unpack _); by vm_compute).
  split; [by vm_compute|]. split; [exact Hall|].
  assert (Hchain : forall old new,
    ManualCustomerFix.all_mappings !! old = Some new ->
    ManualCustomerFix.all_mappings !! new = None)
    by (intros old new H; exact (proj2 (Hall old new H))).
  pose proof (apply_mapping_stable ManualCustomerFix.all_mappings Hchain
                invoices payments) as Hstable.
  subst r. unfold ManualCustomerFix.apply_manual_customer_mappings.
  destruct (FinalCustomerFix.apply_mapping ManualCustomerFix.all_mappings
              invoices payments) as [[i1 n1] [p1 n2]] eqn:Hap.
  cbn [fst snd] in *. split.
  - apply (f_equal (fun x => x.1.1)) in Hap. cbn [fst] in Hap. rewrite <- Hap.
    unfold FinalCustomerFix.apply_mapping. cbn [fst].
    rewrite (for_each_fmap _ (fix_invoice_additive ManualCustomerFix.all_mappings)).
    apply list_fmap_ext. intros _ inv _. unfold FinalCustomerFix.fix_invoice.
    destruct (FinalCustomerFix.inv_customerId inv) as [old|] eqn:Hc;
      cbn [mbind option_bind]; [|by destruct inv; simpl in *; subst].
    destruct (ManualCustomerFix.all_mappings !! old); [done|].
    by destruct inv; simpl in *; subst.
  - by rewrite Hstable.
Qed.

(** ** Loading, and saving what was loaded *)

Section load_and_save.

Import FixDataIntegrity.


(** X21. With invoices, payments and quotes given as lists whose records
    have identifiers that are all different, or with no quotes file or an
    empty one, [save_fixed_data] right after [load_all_data] writes every
    file back as it was. *)
Theorem load_save_identity (fs : files) (invs : list invoice)
  (pays : list payment) :
  invoices_json fs = AsList invs ->
  payments_json fs = AsList pays ->
  NoDup (inv_id <$> invs) ->
  NoDup (pay_id <$> pays) ->
  match quotes_json fs with
  | Some (AsList quotes) => NoDup (inv_id <$> quotes)
  | Some (AsObject kvs) => kvs = []
  | None => True
  end ->
  exists st, load_all_data fs = Some st /\ save_fixed_data st fs = fs.
Proof.
  intros Hi Hp Hndi Hndp Hq. unfold load_all_data.
  rewrite Hi, Hp. cbn [by_id_of]. eexists. split; [reflexivity|].
  unfold save_fixed_data. cbn [customers invoices quotes payments].
  rewrite (by_id_values inv_id invs Hndi), (by_id_values pay_id pays Hndp).
  destruct fs as [pj cj ij qj payj]. cbn in *. subst ij payj. f_equal.
  destruct qj as [[qs|kvs]|]; [| |done].
  - pose proof (by_id_values inv_id qs Hq) as Hv.
    destruct (by_id inv_id qs) as [|kd kds] eqn:Hb.
    + cbn in Hv. by subst qs.
    + by rewrite Hv.
  - by subst kvs.
Qed.

Lemma load_save_identity_witness :
  let invs := [Invoice "i1" (Some "c1") None []; Invoice "i2" None None []] in
  let pays := [Payment "p1" (Some "c1") []] in
  let fs :=
    Files (Nested [("prod_outray", JNull)]) [("c1", Customer None [])]
      (AsList invs)
      (Some (AsList [Invoice "q1" None None []]))
      (AsList pays) in
  NoDup (inv_id <$> invs) /\
  exists st, load_all_data fs = Some st /\ save_fixed_data st fs = fs.
Proof.
  intros invs pays fs.
  assert (Hndi : NoDup (inv_id <$> invs)) by (by apply (bool_decide_unpack _)).
  assert (Hndp : NoDup (pay_id <$> pays)) by (by apply (bool_decide_unpack _)).
  assert (Hq : NoDup (inv_id <$> [Invoice "q1" None None []]))
    by (by apply (bool_decide_unpack _)).
  split; [exact Hndi|].
  exact (load_save_identity fs invs pays eq_refl eq_refl Hndi Hndp Hq).
Defined.

End load_and_save.

(** ** The builders and the iteration order of their sets *)

Lemma fcr_map_ref_ext (ids ids' : list string) (ref : string) :
  (forall y, y ∈ ids <-> y ∈ ids') ->
  FixCustomerReferences.map_ref ids ref = FixCustomerReferences.map_ref ids' ref.
Proof.
  intros H. unfold FixCustomerReferences.map_ref, FixCustomerReferences.variations.
  cbn [List.find]. by rewrite !(mem_ext ids ids' _ H).
Qed.

Lemma map_id_ext (ids ids' : list string) (ref : string) :
  (forall y, y ∈ ids <-> y ∈ ids') ->
  FixDataIntegrity.map_id ids ref = FixDataIntegrity.map_id ids' ref.
Proof.
  intros H. unfold FixDataIntegrity.map_id.
  cbn [List.find]. by rewrite !(mem_ext ids ids' _ H).
Qed.

(** X22. The three builders go through a set of references in whatever
    order the set yields them; the dictionary they build is the same for
    every order. For [create_customer_mapping] and
    [create_customer_id_mapping] it is also the same for every order of the
    customer keys. *)
Theorem builders_independent_of_reference_order {A : Type}
  (customers : list (string * A))
  (invoices : list FixCustomerReferences.invoice)
  (ids : list string) (fcf_invoices : list FinalCustomerFix.invoice)
  (fcf_payments : list FinalCustomerFix.payment)
  (st : FixDataIntegrity.fixer)
  (keys1 refs1 refs2 keys3 refs3 : list string) :
  (forall x, x ∈ keys1 <-> x ∈ customers.*1) ->
  (forall x, x ∈ refs1 <-> x ∈ FixCustomerReferences.inv_customerId <$> invoices) ->
  (forall x, x ∈ refs2
             <-> x ∈ FinalCustomerFix.invalid_refs ids fcf_invoices fcf_payments) ->
  (forall x, x ∈ keys3 <-> x ∈ (FixDataIntegrity.customers st).*1) ->
  (forall x, x ∈ refs3 <-> x ∈ FixDataIntegrity.invalid_customer_ids st) ->
  foldl (FixCustomerReferences.map_step keys1) ∅ refs1
  = FixCustomerReferences.create_customer_mapping customers invoices /\
  foldl (FinalCustomerFix.map_step ids) ∅ refs2
  = FinalCustomerFix.create_comprehensive_customer_mapping ids fcf_invoices
      fcf_payments /\
  foldl (FixDataIntegrity.map_id_step keys3) ∅ refs3
  = FixDataIntegrity.create_customer_id_mapping st.
Proof.
  intros Hk1 Hr1 Hr2 Hk3 Hr3. split; [|split]; apply map_eq; intros ref.
  - rewrite create_customer_mapping_lookup.
    etrans; [exact (lookup_mapping_loop_empty
                      (FixCustomerReferences.map_ref keys1) refs1 ref)|].
    rewrite (bool_decide_ext _ _ (Hr1 ref)).
    by rewrite (fcr_map_ref_ext keys1 customers.*1 ref Hk1).
  - rewrite create_comprehensive_customer_mapping_lookup.
    etrans; [exact (lookup_mapping_loop_empty
                      (FinalCustomerFix.map_ref ids) refs2 ref)|].
    by rewrite (bool_decide_ext _ _ (Hr2 ref)).
  - rewrite create_customer_id_mapping_lookup.
    etrans; [exact (lookup_mapping_loop_empty
                      (FixDataIntegrity.map_id keys3) refs3 ref)|].
    rewrite (bool_decide_ext _ _ (Hr3 ref)).
    by rewrite (map_id_ext keys3 _ ref Hk3).
Qed.

Lemma builders_independent_of_reference_order_witness :
  let customers := [("a", tt); ("b", tt)] in
  let invoices :=
    [FixCustomerReferences.Invoice "i1" "cust_a" [];
     FixCustomerReferences.Invoice "i2" "cust_b" []] in
  foldl (FixCustomerReferences.map_step ["b"; "a"]) ∅ ["cust_b"; "cust_a"]
  = FixCustomerReferences.create_customer_mapping customers invoices.
Proof.
  intros customers invoices.
  refine (proj1 (builders_independent_of_reference_order customers invoices
                   [] [] [] (FixDataIntegrity.Fixer [] [] [] [] [] [])
                   ["b"; "a"] ["cust_b"; "cust_a"] [] [] [] _ _ _ _ _)).
  - intros x. simpl. rewrite !elem_of_cons. tauto.
  - intros x. simpl. rewrite !elem_of_cons. tauto.
  - intros x. reflexivity.
  - intros x. reflexivity.
  - intros x. reflexivity.
Defined.

(** X23. [create_comprehensive_customer_mapping] goes through the set of
    customer identifiers in its third and fourth strategies. Which
    references get an entry does not depend on the order of that set, and
    the entry itself does not when the first or second strategy gives it. *)
Theorem comprehensive_mapping_and_identifier_order (ids ids' : list string)
  (invoices : list FinalCustomerFix.invoice)
  (payments : list FinalCustomerFix.payment) (ref : string) :
  (forall y, y ∈ ids <-> y ∈ ids') ->
  let m :=
    FinalCustomerFix.create_comprehensive_customer_mapping ids invoices payments in
  let m' :=
    FinalCustomerFix.create_comprehensive_customer_mapping ids' invoices payments in
  (m !! ref = None <-> m' !! ref = None) /\
  (is_Some (FinalCustomerFix.strategy1 ids ref)
   \/ is_Some (FinalCustomerFix.strategy2 ids ref) ->
   m !! ref = m' !! ref).
Proof.
  intros H m m'. subst m m'.
  assert (H' : forall y, y ∈ ids' <-> y ∈ ids) by (intros y; by rewrite H).
  rewrite !create_comprehensive_customer_mapping_lookup.
  rewrite <- (invalid_refs_ext ids ids' invoices payments H).
  case_bool_decide as Hin; [|done]. split.
  - split; [apply (map_ref_None_ext ids ids' ref H)
           |apply (map_ref_None_ext ids' ids ref H')].
  - assert (H1 : FinalCustomerFix.strategy1 ids' ref
                 = FinalCustomerFix.strategy1 ids ref)
      by (unfold FinalCustomerFix.strategy1; by rewrite (mem_ext ids ids' _ H)).
    assert (H2 : FinalCustomerFix.strategy2 ids' ref
                 = FinalCustomerFix.strategy2 ids ref)
      by (unfold FinalCustomerFix.strategy2; by rewrite (mem_ext ids ids' _ H)).
    unfold FinalCustomerFix.map_ref. rewrite H1, H2.
    destruct (FinalCustomerFix.strategy1 ids ref); [done|].
    destruct (FinalCustomerFix.strategy2 ids ref); [done|].
    intros [[? ?]|[? ?]]; done.
Qed.

Lemma comprehensive_mapping_and_identifier_order_witness :
  let invoices := [FinalCustomerFix.Invoice (Some "cust_a") []] in
  FinalCustomerFix.create_comprehensive_customer_mapping ["a"; "b"] invoices []
    !! "cust_a"
  = FinalCustomerFix.create_comprehensive_customer_mapping ["b"; "a"] invoices []
    !! "cust_a".
Proof.
  intros invoices.
  assert (H : forall y : string, y ∈ ["a"; "b"] <-> y ∈ ["b"; "a"])
    by (intros y; rewrite !elem_of_cons; tauto).
  refine (proj2 (comprehensive_mapping_and_identifier_order
                   ["a"; "b"] ["b"; "a"] invoices [] "cust_a" H) _).
  left. by eexists.
Defined.

(** ** [analyze_customer_integrity] before and after the customer fix *)

Section customer_analysis.

Import FixDataIntegrity.

Lemma check_customer_ref_length (customer_ids : list string)
  (mk : string -> string -> customer_issue) (document_id : string)
  (customer_id : option string) (found : list customer_issue) :
  check_customer_ref customer_ids mk document_id customer_id found
  = found ++ check_customer_ref customer_ids mk document_id customer_id [] /\
  length (check_customer_ref customer_ids mk document_id customer_id [])
  = if decide (invalid_customer customer_ids customer_id = true) then 1 else 0.
Proof.
  unfold check_customer_ref. destruct customer_id as [c|].
  - destruct (invalid_customer customer_ids (Some c)); [done|].
    by rewrite app_nil_r.
  - by rewrite app_nil_r.
Qed.

Lemma customer_issues_loop_length {D : Type} (customer_ids : list string)
  (mk : string -> string -> customer_issue) (ref : D -> option string)
  (found : list customer_issue) (l : list (string * D)) :
  length (foldl (fun found (kd : string * D) =>
                   check_customer_ref customer_ids mk kd.1 (ref kd.2) found)
            found l)
  = length found
    + length (filter (fun kd : string * D =>
                        invalid_customer customer_ids (ref kd.2) = true) l).
Proof.
  revert found. induction l as [|kd l IH]; intros found; cbn [foldl].
  - rewrite filter_nil. simpl. lia.
  - rewrite IH, filter_cons.
    destruct (check_customer_ref_length customer_ids mk kd.1 (ref kd.2) found)
      as [-> _].
    destruct (check_customer_ref_length customer_ids mk kd.1 (ref kd.2) [])
      as [_ Hlen].
    rewrite length_app, Hlen.
    destruct (decide (invalid_customer customer_ids (ref kd.2) = true));
      simpl; lia.
Qed.

(** How many issues a run of the customer analysis appends. *)
Lemma customer_issues_length (st : fixer) (found : list customer_issue) :
  length (customer_issues st found)
  = length found
    + (length (filter (fun kd : string * invoice =>
                         invalid_customer (customers st).*1 (inv_customerId kd.2)
                         = true) (invoices st))
       + length (filter (fun kd : string * invoice =>
                           invalid_customer (customers st).*1 (inv_customerId kd.2)
                           = true) (quotes st))
       + length (filter (fun kp : string * payment =>
                           invalid_customer (customers st).*1 (pay_customerId kp.2)
                           = true) (payments st))).
Proof.
  unfold customer_issues.
  rewrite (customer_issues_loop_length _ payment_customer pay_customerId),
    (customer_issues_loop_length _ quote_customer inv_customerId),
    (customer_issues_loop_length _ invoice_customer inv_customerId).
  lia.
Qed.

(** X24. [analyze_customer_integrity] appends one issue for each invoice,
    quote and payment whose [customerId] is non-empty and not a key of the
    customers. The customer fix of the fixer, with the mapping
    [create_customer_id_mapping] builds, rewrites only such documents, so
    that it leaves no more customer issues than there were. *)
Theorem fix_customer_references_no_new_issues (st : fixer)
  (found : list customer_issue) :
  let invalid := invalid_customer (customers st).*1 in
  let st1 := (fix_customer_references (create_customer_id_mapping st) st).1 in
  length (customer_issues st found)
  = length found
    + length (filter (fun kd : string * invoice =>
                        invalid (inv_customerId kd.2) = true) (invoices st))
    + length (filter (fun kd : string * invoice =>
                        invalid (inv_customerId kd.2) = true) (quotes st))
    + length (filter (fun kp : string * payment =>
                        invalid (pay_customerId kp.2) = true) (payments st)) /\
  length (customer_issues st1 []) <= length (customer_issues st []).
Proof.
  intros invalid st1. split; [rewrite customer_issues_length; subst invalid; lia|].
  set (m := create_customer_id_mapping st).
  assert (Hst1 : st1 = (fix_customer_references m st).1) by done.
  rewrite fix_customer_references_loops in Hst1. cbn [fst] in Hst1.
  rewrite !(for_each_fmap _ (fix_document_customer_additive m)),
    (for_each_fmap _ (fix_payment_customer_additive m)) in Hst1.
  assert (Hkeep : forall o,
    invalid (match customer_target_of m o with
             | Some new => Some new
             | None => o
             end) = true -> invalid o = true).
  { intros o. destruct (customer_target_of m o) as [new|] eqn:E; [|done].
    intros _. destruct o as [old|]; [|done]. cbn [customer_target_of] in E.
    apply customer_id_mapping_source in E as (Hin & _ & _).
    apply elem_of_invalid_customer_ids in Hin as (Ht & Hnin & _).
    subst invalid. cbn [invalid_customer]. rewrite Ht.
    apply mem_false in Hnin. by rewrite Hnin. }
  rewrite !customer_issues_length, Hst1.
  cbn [customers invoices quotes payments length Nat.add]. fold invalid.
  pose proof (length_filter_fmap
                (fun kd : string * invoice => invalid (inv_customerId kd.2) = true)
                (fun kd => (fix_document_customer m 0 kd).1) (invoices st)) as Hi.
  pose proof (length_filter_fmap
                (fun kd : string * invoice => invalid (inv_customerId kd.2) = true)
                (fun kd => (fix_document_customer m 0 kd).1) (quotes st)) as Hq.
  pose proof (length_filter_fmap
                (fun kp : string * payment => invalid (pay_customerId kp.2) = true)
                (fun kp => (fix_payment_customer m 0 kp).1) (payments st)) as Hp.
  rewrite Hi, Hq, Hp.
  assert (Hle : forall (D : Type) (P Q : D -> Prop)
            `{!forall x, Decision (P x)} `{!forall x, Decision (Q x)} (l : list D),
    (forall x, P x -> Q x) -> length (filter P l) <= length (filter Q l)).
  { intros D P Q ? ? l HPQ. induction l as [|x l IH]; [done|].
    rewrite !filter_cons. specialize (HPQ x).
    destruct (decide (P x)), (decide (Q x)); simpl; try lia. tauto. }
  pose proof (Hle _ (fun kd : string * invoice =>
                       invalid (inv_customerId (fix_document_customer m 0 kd).1.2)
                       = true)
                (fun kd : string * invoice => invalid (inv_customerId kd.2) = true)
                _ _ (invoices st)) as Hi'.
  pose proof (Hle _ (fun kd : string * invoice =>
                       invalid (inv_customerId (fix_document_customer m 0 kd).1.2)
                       = true)
                (fun kd : string * invoice => invalid (inv_customerId kd.2) = true)
                _ _ (quotes st)) as Hq'.
  pose proof (Hle _ (fun kp : string * payment =>
                       invalid (pay_customerId (fix_payment_customer m 0 kp).1.2)
                       = true)
                (fun kp : string * payment => invalid (pay_customerId kp.2) = true)
                _ _ (payments st)) as Hp'.
  assert (Hdoc : forall kd : string * invoice,
    invalid (inv_customerId (fix_document_customer m 0 kd).1.2) = true ->
    invalid (inv_customerId kd.2) = true).
  { intros kd. rewrite fix_document_customer_result. apply Hkeep. }
  assert (Hpay : forall kp : string * payment,
    invalid (pay_customerId (fix_payment_customer m 0 kp).1.2) = true ->
    invalid (pay_customerId kp.2) = true).
  { intros kp. rewrite fix_payment_customer_result. apply Hkeep. }
  specialize (Hi' Hdoc). specialize (Hq' Hdoc). specialize (Hp' Hpay). lia.
Qed.

End customer_analysis.

(** ** The summary of [run_complete_fix] *)

Section run_summary.

Import FixDataIntegrity.



End run_summary.
